(** * Token tree: hierarchical token counts and their rendering

    A shallow embedding of [scripts/token_tree.py]: the [TokenNode] tree with
    [ensure_child] and [aggregate], the path walk of [build_token_tree], the
    formatter [format_tokens], the row producer [render_tree_lines] and the
    way [main] wires them together.

    Python values are modelled as follows.
    - [int] is [Z]; [str] is [string] (the bytes of its UTF-8 encoding, whose
      lexicographic order is the code point order Python compares by).
    - A [dict] is an association list in insertion order, which is the order
      [dict.values()] iterates in; a new key is appended at the end.
    - Nodes are mutated in place in the source.  Every node is referenced by
      its parent's [children] only, so the mutation is rendered as a functional
      update of the path from the root to the node.
    - [float] is IEEE 754 binary64 with round to nearest, ties to even; a
      finite value is a sign, a mantissa and an exponent.
    - A raised exception is the [Raise] branch of [outcome].  The exceptions
      are those the operations of the code raise on their operands.  What
      the interpreter raises when it runs out of a resource has no
      counterpart: [RecursionError] from the recursion of [aggregate] and of
      the walks on a very deep tree, [MemoryError] from a very long bar,
      and [ValueError] from the digit limit of the conversion of an [int]
      to a [str].  [Ok v] therefore reads: the code returns [v], if the
      interpreter lets it return. *)

From Stdlib Require Import ZArith List String Ascii Bool Lia Permutation Sorted.
From Stdlib Require Import Reals Lra Psatz.
From Stdlib Require DecimalString Floats.SpecFloat.
Import ListNotations.

Local Open Scope string_scope.
Local Open Scope Z_scope.

(** ** Exceptions *)

Inductive exn : Type :=
| IndexError
| OverflowError
| ZeroDivisionError.

Inductive outcome (A : Type) : Type :=
| Ok (a : A)
| Raise (e : exn).

Arguments Ok {A} a.
Arguments Raise {A} e.

Definition bind {A B : Type} (o : outcome A) (k : A -> outcome B) : outcome B :=
  match o with
  | Ok a => k a
  | Raise e => Raise e
  end.

Notation "x <- o ;; k" := (bind o (fun x => k))
  (at level 61, o at next level, right associativity).

(** ** The node type *)

(** [class TokenNode]: [name], [is_dir], [tokens] (default 0) and [children]
    (default: a fresh empty dict). *)
#[warnings="-register-all"]
Inductive TokenNode : Type :=
  mkNode {
    name : string;
    is_dir : bool;
    tokens : Z;
    children : list (string * TokenNode)
  }.

Definition values (cs : list (string * TokenNode)) : list TokenNode :=
  map snd cs.

Definition keys (cs : list (string * TokenNode)) : list string :=
  map fst cs.

(** [d[k]] for a key that may be absent. *)
Fixpoint lookup (k : string) (cs : list (string * TokenNode)) : option TokenNode :=
  match cs with
  | [] => None
  | (k', c) :: rest => if String.eqb k k' then Some c else lookup k rest
  end.

(** The effect on the dict of mutating the node stored under [k]: the entry
    keeps its position. *)
Fixpoint store (k : string) (c : TokenNode) (cs : list (string * TokenNode))
  : list (string * TokenNode) :=
  match cs with
  | [] => []
  | (k', c') :: rest =>
      if String.eqb k k' then (k', c) :: rest else (k', c') :: store k c rest
  end.

Definition set_children (n : TokenNode) (cs : list (string * TokenNode)) : TokenNode :=
  mkNode (name n) (is_dir n) (tokens n) cs.

Definition set_tokens (n : TokenNode) (t : Z) : TokenNode :=
  mkNode (name n) (is_dir n) t (children n).

(** [TokenNode.ensure_child]: the node after the call, and the returned child. *)
Definition ensure_child (self : TokenNode) (nm : string) (dir : bool)
  : TokenNode * TokenNode :=
  match lookup nm (children self) with
  | Some c => (self, c)
  | None =>
      let c := mkNode nm dir 0 [] in
      (set_children self ((children self ++ [(nm, c)])%list), c)
  end.

(** [sum] over a generator: starts at 0 and adds from the left. *)
Definition sum (l : list Z) : Z := fold_left Z.add l 0.

(** [TokenNode.aggregate]: the node after the call, and the returned count. *)
Fixpoint aggregate (self : TokenNode) : TokenNode * Z :=
  match self with
  | mkNode nm dir tok cs =>
      if negb dir then (self, tok)
      else
        let fix each (l : list (string * TokenNode))
          : list (string * TokenNode) * list Z :=
          match l with
          | [] => ([], [])
          | (k, c) :: rest =>
              let (c', v) := aggregate c in
              let (rest', vs) := each rest in
              ((k, c') :: rest', v :: vs)
          end in
        let (cs', vs) := each cs in
        (mkNode nm dir (sum vs) cs', sum vs)
  end.

(** ** The tree builder *)

(** One element of [files] as the loop of [build_token_tree] sees it: the
    parts of its path relative to the root, and the token count of its text,
    or [None] when [is_text_file] rejects it or its text does not decode. *)
Record file_in : Type :=
  mkFile {
    rel_parts : list string;
    counted : option Z
  }.

(** Lines 139-143 with [rel_parts = dirs ++ [last]]: walk down from [node]
    through [dirs], then create or reuse the node of [last] and set its
    count. *)
Fixpoint add_file (dirs : list string) (last : string) (tok : Z) (node : TokenNode)
  : TokenNode :=
  match dirs with
  | [] =>
      let (node', file_node) := ensure_child node last false in
      set_children node' (store last (set_tokens file_node tok) (children node'))
  | part :: dirs' =>
      let (node', child) := ensure_child node part true in
      set_children node' (store part (add_file dirs' last tok child) (children node'))
  end.

(** [rel_parts[:-1]] and [rel_parts[-1]]; the latter raises on an empty tuple,
    after the (empty) loop over the former. *)
Fixpoint split_last (parts : list string) : outcome (list string * string) :=
  match parts with
  | [] => Raise IndexError
  | [p] => Ok ([], p)
  | p :: rest => r <- split_last rest ;; Ok (p :: fst r, snd r)
  end.

(** The loop of [build_token_tree]: the root and the list of skipped files. *)
Fixpoint build_loop (files : list file_in) (root : TokenNode) (skipped : list file_in)
  : outcome (TokenNode * list file_in) :=
  match files with
  | [] => Ok (root, skipped)
  | f :: rest =>
      match counted f with
      | None => build_loop rest root ((skipped ++ [f])%list)
      | Some tok =>
          r <- split_last (rel_parts f) ;;
          build_loop rest (add_file (fst r) (snd r) tok root) skipped
      end
  end.

(** [build_token_tree]: [root_name] is [repo_root.name]. *)
Definition build_token_tree (root_name : string) (files : list file_in)
  : outcome (TokenNode * Z) :=
  r <- build_loop files (mkNode root_name true 0 []) [] ;;
  Ok (fst (aggregate (fst r)), Z.of_nat (List.length (snd r))).

(** ** Integers as text *)

(** [str(n)] for an [int]: its decimal digits.  The limit the interpreter
    sets on the number of digits of such a conversion, 4300 unless it is
    configured otherwise, is not modelled. *)
Definition str (n : Z) : string :=
  DecimalString.NilZero.string_of_int (Z.to_int n).

(** [len(s)] for a string of ASCII characters. *)
Definition len (s : string) : Z := Z.of_nat (String.length s).

(** [s * n]: empty when [n] is not positive.  The memory of the result is
    not modelled: the interpreter raises [MemoryError] for a string it
    cannot allocate. *)
Fixpoint repeat_nat (s : string) (n : nat) : string :=
  match n with
  | O => ""
  | S k => s ++ repeat_nat s k
  end.

Definition repeat (s : string) (n : Z) : string := repeat_nat s (Z.to_nat n).

(** ** Binary64 floats *)

(** A finite float: [(-1)^f_neg * f_man * 2^f_exp] with [0 <= f_man]. *)
Record float64 : Type :=
  mkFloat {
    f_neg : bool;
    f_man : Z;
    f_exp : Z
  }.

(** The result of an operation that may overflow to an infinity. *)
Inductive fvalue : Type :=
| Finite (x : float64)
| Infinity (neg : bool).

(** The fraction [(n / d) * 2^(-k)], numerator and denominator. *)
Definition scale2 (n d k : Z) : Z * Z :=
  if 0 <=? k then (n, d * 2 ^ k) else (n * 2 ^ (- k), d).

(** For [0 < n] and [0 < d], the exponent [e] with [2^e <= n / d < 2^(e+1)]. *)
Definition ilog2_frac (n d : Z) : Z :=
  let e0 := Z.log2 n - Z.log2 d in
  let (n', d') := scale2 n d e0 in
  if d' <=? n' then e0 else e0 - 1.

(** The integer nearest to [n / d] for [0 <= n] and [0 < d], ties to even. *)
Definition round_half_even (n d : Z) : Z :=
  let q := n / d in
  match 2 * (n mod d) ?= d with
  | Lt => q
  | Gt => q + 1
  | Eq => if Z.even q then q else q + 1
  end.

(** Exponent of the unit in the last place of a binary64 value whose
    magnitude lies in [[2^e, 2^(e+1))]: 53 bits of precision, and the
    subnormal exponent -1074 below the normal range. *)
Definition ulp_exp (e : Z) : Z := Z.max (e - 52) (- 1074).

(** [n / d] with [0 < n] and [0 < d], rounded to nearest, ties to even:
    mantissa and exponent. *)
Definition round_frac (n d : Z) : Z * Z :=
  let e := ulp_exp (ilog2_frac n d) in
  let (n', d') := scale2 n d e in
  (round_half_even n' d', e).

(** Whether [m * 2^e], a rounded value, reaches [2^1024]. *)
Definition overflows (m e : Z) : bool :=
  (971 <=? e) && (2 ^ 53 <=? m * 2 ^ (e - 971)).

(** [a / b] on two ints: the correctly rounded quotient. *)
Definition true_div (a b : Z) : outcome float64 :=
  if b =? 0 then Raise ZeroDivisionError
  else
    let neg := xorb (a <? 0) (b <? 0) in
    if a =? 0 then Ok (mkFloat neg 0 0)
    else
      let (m, e) := round_frac (Z.abs a) (Z.abs b) in
      if overflows m e then Raise OverflowError else Ok (mkFloat neg m e).

(** [float(n)] for an int, as float arithmetic converts an int operand. *)
Definition float_of_int (n : Z) : outcome float64 :=
  if n =? 0 then Ok (mkFloat false 0 0)
  else
    let (m, e) := round_frac (Z.abs n) 1 in
    if overflows m e then Raise OverflowError else Ok (mkFloat (n <? 0) m e).

(** [x * y] on two finite floats. *)
Definition fmul (x y : float64) : fvalue :=
  let neg := xorb (f_neg x) (f_neg y) in
  let m := f_man x * f_man y in
  if m =? 0 then Finite (mkFloat neg 0 0)
  else
    let (n, d) := scale2 m 1 (- (f_exp x + f_exp y)) in
    let (m', e') := round_frac n d in
    if overflows m' e' then Infinity neg else Finite (mkFloat neg m' e').

(** [int(x)]: truncation towards zero. *)
Definition trunc (x : float64) : Z :=
  let (n, d) := scale2 (f_man x) 1 (- f_exp x) in
  if f_neg x then - (n / d) else n / d.

(** A number that is an [int] or a [float], as [ratio] is. *)
Inductive number : Type :=
| Int (z : Z)
| Float (v : fvalue).

(** [x * k] for an int [k]. *)
Definition times (x : number) (k : Z) : outcome number :=
  match x with
  | Int z => Ok (Int (z * k))
  | Float (Finite f) => y <- float_of_int k ;; Ok (Float (fmul f y))
  | Float (Infinity s) =>
      (* not reached: no operand of [*] in the source is infinite *)
      y <- float_of_int k ;; Ok (Float (Infinity (xorb s (f_neg y))))
  end.

(** [int(x)]. *)
Definition int_of (x : number) : outcome Z :=
  match x with
  | Int z => Ok z
  | Float (Finite f) => Ok (trunc f)
  | Float (Infinity _) => Raise OverflowError
  end.

(** Left padding with spaces to a width, the [>w] of a format spec. *)
Definition pad_left (w : Z) (s : string) : string :=
  repeat " " (w - len s) ++ s.

(** The digits of [q] with at least [k] of them, zeros added on the left. *)
Definition zero_fill (k : nat) (q : Z) : string :=
  repeat "0" (Z.of_nat k - len (str q)) ++ str q.

(** The [.kf] presentation of a float: the exact binary value rounded to [k]
    decimals, ties to even. *)
Definition format_f (k : nat) (v : fvalue) : string :=
  match v with
  | Infinity s => if s then "-inf" else "inf"
  | Finite x =>
      let (n, d) := scale2 (f_man x * 10 ^ Z.of_nat k) 1 (- f_exp x) in
      let q := round_half_even n d in
      let whole := str (q / 10 ^ Z.of_nat k) in
      let digits :=
        match k with
        | O => whole
        | S _ => whole ++ "." ++ zero_fill k (q mod 10 ^ Z.of_nat k)
        end in
      if f_neg x then "-" ++ digits else digits
  end.

(** [format(x, ".kf")] for an int or a float; an int is converted first. *)
Definition format_number (k : nat) (x : number) : outcome string :=
  match x with
  | Int z => f <- float_of_int z ;; Ok (format_f k (Finite f))
  | Float v => Ok (format_f k v)
  end.

(** ** The formatter *)

(** [format_tokens]. *)
Definition format_tokens (value : Z) : outcome string :=
  if 1000 <=? value then
    x <- true_div value 1000 ;; Ok (format_f 1 (Finite x) ++ "k")
  else Ok (str value).

(** [max(l)] for a non-empty list [x :: l]. *)
Definition maximum (x : Z) (l : list Z) : Z := fold_left Z.max l x.

(** [max_token_text_len]. *)
Fixpoint max_token_text_len (node : TokenNode) : outcome Z :=
  match node with
  | mkNode nm dir tok cs =>
      s <- format_tokens tok ;;
      let fix each (l : list (string * TokenNode)) : outcome (list Z) :=
        match l with
        | [] => Ok []
        | (_, c) :: rest =>
            x <- max_token_text_len c ;;
            xs <- each rest ;;
            Ok (x :: xs)
        end in
      lengths <- each cs ;;
      Ok (maximum (len s) lengths)
  end.

(** ** The renderer *)

(** [sorted(l, key=key)] with string keys: a stable sort, here by insertion.
    An element is placed before the first one whose key is not smaller. *)
Section Sorted.
Context {A : Type}.
Variable key : A -> string.

Fixpoint insert_by (x : A) (l : list A) : list A :=
  match l with
  | [] => [x]
  | y :: rest =>
      if String.leb (key x) (key y) then x :: y :: rest
      else y :: insert_by x rest
  end.

Fixpoint sorted (l : list A) : list A :=
  match l with
  | [] => []
  | x :: rest => insert_by x (sorted rest)
  end.
End Sorted.

(** The display order of lines 219-222, over any list that carries nodes. *)
Definition display_order {A : Type} (node_of : A -> TokenNode) (l : list A) : list A :=
  let dirs := sorted (fun a => name (node_of a)) (filter (fun a => is_dir (node_of a)) l) in
  let files := sorted (fun a => name (node_of a)) (filter (fun a => negb (is_dir (node_of a))) l) in
  (dirs ++ files)%list.

(** [ordered] of line 222 for the children of a node. *)
Definition ordered (cs : list (string * TokenNode)) : list TokenNode :=
  display_order (fun c => c) (values cs).

(** The styles the rows use. *)
Inductive style : Type := green | blue | bold | magenta.

(** A [rich.text.Text]: pieces of text, each with its style. *)
Definition Text : Type := list (string * option style).

(** A table cell: a plain [str] or a [Text]. *)
Inductive cell : Type :=
| Plain (s : string)
| Rich (t : Text).

(** The arguments of one [table.add_row] call. *)
Record Row : Type :=
  mkRow {
    tokens_cell : Text;
    name_cell : Text;
    bar_cell : cell;
    percent_cell : string
  }.

(** The table: what its columns are given, and its rows. *)
Record Table : Type :=
  mkTable {
    tokens_min_width : Z;
    bar_min_width : Z;
    bar_max_width : Z;
    rows : list Row
  }.

Section Walk.
Variables max_tokens bar_width : Z.

(** Line 205. *)
Definition ratio_of (tok : Z) : outcome number :=
  if max_tokens =? 0 then Ok (Int 0)
  else x <- true_div tok max_tokens ;; Ok (Float (Finite x)).

(** Line 206. *)
Definition filled_of (tok : Z) (ratio : number) : outcome Z :=
  p <- times ratio bar_width ;;
  i <- int_of p ;;
  Ok (Z.max (if 0 <? tok then 1 else 0) i).

(** Lines 202-210: the bar and the percentage of a row. *)
Definition bar_and_percent (current : TokenNode) : outcome (cell * string) :=
  if negb (is_dir current) then
    ratio <- ratio_of (tokens current) ;;
    filled <- filled_of (tokens current) ratio ;;
    let empty := bar_width - filled in
    let bar := repeat "█" filled ++ repeat "░" empty in
    p <- times ratio 100 ;;
    s <- format_number 0 p ;;
    Ok (Rich [(bar, Some magenta)], pad_left 3 s ++ "%")
  else Ok (Plain "", "").

(** Lines 191-217: the row of [current]. *)
Definition row_of (current : TokenNode) (prefix : string) (is_last : bool) (depth : Z)
  : outcome Row :=
  let connector :=
    if depth =? 0 then "" else if is_last then "└── " else "├── " in
  let is_file := negb (is_dir current) in
  let tokens_style := if is_file then green else blue in
  let name_style := if is_file then None else Some bold in
  token_text <- format_tokens (tokens current) ;;
  let name_text := [(prefix ++ connector, None); (name current, name_style)] in
  bp <- bar_and_percent current ;;
  Ok (mkRow [(token_text, Some tokens_style)] name_text (fst bp) (snd bp)).

(** Line 192. *)
Definition next_prefix_of (prefix : string) (is_last : bool) : string :=
  prefix ++ (if is_last then "    " else "│   ").

(** The loop of lines 223-224 over children whose walks are given: the
    last one is walked with [is_last] set. *)
Fixpoint walk_each {A : Type} (walk_of : A -> string -> bool -> Z -> outcome (list Row))
  (l : list A) (prefix : string) (depth : Z) : outcome (list Row) :=
  match l with
  | [] => Ok []
  | a :: rest =>
      r <- walk_of a prefix (match rest with [] => true | _ => false end) depth ;;
      rs <- walk_each walk_of rest prefix depth ;;
      Ok (r ++ rs)%list
  end.

(** [walk]: the rows added for [current] and below.  The recursive calls
    are taken on the children as the dict holds them and paired with the
    child; the pairs are then put in display order and run in that order,
    which is the loop of the source (see [walk_unfold]). *)
Fixpoint walk (current : TokenNode) (prefix : string) (is_last : bool) (depth : Z)
  {struct current} : outcome (list Row) :=
  match current with
  | mkNode nm dir tok cs =>
      row <- row_of current prefix is_last depth ;;
      let fix each (l : list (string * TokenNode))
        : list (TokenNode * (string -> bool -> Z -> outcome (list Row))) :=
        match l with
        | [] => []
        | (_, c) :: rest => (c, walk c) :: each rest
        end in
      rs <- walk_each snd (display_order fst (each cs))
              (next_prefix_of prefix is_last) (depth + 1) ;;
      Ok (row :: rs)
  end.
End Walk.

(** Lines 205-206 together: the number of filled cells of the bar of a file
    with [tok] tokens. *)
Definition fill_width (tok max_tokens bar_width : Z) : outcome Z :=
  ratio <- ratio_of max_tokens tok ;; filled_of bar_width tok ratio.

(** [render_tree_lines]. *)
Definition render_tree_lines (node : TokenNode) (max_tokens bar_width max_token_len : Z)
  : outcome Table :=
  rs <- walk max_tokens bar_width node "" true 0 ;;
  Ok (mkTable max_token_len bar_width bar_width rs).

(** ** The summary *)

(** The three [nonlocal] variables of [summarize_tree]. *)
Record summary : Type :=
  mkSummary {
    count : Z;
    max_seen : Z;
    max_name : string
  }.

(** The inner [walk] of [summarize_tree]. *)
Fixpoint summarize_walk (current : TokenNode) (path_parts : list string) (st : summary)
  : summary :=
  match current with
  | mkNode nm dir tok cs =>
      if negb dir then
        let st1 := mkSummary (count st + 1) (max_seen st) (max_name st) in
        if max_seen st1 <? tok
        then mkSummary (count st1) tok (String.concat "/" (path_parts ++ [nm])%list)
        else st1
      else
        let fix each (l : list (string * TokenNode)) (st : summary) : summary :=
          match l with
          | [] => st
          | (_, c) :: rest => each rest (summarize_walk c (path_parts ++ [nm])%list st)
          end in
        each cs st
  end.

(** [summarize_tree]. *)
Definition summarize_tree (node : TokenNode) : Z * Z * string :=
  let st := summarize_walk node [] (mkSummary 0 0 "") in
  (count st, max_seen st, max_name st).

(** ** The entry point *)

(** [main] from [build_token_tree] on: the table it prints and the number
    of skipped files. *)
(** The call of lines 273-278: how [main] renders the tree it built. *)
Definition render (token_tree : TokenNode) (bar_width : Z) : outcome Table :=
  w <- max_token_text_len token_tree ;;
  render_tree_lines token_tree (tokens token_tree) bar_width w.

Definition main (root_name : string) (files : list file_in) (bar_width : Z)
  : outcome (Table * Z) :=
  r <- build_token_tree root_name files ;;
  t <- render (fst r) bar_width ;;
  Ok (t, snd r).

(** The end-to-end scenario: three counted files under the root [repo]. *)
Definition scenario : list file_in :=
  [ mkFile ["AGENTS.md"] (Some 120);
    mkFile ["skills"; "a"; "SKILL.md"] (Some 300);
    mkFile ["skills"; "b"; "SKILL.md"] (Some 80) ].

(** ** Predicates on trees *)

(** All the nodes of a tree, the root first. *)
Fixpoint nodes (n : TokenNode) : list TokenNode :=
  match n with
  | mkNode _ _ _ cs =>
      n :: (fix each (l : list (string * TokenNode)) : list TokenNode :=
              match l with
              | [] => []
              | (_, c) :: rest => (nodes c ++ each rest)%list
              end) cs
  end.

(** The file nodes of a tree. *)
Definition file_nodes (n : TokenNode) : list TokenNode :=
  filter (fun c => negb (is_dir c)) (nodes n).

(** Every file node of the tree has an empty [children] dict. *)
Definition files_are_leaves (n : TokenNode) : bool :=
  forallb (fun c => is_dir c || match children c with [] => true | _ => false end)
    (nodes n).

(** Whether walking from [n] along the keys [q] meets a file node. *)
Fixpoint reaches_file (q : list string) (n : TokenNode) : bool :=
  match q with
  | [] => false
  | k :: q' =>
      match lookup k (children n) with
      | None => false
      | Some c => negb (is_dir c) || reaches_file q' c
      end
  end.

(** [p] is an initial segment of [q]. *)
Fixpoint prefix (p q : list string) : bool :=
  match p, q with
  | [], _ => true
  | _ :: _, [] => false
  | a :: p', b :: q' => String.eqb a b && prefix p' q'
  end.

Definition proper_prefix (p q : list string) : bool :=
  prefix p q && (Nat.ltb (List.length p) (List.length q)).

(** No counted path has a counted path before it in the list (or in [seen])
    as a proper initial segment. *)
Fixpoint nesting_free (seen : list (list string)) (files : list file_in) : bool :=
  match files with
  | [] => true
  | f :: rest =>
      match counted f with
      | None => nesting_free seen rest
      | Some _ =>
          negb (existsb (fun p => proper_prefix p (rel_parts f)) seen)
          && nesting_free (rel_parts f :: seen) rest
      end
  end.

(** No counted file has an empty relative path. *)
Definition paths_nonempty (files : list file_in) : bool :=
  forallb (fun f => match counted f, rel_parts f with
                    | Some _, [] => false
                    | _, _ => true
                    end) files.

(** ** Predicates and values the properties are stated with *)

(** An entry of a [children] dict after [aggregate] ran on its node. *)
Definition aggregated (kc : string * TokenNode) : string * TokenNode :=
  (fst kc, fst (aggregate (snd kc))).

(** What [aggregate] returns on the node of an entry. *)
Definition returned (kc : string * TokenNode) : Z := snd (aggregate (snd kc)).

(** What the loop of the builder maintains on prefix-free input. *)
Definition built_from (seen : list (list string)) (root : TokenNode) : Prop :=
  files_are_leaves root = true
  /\ is_dir root = true
  /\ forall q, reaches_file q root = true ->
               exists p, In p seen /\ prefix p q = true.

(** The order [sorted] sorts by: the keys are in ascending order. *)
Definition key_le {A : Type} (key : A -> string) (x y : A) : Prop :=
  String.leb (key x) (key y) = true.

(** The same tree up to the iteration order of every [children] dict. *)
#[warnings="-register-all"]
Inductive same_contents : TokenNode -> TokenNode -> Prop :=
| same_node nm dir tok cs1 cs2 cs2' :
    Permutation cs2 cs2' ->
    Forall2 (fun kc1 kc2 =>
               fst kc1 = fst kc2 /\ same_contents (snd kc1) (snd kc2)) cs1 cs2' ->
    same_contents (mkNode nm dir tok cs1) (mkNode nm dir tok cs2).

(** The strings of a list are pairwise different. *)
Fixpoint distinct (l : list string) : bool :=
  match l with
  | [] => true
  | x :: rest => negb (existsb (String.eqb x) rest) && distinct rest
  end.

(** Under every node, no two children have the same name. *)
Definition distinct_names (n : TokenNode) : bool :=
  forallb (fun c => distinct (map name (values (children c)))) (nodes n).

(** The results of [f] over a list, or the first exception. *)
Fixpoint collect {A B : Type} (f : A -> outcome B) (l : list A) : outcome (list B) :=
  match l with
  | [] => Ok []
  | a :: rest => x <- f a ;; xs <- collect f rest ;; Ok (x :: xs)
  end.

(** Two outcomes that agree up to the order of the collected list. *)
Definition agree {B : Type} (o1 o2 : outcome (list B)) : Prop :=
  match o1, o2 with
  | Ok l1, Ok l2 => Permutation l1 l2
  | Raise e1, Raise e2 => e1 = e2
  | _, _ => False
  end.

(** Every dict of the tree has pairwise distinct keys, and files every child
    under its own name. *)
Definition keyed (n : TokenNode) : Prop :=
  Forall (fun c => NoDup (keys (children c))
                   /\ Forall (fun kc => name (snd kc) = fst kc) (children c))
    (nodes n).

(** [2^e] for any integer exponent. *)
Definition bpow (e : Z) : R := powerRZ 2%R e.

(** The real number a finite float stands for. *)
Definition B2R (x : float64) : R :=
  ((if f_neg x then -1 else 1) * IZR (f_man x) * bpow (f_exp x))%R.

(** [q] is [n / d] rounded to nearest, ties to even. *)
Definition nearest_even (q n d : Z) : Prop :=
  (2 * Z.abs (q * d - n) <= d)%Z
  /\ ((2 * Z.abs (q * d - n) = d)%Z -> Z.even q = true).

(** The value of a mantissa and an exponent. *)
Definition F2R (m e : Z) : R := (IZR m * bpow e)%R.

(** A float that is zero or positive. *)
Definition nonneg (x : float64) : Prop := f_neg x = false /\ (0 <= f_man x)%Z.

(** [x] is the float nearest to [n / d]. *)
Definition rounds (x : float64) (n d : Z) : Prop :=
  f_neg x = false /\ round_frac n d = (f_man x, f_exp x).

(** The tree of the scenario as the loop of the builder leaves it, before
    aggregation. *)
Definition sample_tree : TokenNode :=
  mkNode "repo" true 0
    [ ("AGENTS.md", mkNode "AGENTS.md" false 120 []);
      ("skills",
        mkNode "skills" true 0
          [ ("a", mkNode "a" true 0 [("SKILL.md", mkNode "SKILL.md" false 300 [])]);
            ("b", mkNode "b" true 0 [("SKILL.md", mkNode "SKILL.md" false 80 [])]) ]) ].

(** The same tree with the entries of two of its dicts in the other order. *)
Definition sample_tree_reordered : TokenNode :=
  mkNode "repo" true 0
    [ ("skills",
        mkNode "skills" true 0
          [ ("b", mkNode "b" true 0 [("SKILL.md", mkNode "SKILL.md" false 80 [])]);
            ("a", mkNode "a" true 0 [("SKILL.md", mkNode "SKILL.md" false 300 [])]) ]);
      ("AGENTS.md", mkNode "AGENTS.md" false 120 []) ].

(** A file given first, then a file below it. *)
Definition nested_files : list file_in :=
  [ mkFile ["a"] (Some 5); mkFile ["a"; "b"] (Some 7) ].

(** Half a unit in the last place, relative to a normal value. *)
Definition u53 : R := bpow (- 53).

(** A finite float as a [spec_float] in canonical form. *)
Definition to_spec (x : float64) : SpecFloat.spec_float :=
  if f_man x =? 0 then SpecFloat.S754_zero (f_neg x)
  else if f_man x =? 2 ^ 53
       then SpecFloat.S754_finite (f_neg x) (Z.to_pos (2 ^ 52)) (f_exp x + 1)
       else SpecFloat.S754_finite (f_neg x) (Z.to_pos (f_man x)) (f_exp x).

(** Equality of two [spec_float]s that are not NaN. *)
Definition spec_eqb (a b : SpecFloat.spec_float) : bool :=
  match a, b with
  | SpecFloat.S754_zero s, SpecFloat.S754_zero s' => Bool.eqb s s'
  | SpecFloat.S754_infinity s, SpecFloat.S754_infinity s' => Bool.eqb s s'
  | SpecFloat.S754_finite s m e, SpecFloat.S754_finite s' m' e' =>
      Bool.eqb s s' && Pos.eqb m m' && (e =? e')
  | _, _ => false
  end.

(** An int as binary64, by the Standard Library. *)
Definition spec_int (n : Z) : SpecFloat.spec_float :=
  SpecFloat.binary_normalize 53 1024 n 0 false.

(** [a / b] and [(a / b) * w] agree with [SFdiv] and [SFmul].  The operands
    are below [2^53]: [SFdiv] divides two floats, while [/] on two ints rounds
    the exact quotient once, whatever their size. *)
Definition agrees_with_spec (a b w : Z) : bool :=
  match true_div a b, float_of_int w with
  | Ok x, Ok y =>
      let q := SpecFloat.SFdiv 53 1024 (spec_int a) (spec_int b) in
      spec_eqb (to_spec x) q
      && spec_eqb (to_spec y) (spec_int w)
      && match fmul x y with
         | Finite z => spec_eqb (to_spec z) (SpecFloat.SFmul 53 1024 q (spec_int w))
         | Infinity _ => false
         end
  | _, _ => false
  end.

(** The integers from 1 to [n]. *)
Definition upto (n : nat) : list Z := map Z.of_nat (seq 1 n).

(** The file nodes met when walking down from [n] through directory nodes
    only: the nodes [aggregate] returns a stored count for, and the nodes
    [summarize_tree] counts.  Neither function looks below a file node. *)
Fixpoint top_files (n : TokenNode) : list TokenNode :=
  match n with
  | mkNode _ dir _ cs =>
      if negb dir then [n]
      else (fix each (l : list (string * TokenNode)) : list TokenNode :=
              match l with
              | [] => []
              | (_, c) :: rest => (top_files c ++ each rest)%list
              end) cs
  end.

(** The node reached from [n] by following the keys of [path]. *)
Fixpoint descend (path : list string) (n : TokenNode) : option TokenNode :=
  match path with
  | [] => Some n
  | k :: rest =>
      match lookup k (children n) with
      | None => None
      | Some c => descend rest c
      end
  end.

(** The name, the kind and the keys of a node. *)
Definition shape (n : TokenNode) : string * bool * list string :=
  (name n, is_dir n, keys (children n)).

(** The paths and counts of the files of [top_files], in the same order;
    a path starts with the parts given and ends with the name of the file. *)
Fixpoint top_entries (n : TokenNode) (parts : list string) : list (list string * Z) :=
  match n with
  | mkNode nm dir tok cs =>
      if negb dir then [((parts ++ [nm])%list, tok)]
      else (fix each (l : list (string * TokenNode)) : list (list string * Z) :=
              match l with
              | [] => []
              | (_, c) :: rest => (top_entries c (parts ++ [nm])%list ++ each rest)%list
              end) cs
  end.

(** What the inner [walk] of [summarize_tree] does at one file. *)
Definition visit (st : summary) (e : list string * Z) : summary :=
  let st1 := mkSummary (count st + 1) (max_seen st) (max_name st) in
  if max_seen st1 <? snd e
  then mkSummary (count st1) (snd e) (String.concat "/" (fst e))
  else st1.

(** Whether the loop of the builder skips a file. *)
Definition uncounted (f : file_in) : bool :=
  match counted f with
  | None => true
  | Some _ => false
  end.

(** What a row shows of a node: its count as text in the style of its kind,
    its name after the lead of the tree drawing, and a bar for a file only. *)
Definition shows (n : TokenNode) (r : Row) : Prop :=
  (exists s, format_tokens (tokens n) = Ok s
             /\ tokens_cell r = [(s, Some (if is_dir n then blue else green))])
  /\ (exists lead,
        name_cell r = [(lead, None); (name n, if is_dir n then Some bold else None)])
  /\ if is_dir n then bar_cell r = Plain "" /\ percent_cell r = ""
     else exists bar, bar_cell r = Rich [(bar, Some magenta)].

(** The table of a tree that is its root alone, a directory without tokens. *)
Definition root_only (root_name : string) (bar_width : Z) : Table :=
  mkTable 1 bar_width bar_width
    [mkRow [("0", Some blue)] [("", None); (root_name, Some bold)] (Plain "") ""].

(** The files the loop of the builder counts, in order: relative path and
    count. *)
Fixpoint counted_files (files : list file_in) : list (list string * Z) :=
  match files with
  | [] => []
  | f :: rest =>
      match counted f with
      | Some tok => (rel_parts f, tok) :: counted_files rest
      | None => counted_files rest
      end
  end.

(** No counted path is an initial segment of another counted path of the
    list or of [seen], or equal to one: the paths are those of different
    files, none of which is a directory of another. *)
Fixpoint prefix_free (seen : list (list string)) (files : list file_in) : bool :=
  match files with
  | [] => true
  | f :: rest =>
      match counted f with
      | None => prefix_free seen rest
      | Some _ =>
          negb (existsb (fun p => prefix p (rel_parts f) || prefix (rel_parts f) p) seen)
          && prefix_free (rel_parts f :: seen) rest
      end
  end.

(** What the loop of the builder maintains on such input: the files
    reached in the tree are the files counted so far. *)
Definition holds_files (seen : list (list string * Z)) (root : TokenNode) : Prop :=
  is_dir root = true
  /\ keyed root
  /\ (forall q, reaches_file q root = true ->
                exists p, In p (map fst seen) /\ prefix p q = true)
  /\ (forall q, q <> [] -> descend q root <> None ->
                exists p, In p (map fst seen) /\ prefix q p = true)
  /\ Permutation (top_entries root [])
       (map (fun e => (name root :: fst e, snd e)) seen).

(** In the words of the specification: the tree in which every directory
    node carries the sum of the counts of all the file nodes of its
    subtree, a flat sum over the files, and in which nothing else differs. *)
Fixpoint with_totals (n : TokenNode) : TokenNode :=
  match n with
  | mkNode nm dir tok cs =>
      mkNode nm dir (if dir then sum (map tokens (file_nodes n)) else tok)
        ((fix each (l : list (string * TokenNode)) : list (string * TokenNode) :=
            match l with
            | [] => []
            | (k, c) :: rest => (k, with_totals c) :: each rest
            end) cs)
  end.

(** A tree in which a file node holds children: the file [a] holds the
    directory [d], which holds the file [c]. *)
Definition below_file_tree : TokenNode :=
  mkNode "repo" true 0
    [("a", mkNode "a" false 5
             [("d", mkNode "d" true 0 [("c", mkNode "c" false 7 [])])])].

(** The nodes of a tree listed in display order, in the words of the
    specification: the node itself, then its children with all the
    directories before all the files and each of the two groups in
    ascending order of name, every child followed at once by the listing
    of what is below it. *)
#[warnings="-register-all"]
Inductive listed : TokenNode -> list TokenNode -> Prop :=
| listed_node n dirs files nss :
    Permutation (dirs ++ files) (values (children n)) ->
    Forall (fun c => is_dir c = true) dirs ->
    Forall (fun c => is_dir c = false) files ->
    StronglySorted (key_le name) dirs ->
    StronglySorted (key_le name) files ->
    Forall2 listed (dirs ++ files) nss ->
    listed n (n :: List.concat nss).

(** * Properties *)

(** ** Induction on trees *)

Lemma TokenNode_induction (P : TokenNode -> Prop) :
  (forall nm dir tok cs,
      Forall (fun kc => P (snd kc)) cs -> P (mkNode nm dir tok cs)) ->
  forall n, P n.
Proof.
  intros step. fix IH 1. intros [nm dir tok cs]. apply step.
  induction cs as [|[k c] rest IHrest]; constructor.
  - apply IH.
  - exact IHrest.
Qed.

Lemma nodes_unfold nm dir tok cs :
  nodes (mkNode nm dir tok cs)
  = mkNode nm dir tok cs :: flat_map nodes (values cs).
Proof.
  simpl. f_equal. induction cs as [|[k c] rest IH]; simpl; [reflexivity|].
  now rewrite IH.
Qed.

(** ** Sums *)

Lemma sum_shift (l : list Z) (a : Z) : fold_left Z.add l a = a + sum l.
Proof.
  unfold sum. revert a. induction l as [|x l IH]; intros a; simpl.
  - lia.
  - rewrite IH, (IH x). lia.
Qed.

Lemma sum_cons (x : Z) (l : list Z) : sum (x :: l) = x + sum l.
Proof. unfold sum at 1. simpl. apply sum_shift. Qed.

Lemma sum_app (l1 l2 : list Z) : sum (l1 ++ l2) = sum l1 + sum l2.
Proof.
  induction l1 as [|x l1 IH]; simpl.
  - reflexivity.
  - rewrite !sum_cons, IH. lia.
Qed.

(** ** Aggregation *)

Lemma aggregate_unfold nm dir tok cs :
  aggregate (mkNode nm dir tok cs)
  = if negb dir then (mkNode nm dir tok cs, tok)
    else (mkNode nm dir (sum (map returned cs)) (map aggregated cs),
          sum (map returned cs)).
Proof.
  simpl. destruct dir; simpl; [|reflexivity].
  match goal with
  | |- (let (_, _) := ?f cs in _) = _ =>
      assert (E : f cs = (map aggregated cs, map returned cs))
  end.
  { induction cs as [|[k c] rest IH]; [reflexivity|].
    rewrite IH. unfold aggregated, returned. simpl.
    destruct (aggregate c); reflexivity. }
  rewrite E. reflexivity.
Qed.

Lemma aggregate_file n : is_dir n = false -> aggregate n = (n, tokens n).
Proof. destruct n as [nm dir tok cs]. simpl. intros ->. reflexivity. Qed.

Lemma aggregate_returns_tokens n : snd (aggregate n) = tokens (fst (aggregate n)).
Proof.
  destruct n as [nm dir tok cs]. rewrite aggregate_unfold.
  destruct dir; reflexivity.
Qed.

Lemma aggregate_is_dir n : is_dir (fst (aggregate n)) = is_dir n.
Proof.
  destruct n as [nm dir tok cs]. rewrite aggregate_unfold.
  destruct dir; reflexivity.
Qed.

Lemma aggregate_name n : name (fst (aggregate n)) = name n.
Proof.
  destruct n as [nm dir tok cs]. rewrite aggregate_unfold.
  destruct dir; reflexivity.
Qed.

Lemma aggregate_twice n : aggregate (fst (aggregate n)) = aggregate n.
Proof.
  induction n as [nm dir tok cs IH] using TokenNode_induction.
  rewrite aggregate_unfold. destruct dir; cbn [negb fst].
  - rewrite aggregate_unfold. cbn [negb].
    assert (E1 : map aggregated (map aggregated cs) = map aggregated cs).
    { rewrite map_map. apply map_ext_Forall.
      eapply Forall_impl; [|exact IH]. intros [k c] Hc.
      unfold aggregated. cbn [fst snd] in *. now rewrite Hc. }
    assert (E2 : map returned (map aggregated cs) = map returned cs).
    { rewrite map_map. apply map_ext_Forall.
      eapply Forall_impl; [|exact IH]. intros [k c] Hc.
      unfold returned, aggregated. cbn [fst snd] in *. now rewrite Hc. }
    now rewrite E1, E2.
  - rewrite aggregate_unfold. reflexivity.
Qed.

Lemma filter_flat_map {A B : Type} (p : B -> bool) (g : A -> list B) (l : list A) :
  filter p (flat_map g l) = flat_map (fun a => filter p (g a)) l.
Proof.
  induction l as [|a l IH]; simpl; [reflexivity|].
  now rewrite filter_app, IH.
Qed.

Lemma forallb_flat_map {A B : Type} (p : B -> bool) (g : A -> list B) (l : list A) :
  forallb p (flat_map g l) = forallb (fun a => forallb p (g a)) l.
Proof.
  induction l as [|a l IH]; simpl; [reflexivity|].
  now rewrite forallb_app, IH.
Qed.

Lemma sum_flat_map {A : Type} (g : A -> list Z) (l : list A) :
  sum (flat_map g l) = sum (map (fun a => sum (g a)) l).
Proof.
  induction l as [|a l IH]; simpl; [reflexivity|].
  now rewrite sum_app, sum_cons, IH.
Qed.

Lemma flat_map_ext_Forall {A B : Type} (f g : A -> list B) (l : list A) :
  Forall (fun a => f a = g a) l -> flat_map f l = flat_map g l.
Proof.
  induction 1 as [|a l Ha _ IH]; simpl; [reflexivity|].
  now rewrite Ha, IH.
Qed.

Lemma forallb_ext_Forall {A : Type} (p q : A -> bool) (l : list A) :
  Forall (fun a => p a = q a) l -> forallb p l = forallb q l.
Proof.
  induction 1 as [|a l Ha _ IH]; simpl; [reflexivity|].
  now rewrite Ha, IH.
Qed.

Lemma forallb_map {A B : Type} (p : B -> bool) (f : A -> B) (l : list A) :
  forallb p (map f l) = forallb (fun a => p (f a)) l.
Proof.
  induction l as [|a l IH]; simpl; [reflexivity|].
  now rewrite IH.
Qed.

Lemma file_nodes_unfold nm dir tok cs :
  file_nodes (mkNode nm dir tok cs)
  = ((if dir then [] else [mkNode nm dir tok cs])
       ++ flat_map file_nodes (values cs))%list.
Proof.
  unfold file_nodes at 1. rewrite nodes_unfold. cbn [filter is_dir].
  rewrite filter_flat_map. destruct dir; reflexivity.
Qed.

Lemma files_are_leaves_unfold nm dir tok cs :
  files_are_leaves (mkNode nm dir tok cs)
  = (dir || match cs with [] => true | _ => false end)
    && forallb files_are_leaves (values cs).
Proof.
  unfold files_are_leaves at 1. rewrite nodes_unfold. cbn [forallb is_dir children].
  now rewrite forallb_flat_map.
Qed.

Lemma values_aggregated cs :
  values (map aggregated cs) = map (fun c => fst (aggregate c)) (values cs).
Proof. unfold values. rewrite !map_map. reflexivity. Qed.

Lemma tokens_aggregated cs :
  map tokens (values (map aggregated cs)) = map returned cs.
Proof.
  unfold values. rewrite !map_map. apply map_ext. intros kc.
  unfold aggregated, returned. cbn [snd]. now rewrite aggregate_returns_tokens.
Qed.

Lemma aggregate_file_nodes n : file_nodes (fst (aggregate n)) = file_nodes n.
Proof.
  induction n as [nm dir tok cs IH] using TokenNode_induction.
  rewrite aggregate_unfold. destruct dir; cbn [negb fst]; [|reflexivity].
  rewrite !file_nodes_unfold, values_aggregated. f_equal.
  rewrite flat_map_concat_map, map_map, <- flat_map_concat_map.
  apply flat_map_ext_Forall. unfold values. rewrite Forall_map. exact IH.
Qed.

Lemma aggregate_files_are_leaves n :
  files_are_leaves (fst (aggregate n)) = files_are_leaves n.
Proof.
  induction n as [nm dir tok cs IH] using TokenNode_induction.
  rewrite aggregate_unfold. destruct dir; cbn [negb fst]; [|reflexivity].
  rewrite !files_are_leaves_unfold, values_aggregated. cbn [orb]. f_equal.
  rewrite forallb_map. apply forallb_ext_Forall.
  unfold values. rewrite Forall_map. exact IH.
Qed.

(** The count an aggregated well-formed tree carries at its root is the sum
    over the file nodes of the tree. *)
Lemma aggregate_tokens n :
  files_are_leaves n = true ->
  tokens (fst (aggregate n)) = sum (map tokens (file_nodes n)).
Proof.
  induction n as [nm dir tok cs IH] using TokenNode_induction.
  rewrite files_are_leaves_unfold, aggregate_unfold, file_nodes_unfold.
  intros Hwf. apply andb_true_iff in Hwf as [Hleaf Hcs].
  destruct dir; cbn [negb fst tokens].
  - cbn [app]. rewrite flat_map_concat_map, concat_map, <- flat_map_concat_map.
    rewrite sum_flat_map. f_equal. unfold values. rewrite !map_map.
    apply map_ext_Forall. rewrite forallb_forall in Hcs.
    rewrite Forall_forall in IH |- *. intros kc Hin.
    unfold returned. rewrite aggregate_returns_tokens.
    apply IH; [exact Hin|]. apply Hcs. unfold values. now apply in_map.
  - destruct cs; [|discriminate]. cbn. unfold sum. cbn. lia.
Qed.

Lemma aggregate_nodes n d :
  files_are_leaves n = true ->
  In d (nodes (fst (aggregate n))) -> is_dir d = true ->
  tokens d = sum (map tokens (file_nodes d))
  /\ tokens d = sum (map tokens (values (children d))).
Proof.
  induction n as [nm dir tok cs IH] using TokenNode_induction.
  intros Hwf Hin Hdir.
  pose proof (aggregate_tokens _ Hwf) as Htok.
  pose proof (aggregate_file_nodes (mkNode nm dir tok cs)) as Hfiles.
  rewrite files_are_leaves_unfold in Hwf.
  apply andb_true_iff in Hwf as [Hleaf Hcs].
  rewrite aggregate_unfold in Hin, Htok, Hfiles.
  destruct dir; cbn [negb fst] in *.
  - rewrite nodes_unfold in Hin. destruct Hin as [<- | Hin].
    + split.
      * now rewrite Hfiles.
      * cbn [tokens children]. now rewrite tokens_aggregated.
    + rewrite values_aggregated in Hin. apply in_flat_map in Hin as [c' [Hc' Hd]].
      apply in_map_iff in Hc' as [c [<- Hc]].
      unfold values in Hc. apply in_map_iff in Hc as [kc [<- Hkc]].
      rewrite Forall_forall in IH. apply (IH kc Hkc); try assumption.
      rewrite forallb_forall in Hcs. apply Hcs. unfold values. now apply in_map.
  - destruct cs; [|discriminate]. cbn in Hin. destruct Hin as [<- | []].
    discriminate.
Qed.

(** ** Lookup in the children *)

Lemma lookup_present nm cs :
  In nm (keys cs) -> exists c, lookup nm cs = Some c /\ In (nm, c) cs.
Proof.
  induction cs as [|[k c] rest IH]; simpl; [intros []|].
  intros Hin. destruct (String.eqb nm k) eqn:E.
  - apply String.eqb_eq in E as ->. exists c. auto.
  - destruct Hin as [-> | Hin]; [now rewrite String.eqb_refl in E|].
    destruct (IH Hin) as [c' [Hl Hc']]. exists c'. auto.
Qed.

Lemma lookup_app nm cs cs' :
  lookup nm (cs ++ cs')
  = match lookup nm cs with Some c => Some c | None => lookup nm cs' end.
Proof.
  induction cs as [|[k c] rest IH]; simpl; [reflexivity|].
  destruct (String.eqb nm k); [reflexivity|exact IH].
Qed.

Lemma lookup_store_same nm c c0 cs :
  lookup nm cs = Some c0 -> lookup nm (store nm c cs) = Some c.
Proof.
  induction cs as [|[k c'] rest IH]; simpl; [discriminate|].
  destruct (String.eqb nm k) eqn:E; simpl; rewrite E; [reflexivity|exact IH].
Qed.

Lemma lookup_store_other nm k c cs :
  String.eqb nm k = false -> lookup nm (store k c cs) = lookup nm cs.
Proof.
  intros Hne. induction cs as [|[k' c'] rest IH]; simpl; [reflexivity|].
  destruct (String.eqb k k') eqn:E; simpl.
  - apply String.eqb_eq in E as <-. now rewrite Hne.
  - destruct (String.eqb nm k'); [reflexivity|exact IH].
Qed.

Lemma lookup_In nm c cs : lookup nm cs = Some c -> In c (values cs).
Proof.
  induction cs as [|[k c'] rest IH]; simpl; [discriminate|].
  destruct (String.eqb nm k).
  - intros [= ->]. now left.
  - intros H. right. now apply IH.
Qed.

Lemma forallb_values_store (p : TokenNode -> bool) k c cs :
  forallb p (values cs) = true -> p c = true ->
  forallb p (values (store k c cs)) = true.
Proof.
  intros Hcs Hc. induction cs as [|[k' c'] rest IH]; simpl in *; [reflexivity|].
  apply andb_true_iff in Hcs as [Hc' Hrest].
  destruct (String.eqb k k'); simpl.
  - now rewrite Hc, Hrest.
  - now rewrite Hc', IH.
Qed.

(** ** [ensure_child] *)

Lemma ensure_child_cases self nm dir :
  (exists c, lookup nm (children self) = Some c
             /\ ensure_child self nm dir = (self, c))
  \/ (lookup nm (children self) = None
      /\ ensure_child self nm dir
         = (set_children self (children self ++ [(nm, mkNode nm dir 0 [])]),
            mkNode nm dir 0 [])).
Proof.
  unfold ensure_child. destruct (lookup nm (children self)) as [c|].
  - left. now exists c.
  - right. now split.
Qed.

Lemma files_are_leaves_children n :
  files_are_leaves n = true -> forallb files_are_leaves (values (children n)) = true.
Proof.
  destruct n as [nm dir tok cs]. rewrite files_are_leaves_unfold.
  intros H. now apply andb_true_iff in H.
Qed.

Lemma files_are_leaves_set_children n cs :
  is_dir n = true -> forallb files_are_leaves (values cs) = true ->
  files_are_leaves (set_children n cs) = true.
Proof.
  intros Hdir Hcs. unfold set_children. rewrite files_are_leaves_unfold, Hdir, Hcs.
  reflexivity.
Qed.

Lemma ensure_child_files_are_leaves self nm dir :
  files_are_leaves self = true ->
  is_dir self = true \/ In nm (keys (children self)) ->
  files_are_leaves (fst (ensure_child self nm dir)) = true
  /\ files_are_leaves (snd (ensure_child self nm dir)) = true.
Proof.
  intros Hwf Hcond.
  destruct (ensure_child_cases self nm dir) as [[c [Hl ->]] | [Hl ->]]; cbn [fst snd].
  - split; [exact Hwf|].
    pose proof (files_are_leaves_children _ Hwf) as Hcs.
    rewrite forallb_forall in Hcs. apply Hcs. eapply lookup_In. exact Hl.
  - destruct Hcond as [Hdir | Hin].
    + split.
      * apply files_are_leaves_set_children; [exact Hdir|].
        unfold values. rewrite map_app, forallb_app.
        fold (values (children self)).
        rewrite (files_are_leaves_children _ Hwf). cbn [map snd forallb].
        rewrite files_are_leaves_unfold. now destruct dir.
      * rewrite files_are_leaves_unfold. now destruct dir.
    + apply lookup_present in Hin as [c [Hc _]]. congruence.
Qed.

(** ** The path walk *)

Lemma add_file_is_dir dirs last tok node :
  is_dir (add_file dirs last tok node) = is_dir node.
Proof.
  destruct dirs as [|part dirs']; cbn [add_file].
  - destruct (ensure_child_cases node last false) as [[c [_ ->]] | [_ ->]];
      reflexivity.
  - destruct (ensure_child_cases node part true) as [[c [_ ->]] | [_ ->]];
      reflexivity.
Qed.

Lemma add_file_files_are_leaves dirs last tok node :
  files_are_leaves node = true -> is_dir node = true ->
  reaches_file dirs node = false ->
  files_are_leaves (add_file dirs last tok node) = true.
Proof.
  revert node. induction dirs as [|part dirs' IH]; intros node Hwf Hdir Hreach;
    cbn [add_file].
  - pose proof (ensure_child_files_are_leaves node last false Hwf (or_introl Hdir))
      as [Hn Hc].
    assert (Hd : is_dir (fst (ensure_child node last false)) = true).
    { destruct (ensure_child_cases node last false) as [[c [_ ->]] | [_ ->]];
        exact Hdir. }
    destruct (ensure_child node last false) as [node' file_node]. cbn [fst snd] in *.
    apply files_are_leaves_set_children; [exact Hd|].
    apply forallb_values_store; [now apply files_are_leaves_children|].
    destruct file_node as [nm d t cs]. unfold set_tokens. cbn [name is_dir children].
    rewrite files_are_leaves_unfold in Hc |- *. exact Hc.
  - pose proof (ensure_child_files_are_leaves node part true Hwf (or_introl Hdir))
      as [Hn Hc].
    assert (Hd : is_dir (fst (ensure_child node part true)) = true).
    { destruct (ensure_child_cases node part true) as [[c [_ ->]] | [_ ->]];
        exact Hdir. }
    assert (Hchild : is_dir (snd (ensure_child node part true)) = true
                     /\ reaches_file dirs' (snd (ensure_child node part true)) = false).
    { cbn [reaches_file] in Hreach.
      destruct (ensure_child_cases node part true) as [[c [Hl ->]] | [_ ->]];
        cbn [snd].
      - rewrite Hl in Hreach. apply orb_false_iff in Hreach as [Hf Hr].
        split; [now destruct (is_dir c)|exact Hr].
      - split; [reflexivity|]. now destruct dirs'. }
    destruct Hchild as [Hcd Hcr].
    destruct (ensure_child node part true) as [node' child]. cbn [fst snd] in *.
    apply files_are_leaves_set_children; [exact Hd|].
    apply forallb_values_store; [now apply files_are_leaves_children|].
    now apply IH.
Qed.

Lemma prefix_head k l q : prefix (k :: l) (k :: q) = prefix l q.
Proof. cbn [prefix]. now rewrite String.eqb_refl. Qed.

Lemma lookup_appended k nm c cs :
  String.eqb k nm = false -> lookup k (cs ++ [(nm, c)]) = lookup k cs.
Proof.
  intros Hne. rewrite lookup_app. cbn [lookup]. rewrite Hne.
  now destruct (lookup k cs).
Qed.

Lemma reaches_file_leaf q nm dir tok : reaches_file q (mkNode nm dir tok []) = false.
Proof. now destruct q. Qed.

(** A file node met after [add_file] was met before, or lies at or below the
    added path. *)
Lemma add_file_reaches q dirs last tok node :
  reaches_file q (add_file dirs last tok node) = true ->
  reaches_file q node = true \/ prefix (dirs ++ [last]) q = true.
Proof.
  revert node q. induction dirs as [|part dirs' IH]; intros node q H;
    (destruct q as [|k q']; [discriminate|]); cbn [add_file] in H.
  - destruct (String.eqb k last) eqn:Ek.
    { right. apply String.eqb_eq in Ek as ->. cbn [app]. now rewrite prefix_head. }
    left. cbn [reaches_file].
    destruct (ensure_child_cases node last false) as [[c [Hl E]] | [Hl E]];
      rewrite E in H; cbn [reaches_file children set_children] in H;
      rewrite lookup_store_other in H by exact Ek.
    + exact H.
    + now rewrite lookup_appended in H by exact Ek.
  - destruct (String.eqb k part) eqn:Ek.
    + apply String.eqb_eq in Ek as ->. cbn [app]. rewrite prefix_head.
      cbn [reaches_file].
      destruct (ensure_child_cases node part true) as [[c [Hl E]] | [Hl E]];
        rewrite E in H; cbn [reaches_file children set_children] in H.
      * rewrite (lookup_store_same _ _ c) in H by exact Hl.
        rewrite add_file_is_dir in H. rewrite Hl.
        apply orb_true_iff in H as [H | H].
        -- left. now rewrite H.
        -- destruct (IH _ _ H) as [H' | H']; [left|now right].
           rewrite H'. apply orb_true_r.
      * rewrite (lookup_store_same _ _ (mkNode part true 0 [])) in H.
        2:{ rewrite lookup_app, Hl. cbn [lookup]. now rewrite String.eqb_refl. }
        rewrite add_file_is_dir in H. cbn [is_dir negb orb] in H.
        destruct (IH _ _ H) as [H' | H']; [|now right].
        now rewrite reaches_file_leaf in H'.
    + left. cbn [reaches_file].
      destruct (ensure_child_cases node part true) as [[c [Hl E]] | [Hl E]];
        rewrite E in H; cbn [reaches_file children set_children] in H;
        rewrite lookup_store_other in H by exact Ek.
      * exact H.
      * now rewrite lookup_appended in H by exact Ek.
Qed.

Lemma split_last_ok parts dirs last :
  split_last parts = Ok (dirs, last) -> parts = (dirs ++ [last])%list.
Proof.
  revert dirs. induction parts as [|p rest IH]; intros dirs; [discriminate|].
  cbn [split_last]. destruct rest as [|p' rest'].
  - intros [= <- <-]. reflexivity.
  - destruct (split_last (p' :: rest')) as [[ds l]|e]; cbn [bind fst snd];
      [|discriminate].
    intros [= <- <-]. cbn [app]. f_equal. now apply IH.
Qed.

Lemma split_last_raise parts e :
  split_last parts = Raise e -> parts = [] /\ e = IndexError.
Proof.
  revert e. induction parts as [|p rest IH]; intros e; cbn [split_last].
  - intros [= <-]. now split.
  - destruct rest as [|p' rest']; [discriminate|].
    destruct (split_last (p' :: rest')) as [[ds l]|e'] eqn:E; cbn [bind];
      [discriminate|].
    destruct (IH e' eq_refl) as [Hnil _]. discriminate.
Qed.

Lemma prefix_app_proper p dirs last :
  prefix p dirs = true -> proper_prefix p (dirs ++ [last]) = true.
Proof.
  unfold proper_prefix. revert dirs. induction p as [|a p IH]; intros dirs H.
  - cbn [prefix List.length andb]. apply Nat.ltb_lt. rewrite length_app.
    cbn [List.length]. lia.
  - destruct dirs as [|b dirs]; [discriminate|]. cbn [prefix] in H.
    apply andb_true_iff in H as [Hab Hp]. specialize (IH _ Hp).
    apply andb_true_iff in IH as [IH1 IH2].
    cbn [app prefix List.length]. rewrite Hab, IH1. cbn [andb].
    apply Nat.ltb_lt in IH2. apply Nat.ltb_lt. lia.
Qed.

Lemma build_loop_files_are_leaves files seen root skipped r :
  nesting_free seen files = true -> built_from seen root ->
  build_loop files root skipped = Ok r ->
  files_are_leaves (fst r) = true.
Proof.
  revert seen root skipped.
  induction files as [|f rest IH]; intros seen root skipped Hfree Hinv;
    cbn [build_loop nesting_free] in *.
  - intros [= <-]. apply Hinv.
  - destruct (counted f) as [tok|]; [|now apply IH with (seen := seen)].
    apply andb_true_iff in Hfree as [Hnew Hrest].
    destruct (split_last (rel_parts f)) as [[dirs last]|e] eqn:Es; cbn [bind fst snd];
      [|discriminate].
    apply split_last_ok in Es. rewrite Es in *.
    destruct Hinv as [Hwf [Hdir Hreach]].
    assert (Hdirs : reaches_file dirs root = false).
    { destruct (reaches_file dirs root) eqn:E; [|reflexivity].
      destruct (Hreach _ E) as [p [Hp Hpre]].
      apply negb_true_iff in Hnew.
      assert (Hex : existsb (fun p => proper_prefix p (dirs ++ [last])%list) seen = true).
      { apply existsb_exists. exists p. split; [exact Hp|].
        now apply prefix_app_proper. }
      congruence. }
    apply IH with (seen := ((dirs ++ [last])%list :: seen)); [exact Hrest|].
    split; [now apply add_file_files_are_leaves|].
    split; [now rewrite add_file_is_dir|].
    intros q Hq. apply add_file_reaches in Hq as [Hq | Hq].
    + destruct (Hreach _ Hq) as [p [Hp Hpre]]. exists p. split; [now right|exact Hpre].
    + exists (dirs ++ [last])%list. split; [now left|exact Hq].
Qed.

Lemma build_loop_outcome files root skipped :
  match build_loop files root skipped with
  | Ok _ => paths_nonempty files = true
  | Raise e => e = IndexError /\ paths_nonempty files = false
  end.
Proof.
  revert root skipped. induction files as [|f rest IH]; intros root skipped;
    cbn [build_loop paths_nonempty forallb]; [reflexivity|].
  fold (paths_nonempty rest).
  destruct (counted f) as [tok|]; [|apply IH].
  destruct (split_last (rel_parts f)) as [[dirs last]|e] eqn:Es; cbn [bind fst snd].
  - apply split_last_ok in Es. rewrite Es.
    destruct dirs; cbn [app]; apply IH.
  - apply split_last_raise in Es as [-> ->]. now split.
Qed.

(** ** The order on names *)

Lemma ascii_compare_lt a b : Ascii.compare a b = Lt <-> (N_of_ascii a < N_of_ascii b)%N.
Proof. unfold Ascii.compare. apply N.compare_lt_iff. Qed.

Lemma ascii_compare_eq a b : Ascii.compare a b = Eq <-> a = b.
Proof.
  split; [apply Ascii.compare_eq_iff|]. intros ->.
  unfold Ascii.compare. apply N.compare_refl.
Qed.

Lemma string_leb_trans s1 s2 s3 :
  String.leb s1 s2 = true -> String.leb s2 s3 = true -> String.leb s1 s3 = true.
Proof.
  unfold String.leb. revert s2 s3.
  induction s1 as [|a s1 IH]; intros [|b s2] [|c s3]; cbn [String.compare];
    try reflexivity; try discriminate.
  destruct (Ascii.compare a b) eqn:Eab; try discriminate;
    destruct (Ascii.compare b c) eqn:Ebc; try discriminate.
  - apply ascii_compare_eq in Eab as ->, Ebc as ->.
    rewrite (proj2 (ascii_compare_eq c c) eq_refl). apply IH.
  - apply ascii_compare_eq in Eab as ->. now rewrite Ebc.
  - apply ascii_compare_eq in Ebc as <-. now rewrite Eab.
  - change (N_of_ascii a < N_of_ascii b)%N in Eab.
    change (N_of_ascii b < N_of_ascii c)%N in Ebc.
    assert (H : Ascii.compare a c = Lt) by (apply ascii_compare_lt; lia).
    now rewrite H.
Qed.

(** ** Sorting *)

Section SortedFacts.
Context {A : Type}.
Variable key : A -> string.

Lemma insert_by_perm x l : Permutation (insert_by key x l) (x :: l).
Proof.
  induction l as [|y l IH]; cbn [insert_by]; [reflexivity|].
  destruct (String.leb (key x) (key y)); [reflexivity|].
  rewrite IH. apply perm_swap.
Qed.

Lemma sorted_perm l : Permutation (sorted key l) l.
Proof.
  induction l as [|x l IH]; cbn [sorted]; [reflexivity|].
  rewrite insert_by_perm. now constructor.
Qed.

Lemma insert_by_sorted x l :
  StronglySorted (key_le key) l -> StronglySorted (key_le key) (insert_by key x l).
Proof.
  induction 1 as [|y l Hl IH Hy]; cbn [insert_by].
  - repeat constructor.
  - destruct (String.leb (key x) (key y)) eqn:E.
    + constructor; [now constructor|].
      constructor; [exact E|].
      eapply Forall_impl; [|exact Hy]. intros z Hz.
      unfold key_le in *. eapply string_leb_trans; eassumption.
    + constructor; [exact IH|].
      eapply Permutation_Forall; [symmetry; apply insert_by_perm|].
      constructor; [|exact Hy].
      destruct (String.leb_total (key x) (key y)) as [H|H]; [congruence|exact H].
Qed.

Lemma sorted_sorted l : StronglySorted (key_le key) (sorted key l).
Proof.
  induction l as [|x l IH]; cbn [sorted]; [constructor|].
  now apply insert_by_sorted.
Qed.

(** A sorted list whose keys are pairwise distinct is determined by its
    elements. *)
Lemma sorted_unique l1 l2 :
  StronglySorted (key_le key) l1 -> StronglySorted (key_le key) l2 ->
  Permutation l1 l2 -> NoDup (map key l1) -> l1 = l2.
Proof.
  intros H1. revert l2. induction H1 as [|x l1 Hl1 IH Hx]; intros l2 H2 Hp Hnd.
  - apply Permutation_nil in Hp. now subst.
  - destruct H2 as [|y l2 Hl2 Hy].
    { symmetry in Hp. apply Permutation_nil in Hp. discriminate. }
    assert (Exy : x = y).
    { assert (Hxin : In x (y :: l2)) by (eapply Permutation_in; [exact Hp|now left]).
      assert (Hyin : In y (x :: l1))
        by (eapply Permutation_in; [symmetry; exact Hp|now left]).
      destruct Hxin as [->|Hxin]; [reflexivity|].
      destruct Hyin as [->|Hyin]; [reflexivity|].
      rewrite Forall_forall in Hx, Hy.
      pose proof (String.leb_antisym _ _ (Hx _ Hyin) (Hy _ Hxin)) as Hk.
      cbn [map] in Hnd. apply NoDup_cons_iff in Hnd as [Hnot _].
      exfalso. apply Hnot. rewrite Hk. now apply in_map. }
    subst y. f_equal. apply IH; [exact Hl2| |].
    + eapply Permutation_cons_inv. exact Hp.
    + cbn [map] in Hnd. now apply NoDup_cons_iff in Hnd.
Qed.

Lemma sorted_perm_invariant l1 l2 :
  Permutation l1 l2 -> NoDup (map key l1) -> sorted key l1 = sorted key l2.
Proof.
  intros Hp Hnd. apply sorted_unique; try apply sorted_sorted.
  - rewrite !sorted_perm. exact Hp.
  - eapply Permutation_NoDup; [|exact Hnd].
    apply Permutation_map. symmetry. apply sorted_perm.
Qed.
End SortedFacts.

(** Sorting commutes with a map that keeps the keys. *)
Lemma sorted_map {A B : Type} (key : B -> string) (f : A -> B) (l : list A) :
  sorted key (map f l) = map f (sorted (fun a => key (f a)) l).
Proof.
  induction l as [|x l IH]; cbn [map sorted]; [reflexivity|].
  rewrite IH. generalize (sorted (fun a => key (f a)) l) as s.
  induction s as [|y s IHs]; cbn [map insert_by]; [reflexivity|].
  destruct (String.leb (key (f x)) (key (f y))); cbn [map]; [reflexivity|].
  now rewrite IHs.
Qed.

Lemma filter_map_comm {A B : Type} (p : B -> bool) (f : A -> B) (l : list A) :
  filter p (map f l) = map f (filter (fun a => p (f a)) l).
Proof.
  induction l as [|x l IH]; cbn [map filter]; [reflexivity|].
  destruct (p (f x)); cbn [map]; now rewrite IH.
Qed.

Lemma display_order_map {A B : Type} (node_of : B -> TokenNode) (f : A -> B)
  (l : list A) :
  display_order node_of (map f l) = map f (display_order (fun a => node_of (f a)) l).
Proof.
  unfold display_order. rewrite !filter_map_comm, !sorted_map, map_app. reflexivity.
Qed.

Lemma sorted_ext {A : Type} (k1 k2 : A -> string) (l : list A) :
  (forall a, k1 a = k2 a) -> sorted k1 l = sorted k2 l.
Proof.
  intros Hk. induction l as [|x l IH]; cbn [sorted]; [reflexivity|].
  rewrite IH. generalize (sorted k2 l) as s.
  induction s as [|y s IHs]; cbn [insert_by]; [reflexivity|].
  now rewrite !Hk, IHs.
Qed.

(** Display order commutes with any change of the nodes that keeps their
    names and kinds, such as a change of their counts. *)
Lemma display_order_relabel (g : TokenNode -> TokenNode) (l : list TokenNode) :
  (forall c, name (g c) = name c) -> (forall c, is_dir (g c) = is_dir c) ->
  display_order (fun c => c) (map g l) = map g (display_order (fun c => c) l).
Proof.
  intros Hname Hdir. rewrite display_order_map. f_equal.
  unfold display_order. f_equal.
  - rewrite (filter_ext _ (fun a => is_dir a)) by (intros a; apply Hdir).
    apply sorted_ext. exact Hname.
  - rewrite (filter_ext _ (fun a => negb (is_dir a)))
      by (intros a; now rewrite Hdir).
    apply sorted_ext. exact Hname.
Qed.

(** ** The walk of the renderer *)

Lemma walk_each_map {A B : Type} (w : B -> string -> bool -> Z -> outcome (list Row))
  (f : A -> B) (l : list A) prefix depth :
  walk_each w (map f l) prefix depth = walk_each (fun a => w (f a)) l prefix depth.
Proof.
  induction l as [|a l IH]; cbn [map walk_each]; [reflexivity|].
  rewrite IH. now destruct l.
Qed.

(** [walk] as the source has it: the row of the node, then the children in
    display order, the last one flagged. *)
Lemma walk_unfold max_tokens bar_width nm dir tok cs prefix is_last depth :
  walk max_tokens bar_width (mkNode nm dir tok cs) prefix is_last depth
  = (row <- row_of max_tokens bar_width (mkNode nm dir tok cs) prefix is_last depth ;;
     rs <- walk_each (walk max_tokens bar_width) (ordered cs)
             (next_prefix_of prefix is_last) (depth + 1) ;;
     Ok (row :: rs)).
Proof.
  cbn [walk].
  match goal with
  | |- context [display_order fst (?f cs)] =>
      assert (E : f cs = map (fun c => (c, walk max_tokens bar_width c)) (values cs))
  end.
  { unfold values. induction cs as [|[k c] rest IH]; [reflexivity|].
    cbn [map snd]. now rewrite IH. }
  rewrite E, display_order_map, walk_each_map. reflexivity.
Qed.

Lemma row_of_children max_tokens bar_width nm dir tok cs cs' prefix is_last depth :
  row_of max_tokens bar_width (mkNode nm dir tok cs) prefix is_last depth
  = row_of max_tokens bar_width (mkNode nm dir tok cs') prefix is_last depth.
Proof. reflexivity. Qed.

(** ** The display order *)

Lemma filter_Forall {A : Type} (p : A -> bool) (l : list A) :
  Forall (fun a => p a = true) (filter p l).
Proof.
  apply Forall_forall. intros a Ha. now apply filter_In in Ha.
Qed.

Lemma filter_partition_perm {A : Type} (p : A -> bool) (l : list A) :
  Permutation (filter p l ++ filter (fun a => negb (p a)) l) l.
Proof.
  induction l as [|a l IH]; cbn [filter]; [reflexivity|].
  destruct (p a); cbn [negb app].
  - now constructor.
  - rewrite <- Permutation_middle. now constructor.
Qed.

Lemma display_order_spec (l : list TokenNode) :
  exists dirs files,
    display_order (fun c => c) l = (dirs ++ files)%list
    /\ Forall (fun c => is_dir c = true) dirs
    /\ Forall (fun c => is_dir c = false) files
    /\ StronglySorted (key_le name) dirs
    /\ StronglySorted (key_le name) files
    /\ Permutation (dirs ++ files) l.
Proof.
  exists (sorted name (filter is_dir l)),
         (sorted name (filter (fun c => negb (is_dir c)) l)).
  split; [reflexivity|].
  split.
  { eapply Permutation_Forall; [symmetry; apply sorted_perm|]. apply filter_Forall. }
  split.
  { eapply Permutation_Forall; [symmetry; apply sorted_perm|].
    eapply Forall_impl; [|apply filter_Forall].
    intros c Hc. now apply negb_true_iff in Hc. }
  split; [apply sorted_sorted|]. split; [apply sorted_sorted|].
  rewrite !sorted_perm. apply filter_partition_perm.
Qed.

(** ** Trees that differ in the order of their dicts only *)

Lemma distinct_NoDup l : distinct l = true -> NoDup l.
Proof.
  induction l as [|x l IH]; cbn [distinct]; [constructor|].
  intros H. apply andb_true_iff in H as [Hx Hl]. constructor; [|now apply IH].
  intros Hin. apply negb_true_iff in Hx.
  assert (existsb (String.eqb x) l = true); [|congruence].
  apply existsb_exists. exists x. split; [exact Hin|apply String.eqb_refl].
Qed.

Lemma distinct_names_unfold nm dir tok cs :
  distinct_names (mkNode nm dir tok cs)
  = distinct (map name (values cs)) && forallb distinct_names (values cs).
Proof.
  unfold distinct_names at 1. rewrite nodes_unfold. cbn [forallb children].
  now rewrite forallb_flat_map.
Qed.

Lemma same_contents_fields t1 t2 :
  same_contents t1 t2 ->
  name t1 = name t2 /\ is_dir t1 = is_dir t2 /\ tokens t1 = tokens t2.
Proof. intros [nm dir tok cs1 cs2 cs2' _ _]. auto. Qed.

Section Forall2Facts.
Context {A B : Type}.
Variable R : A -> B -> Prop.

Lemma Forall2_filter (p : A -> bool) (q : B -> bool) l1 l2 :
  (forall a b, R a b -> p a = q b) ->
  Forall2 R l1 l2 -> Forall2 R (filter p l1) (filter q l2).
Proof.
  intros Hpq. induction 1 as [|a b l1 l2 Hab _ IH]; cbn [filter]; [constructor|].
  rewrite (Hpq _ _ Hab). destruct (q b); [now constructor|exact IH].
Qed.

Variable ka : A -> string.
Variable kb : B -> string.
Hypothesis keys_agree : forall a b, R a b -> ka a = kb b.

Lemma Forall2_insert_by a b l1 l2 :
  R a b -> Forall2 R l1 l2 ->
  Forall2 R (insert_by ka a l1) (insert_by kb b l2).
Proof.
  intros Hab. induction 1 as [|a' b' l1 l2 Hab' Hl IH]; cbn [insert_by].
  - repeat constructor. exact Hab.
  - rewrite (keys_agree _ _ Hab), (keys_agree _ _ Hab').
    destruct (String.leb (kb b) (kb b')); repeat constructor; assumption.
Qed.

Lemma Forall2_sorted l1 l2 :
  Forall2 R l1 l2 -> Forall2 R (sorted ka l1) (sorted kb l2).
Proof.
  induction 1 as [|a b l1 l2 Hab _ IH]; cbn [sorted]; [constructor|].
  now apply Forall2_insert_by.
Qed.
End Forall2Facts.

Lemma Forall2_display_order (R : TokenNode -> TokenNode -> Prop) l1 l2 :
  (forall a b, R a b -> name a = name b) ->
  (forall a b, R a b -> is_dir a = is_dir b) ->
  Forall2 R l1 l2 ->
  Forall2 R (display_order (fun c => c) l1) (display_order (fun c => c) l2).
Proof.
  intros Hname Hdir H. unfold display_order. apply Forall2_app.
  - apply Forall2_sorted; [exact Hname|]. now apply Forall2_filter.
  - apply Forall2_sorted; [exact Hname|]. apply Forall2_filter; [|exact H].
    intros a b Hab. now rewrite (Hdir _ _ Hab).
Qed.

Lemma Permutation_filter {A : Type} (p : A -> bool) l1 l2 :
  Permutation l1 l2 -> Permutation (filter p l1) (filter p l2).
Proof.
  induction 1 as [|a l1 l2 _ IH|a b l|l1 l2 l3 _ IH1 _ IH2]; cbn [filter].
  - constructor.
  - destruct (p a); [now constructor|exact IH].
  - destruct (p a), (p b); try reflexivity. apply perm_swap.
  - now transitivity (filter p l2).
Qed.

Lemma NoDup_map_filter {A B : Type} (f : A -> B) (p : A -> bool) l :
  NoDup (map f l) -> NoDup (map f (filter p l)).
Proof.
  induction l as [|a l IH]; cbn [map filter]; [auto|].
  intros H. apply NoDup_cons_iff in H as [Hnot Hl].
  destruct (p a); cbn [map]; [|now apply IH].
  constructor; [|now apply IH].
  intros Hin. apply Hnot. apply in_map_iff in Hin as [x [Hx Hin]].
  apply filter_In in Hin as [Hin _]. apply in_map_iff. now exists x.
Qed.

Lemma display_order_perm l1 l2 :
  Permutation l1 l2 -> NoDup (map name l1) ->
  display_order (fun c => c) l1 = display_order (fun c => c) l2.
Proof.
  intros Hp Hnd. unfold display_order. f_equal.
  - apply sorted_perm_invariant; [now apply Permutation_filter|].
    now apply NoDup_map_filter.
  - apply sorted_perm_invariant; [now apply Permutation_filter|].
    now apply NoDup_map_filter.
Qed.

Lemma walk_each_Forall2 {A B : Type}
  (w1 : A -> string -> bool -> Z -> outcome (list Row))
  (w2 : B -> string -> bool -> Z -> outcome (list Row)) l1 l2 prefix depth :
  Forall2 (fun a b => forall p l d, w1 a p l d = w2 b p l d) l1 l2 ->
  walk_each w1 l1 prefix depth = walk_each w2 l2 prefix depth.
Proof.
  induction 1 as [|a b l1 l2 Hab Hl IH]; cbn [walk_each]; [reflexivity|].
  rewrite Hab, IH. now destruct Hl.
Qed.

Lemma Forall2_names (cs1 cs2 : list (string * TokenNode)) :
  Forall2 (fun kc1 kc2 =>
             fst kc1 = fst kc2 /\ same_contents (snd kc1) (snd kc2)) cs1 cs2 ->
  map name (values cs1) = map name (values cs2).
Proof.
  induction 1 as [|kc1 kc2 l1 l2 [_ Hs] _ IH]; cbn [values map]; [reflexivity|].
  apply same_contents_fields in Hs as [-> _]. f_equal. exact IH.
Qed.

Lemma walk_same max_tokens bar_width t1 t2 :
  same_contents t1 t2 -> distinct_names t1 = true ->
  forall prefix is_last depth,
    walk max_tokens bar_width t1 prefix is_last depth
    = walk max_tokens bar_width t2 prefix is_last depth.
Proof.
  revert t2. induction t1 as [nm dir tok cs1 IH] using TokenNode_induction.
  intros t2 Hsame Hdist prefix is_last depth.
  inversion Hsame as [nm' dir' tok' cs1' cs2 cs2' Hperm Hall]; subst.
  rewrite distinct_names_unfold in Hdist.
  apply andb_true_iff in Hdist as [Hnames Hsub].
  rewrite !walk_unfold.
  rewrite (row_of_children _ _ nm dir tok cs1 cs2).
  assert (E : ordered cs2 = ordered cs2').
  { unfold ordered. symmetry. apply display_order_perm.
    - unfold values. apply Permutation_map. now symmetry.
    - rewrite <- (Forall2_names _ _ Hall). now apply distinct_NoDup. }
  rewrite E.
  assert (Hw : forall p d,
             walk_each (walk max_tokens bar_width) (ordered cs1) p d
             = walk_each (walk max_tokens bar_width) (ordered cs2') p d).
  { intros p d. apply walk_each_Forall2. unfold ordered.
    apply Forall2_impl with
      (R1 := fun a b => same_contents a b
                        /\ forall p l d, walk max_tokens bar_width a p l d
                                         = walk max_tokens bar_width b p l d);
      [now intros a b [_ H]|].
    apply Forall2_display_order.
    - intros a b [H _]. now apply same_contents_fields in H.
    - intros a b [H _]. now apply same_contents_fields in H.
    - clear E Hperm Hsame Hnames. unfold values.
      induction Hall as [|kc1 kc2 l1 l2 [_ Hs] _ IHall]; cbn [map]; [constructor|].
      cbn [values map forallb] in Hsub. apply andb_true_iff in Hsub as [Hd Hsub].
      inversion IH as [|? ? IHhead IHtail]; subst.
      constructor; [|now apply IHall].
      split; [exact Hs|]. intros p' l' d'. now apply IHhead. }
  now rewrite Hw.
Qed.

(** ** The width of the count column *)

Lemma max_token_text_len_unfold nm dir tok cs :
  max_token_text_len (mkNode nm dir tok cs)
  = (s <- format_tokens tok ;;
     lengths <- collect max_token_text_len (values cs) ;;
     Ok (maximum (len s) lengths)).
Proof.
  cbn [max_token_text_len]. destruct (format_tokens tok) as [s|e]; cbn [bind];
    [|reflexivity].
  match goal with
  | |- bind (?f cs) _ = _ =>
      assert (E : f cs = collect max_token_text_len (values cs))
  end.
  { induction cs as [|[k c] rest IH]; [reflexivity|].
    cbn [values map snd collect]. now rewrite IH. }
  now rewrite E.
Qed.

Lemma true_div_raise a b e : b <> 0 -> true_div a b = Raise e -> e = OverflowError.
Proof.
  intros Hb. unfold true_div. apply Z.eqb_neq in Hb. rewrite Hb.
  destruct (a =? 0); [discriminate|].
  destruct (round_frac (Z.abs a) (Z.abs b)) as [m ex].
  destruct (overflows m ex); [|discriminate]. now intros [= <-].
Qed.

Lemma format_tokens_raise v e : format_tokens v = Raise e -> e = OverflowError.
Proof.
  unfold format_tokens. destruct (1000 <=? v); [|discriminate].
  destruct (true_div v 1000) as [x|e'] eqn:E; cbn [bind]; [discriminate|].
  intros [= <-]. eapply true_div_raise; [|exact E]. lia.
Qed.

Lemma collect_raise {A B : Type} (f : A -> outcome B) (l : list A) e :
  collect f l = Raise e -> exists a, In a l /\ f a = Raise e.
Proof.
  induction l as [|a l IH]; cbn [collect]; [discriminate|].
  destruct (f a) as [x|e'] eqn:E; cbn [bind].
  - destruct (collect f l) as [xs|e'']; cbn [bind]; [discriminate|].
    intros [= <-]. destruct (IH eq_refl) as [a' [Hin Ha']].
    exists a'. split; [now right|exact Ha'].
  - intros [= <-]. exists a. split; [now left|exact E].
Qed.

Lemma max_token_text_len_raise t e :
  max_token_text_len t = Raise e -> e = OverflowError.
Proof.
  induction t as [nm dir tok cs IH] using TokenNode_induction.
  rewrite max_token_text_len_unfold.
  destruct (format_tokens tok) as [s|e'] eqn:Ef; cbn [bind].
  - destruct (collect max_token_text_len (values cs)) as [ls|e'] eqn:Ec; cbn [bind];
      [discriminate|].
    intros [= <-]. apply collect_raise in Ec as [c [Hin Hc]].
    unfold values in Hin. apply in_map_iff in Hin as [kc [<- Hkc]].
    rewrite Forall_forall in IH. now apply (IH kc Hkc).
  - intros [= <-]. now apply format_tokens_raise in Ef.
Qed.

Lemma collect_perm {A B : Type} (f : A -> outcome B) (e0 : exn) l1 l2 :
  (forall a e, f a = Raise e -> e = e0) ->
  Permutation l1 l2 -> agree (collect f l1) (collect f l2).
Proof.
  intros Hf. induction 1 as [|a l1 l2 _ IH|a b l|l1 l2 l3 _ IH1 _ IH2];
    cbn [collect].
  - constructor.
  - destruct (f a) as [x|e]; cbn [bind agree]; [|reflexivity].
    unfold agree in IH.
    destruct (collect f l1), (collect f l2); cbn [bind]; try contradiction;
      [now constructor|exact IH].
  - destruct (f a) as [x|e] eqn:Ea, (f b) as [y|e'] eqn:Eb; cbn [bind agree].
    + destruct (collect f l); cbn [bind]; [apply perm_swap|reflexivity].
    + reflexivity.
    + reflexivity.
    + apply Hf in Ea, Eb. congruence.
  - unfold agree in *.
    destruct (collect f l1), (collect f l2), (collect f l3);
      try contradiction; try congruence.
    now transitivity a0.
Qed.

Lemma collect_Forall2 {A B : Type} (f : A -> outcome B) l1 l2 :
  Forall2 (fun a b => f a = f b) l1 l2 -> collect f l1 = collect f l2.
Proof.
  induction 1 as [|a b l1 l2 Hab _ IH]; cbn [collect]; [reflexivity|].
  now rewrite Hab, IH.
Qed.

Lemma maximum_perm x l1 l2 : Permutation l1 l2 -> maximum x l1 = maximum x l2.
Proof.
  unfold maximum. intros H. revert x.
  induction H as [|a l1 l2 _ IH|a b l|l1 l2 l3 _ IH1 _ IH2]; intros x;
    cbn [fold_left].
  - reflexivity.
  - apply IH.
  - f_equal. lia.
  - now rewrite IH1.
Qed.

Lemma max_token_text_len_same t1 t2 :
  same_contents t1 t2 -> max_token_text_len t1 = max_token_text_len t2.
Proof.
  revert t2. induction t1 as [nm dir tok cs1 IH] using TokenNode_induction.
  intros t2 Hsame.
  inversion Hsame as [nm' dir' tok' cs1' cs2 cs2' Hperm Hall]; subst.
  rewrite !max_token_text_len_unfold.
  destruct (format_tokens tok) as [s|e]; cbn [bind]; [|reflexivity].
  assert (E1 : collect max_token_text_len (values cs1)
               = collect max_token_text_len (values cs2')).
  { apply collect_Forall2. unfold values. clear Hperm Hsame.
    induction Hall as [|kc1 kc2 l1 l2 [_ Hs] _ IHall]; cbn [map]; [constructor|].
    inversion IH as [|? ? IHhead IHtail]; subst.
    constructor; [now apply IHhead|now apply IHall]. }
  assert (E2 : agree (collect max_token_text_len (values cs2'))
                     (collect max_token_text_len (values cs2))).
  { apply collect_perm with (e0 := OverflowError).
    - intros a e. apply max_token_text_len_raise.
    - unfold values. apply Permutation_map. now symmetry. }
  rewrite E1. unfold agree in E2.
  destruct (collect max_token_text_len (values cs2')),
    (collect max_token_text_len (values cs2)); cbn [bind]; try contradiction.
  - f_equal. now apply maximum_perm.
  - now subst.
Qed.

Lemma render_tree_lines_same t1 t2 max_tokens bar_width max_token_len :
  same_contents t1 t2 -> distinct_names t1 = true ->
  render_tree_lines t1 max_tokens bar_width max_token_len
  = render_tree_lines t2 max_tokens bar_width max_token_len.
Proof.
  intros Hs Hd. unfold render_tree_lines. now rewrite (walk_same _ _ _ _ Hs Hd).
Qed.

Lemma render_same t1 t2 bar_width :
  same_contents t1 t2 -> distinct_names t1 = true ->
  render t1 bar_width = render t2 bar_width.
Proof.
  intros Hs Hd. unfold render.
  rewrite (max_token_text_len_same _ _ Hs).
  destruct (same_contents_fields _ _ Hs) as [_ [_ ->]].
  destruct (max_token_text_len t2); cbn [bind]; [|reflexivity].
  now apply render_tree_lines_same.
Qed.

(** ** Keys and names in built trees *)

Lemma keyed_unfold nm dir tok cs :
  keyed (mkNode nm dir tok cs)
  <-> NoDup (keys cs)
      /\ Forall (fun kc => name (snd kc) = fst kc) cs
      /\ Forall keyed (values cs).
Proof.
  unfold keyed at 1. rewrite nodes_unfold, Forall_cons_iff. cbn [children].
  rewrite Forall_flat_map. tauto.
Qed.

Lemma NoDup_distinct l : NoDup l -> distinct l = true.
Proof.
  induction 1 as [|x l Hx _ IH]; cbn [distinct]; [reflexivity|].
  rewrite IH, andb_true_r. apply negb_true_iff.
  destruct (existsb (String.eqb x) l) eqn:E; [|reflexivity].
  apply existsb_exists in E as [y [Hy Exy]]. apply String.eqb_eq in Exy as <-.
  contradiction.
Qed.

Lemma keyed_names cs :
  Forall (fun kc => name (snd kc) = fst kc) cs -> map name (values cs) = keys cs.
Proof.
  unfold values, keys. rewrite map_map. intros H. apply map_ext_Forall. exact H.
Qed.

Lemma keyed_distinct_names n : keyed n -> distinct_names n = true.
Proof.
  unfold keyed, distinct_names. intros H. apply forallb_forall. intros c Hc.
  rewrite Forall_forall in H. destruct (H c Hc) as [Hnd Hname].
  rewrite (keyed_names _ Hname). now apply NoDup_distinct.
Qed.

Lemma lookup_none nm cs : lookup nm cs = None -> ~ In nm (keys cs).
Proof.
  intros H Hin. apply lookup_present in Hin as [c [Hc _]]. congruence.
Qed.

Lemma lookup_entry nm c cs : lookup nm cs = Some c -> In (nm, c) cs.
Proof.
  induction cs as [|[k c'] rest IH]; cbn [lookup]; [discriminate|].
  destruct (String.eqb nm k) eqn:E.
  - apply String.eqb_eq in E as ->. intros [= ->]. now left.
  - intros H. right. now apply IH.
Qed.

Lemma keys_store k c cs : keys (store k c cs) = keys cs.
Proof.
  induction cs as [|[k' c'] rest IH]; cbn [store]; [reflexivity|].
  destruct (String.eqb k k'); cbn [keys map fst]; [reflexivity|].
  f_equal. exact IH.
Qed.

Lemma Forall_named_store k c cs :
  Forall (fun kc => name (snd kc) = fst kc) cs -> name c = k ->
  Forall (fun kc => name (snd kc) = fst kc) (store k c cs).
Proof.
  intros Hcs Hc. induction Hcs as [|[k' c'] rest Hk Hrest IH]; cbn [store];
    [constructor|].
  destruct (String.eqb k k') eqn:E.
  - apply String.eqb_eq in E as <-. constructor; [exact Hc|assumption].
  - constructor; assumption.
Qed.

Lemma Forall_values_store (P : TokenNode -> Prop) k c cs :
  Forall P (values cs) -> P c -> Forall P (values (store k c cs)).
Proof.
  intros Hcs Hc. induction cs as [|[k' c'] rest IH]; cbn [store]; [constructor|].
  cbn [values map snd] in Hcs. apply Forall_cons_iff in Hcs as [Hc' Hrest].
  destruct (String.eqb k k'); cbn [values map snd]; constructor; auto.
Qed.

Lemma add_file_name dirs last tok node :
  name (add_file dirs last tok node) = name node.
Proof.
  destruct dirs as [|part dirs']; cbn [add_file].
  - destruct (ensure_child_cases node last false) as [[c [_ ->]] | [_ ->]];
      reflexivity.
  - destruct (ensure_child_cases node part true) as [[c [_ ->]] | [_ ->]];
      reflexivity.
Qed.

Lemma ensure_child_keyed self nm dir :
  keyed self ->
  keyed (fst (ensure_child self nm dir))
  /\ keyed (snd (ensure_child self nm dir))
  /\ name (snd (ensure_child self nm dir)) = nm.
Proof.
  intros Hk. destruct self as [n d t cs].
  pose proof (proj1 (keyed_unfold _ _ _ _) Hk) as [Hnd [Hnames Hsub]].
  destruct (ensure_child_cases (mkNode n d t cs) nm dir) as [[c [Hl ->]] | [Hl ->]];
    cbn [fst snd children] in *.
  - split; [exact Hk|]. apply lookup_entry in Hl.
    rewrite Forall_forall in Hnames, Hsub. split.
    + apply Hsub. unfold values. apply in_map_iff. now exists (nm, c).
    + apply (Hnames _ Hl).
  - assert (Hnew : keyed (mkNode nm dir 0 [])).
    { apply keyed_unfold. repeat split; constructor. }
    split; [|split; [exact Hnew|reflexivity]].
    unfold set_children. cbn [name is_dir tokens]. apply keyed_unfold.
    repeat split.
    + unfold keys. rewrite map_app. cbn [map fst].
      apply NoDup_app; [exact Hnd|repeat constructor; auto|].
      intros x Hx [<-|[]]. now apply lookup_none in Hl.
    + apply Forall_app. split; [exact Hnames|]. now constructor.
    + unfold values. rewrite map_app. apply Forall_app. split; [exact Hsub|].
      now constructor.
Qed.

Lemma keyed_set_children n cs :
  NoDup (keys cs) -> Forall (fun kc => name (snd kc) = fst kc) cs ->
  Forall keyed (values cs) -> keyed (set_children n cs).
Proof. intros. unfold set_children. apply keyed_unfold. auto. Qed.

Lemma keyed_children n :
  keyed n ->
  NoDup (keys (children n))
  /\ Forall (fun kc => name (snd kc) = fst kc) (children n)
  /\ Forall keyed (values (children n)).
Proof. destruct n. apply keyed_unfold. Qed.

Lemma add_file_keyed dirs last tok node :
  keyed node -> keyed (add_file dirs last tok node).
Proof.
  revert node. induction dirs as [|part dirs' IH]; intros node Hk; cbn [add_file].
  - destruct (ensure_child_keyed node last false Hk) as [Hn [Hc Hname]].
    destruct (ensure_child node last false) as [node' file_node]. cbn [fst snd] in *.
    destruct (keyed_children _ Hn) as [Hnd [Hnames Hsub]].
    apply keyed_set_children.
    + now rewrite keys_store.
    + apply Forall_named_store; [exact Hnames|]. now destruct file_node.
    + apply Forall_values_store; [exact Hsub|].
      destruct file_node as [n d t cs]. unfold set_tokens. cbn [name is_dir children].
      apply keyed_unfold. now apply keyed_unfold in Hc.
  - destruct (ensure_child_keyed node part true Hk) as [Hn [Hc Hname]].
    destruct (ensure_child node part true) as [node' child]. cbn [fst snd] in *.
    destruct (keyed_children _ Hn) as [Hnd [Hnames Hsub]].
    apply keyed_set_children.
    + now rewrite keys_store.
    + apply Forall_named_store; [exact Hnames|]. now rewrite add_file_name.
    + apply Forall_values_store; [exact Hsub|]. now apply IH.
Qed.

Lemma aggregate_keyed n : keyed n -> keyed (fst (aggregate n)).
Proof.
  induction n as [nm dir tok cs IH] using TokenNode_induction.
  rewrite aggregate_unfold. destruct dir; cbn [negb fst]; [|auto].
  intros Hk. apply keyed_unfold in Hk as [Hnd [Hnames Hsub]]. apply keyed_unfold.
  repeat split.
  - unfold keys, aggregated. now rewrite map_map.
  - apply Forall_map. eapply Forall_impl; [|exact Hnames].
    intros kc Hkc. unfold aggregated. cbn [fst snd]. now rewrite aggregate_name.
  - rewrite values_aggregated. apply Forall_map.
    unfold values in Hsub. rewrite Forall_map in Hsub.
    unfold values. apply Forall_map.
    rewrite Forall_forall in IH, Hsub |- *. intros kc Hkc. now apply IH, Hsub.
Qed.

Lemma build_loop_keyed files root skipped r :
  keyed root -> build_loop files root skipped = Ok r -> keyed (fst r).
Proof.
  revert root skipped. induction files as [|f rest IH]; intros root skipped Hk;
    cbn [build_loop].
  - now intros [= <-].
  - destruct (counted f) as [tok|]; [|now apply IH].
    destruct (split_last (rel_parts f)) as [[dirs last]|e]; cbn [bind fst snd];
      [|discriminate].
    apply IH. now apply add_file_keyed.
Qed.

(** The builder returns trees in which sibling names are distinct. *)
Lemma build_token_tree_distinct_names root_name files t k :
  build_token_tree root_name files = Ok (t, k) -> distinct_names t = true.
Proof.
  unfold build_token_tree.
  destruct (build_loop files (mkNode root_name true 0 []) []) as [r|e] eqn:E;
    cbn [bind]; [|discriminate].
  intros [= <- _]. apply keyed_distinct_names, aggregate_keyed.
  eapply build_loop_keyed; [|exact E].
  apply keyed_unfold. repeat split; constructor.
Qed.

(** ** Rounding: the real values *)

Section RealValues.
Local Open Scope R_scope.

Lemma bpow_pos e : 0 < bpow e.
Proof. apply powerRZ_lt. lra. Qed.

Lemma bpow_add a b : bpow (a + b) = bpow a * bpow b.
Proof. apply powerRZ_add. lra. Qed.

Lemma bpow_0 : bpow 0 = 1.
Proof. reflexivity. Qed.

Lemma bpow_1 : bpow 1 = 2.
Proof. exact (powerRZ_1 2). Qed.

Lemma bpow_opp a : bpow (- a) = / bpow a.
Proof. apply powerRZ_neg'. Qed.

Lemma bpow_IZR k : (0 <= k)%Z -> IZR (2 ^ k) = bpow k.
Proof.
  intros Hk. unfold bpow. rewrite <- (Z2Nat.id k Hk) at 1.
  rewrite <- pow_IZR. destruct k as [|p|p]; [reflexivity| |lia].
  cbn [powerRZ]. now rewrite Z2Nat.inj_pos.
Qed.

Lemma bpow_ge_1 k : (0 <= k)%Z -> 1 <= bpow k.
Proof.
  intros Hk. rewrite <- bpow_IZR by exact Hk. apply IZR_le.
  pose proof (Z.pow_pos_nonneg 2 k). lia.
Qed.

Lemma bpow_le a b : (a <= b)%Z -> bpow a <= bpow b.
Proof.
  intros Hab. replace b with (a + (b - a))%Z by lia. rewrite bpow_add.
  pose proof (bpow_pos a). pose proof (bpow_ge_1 (b - a) ltac:(lia)). nra.
Qed.

Lemma bpow_lt a b : (a < b)%Z -> bpow a < bpow b.
Proof.
  intros Hab. replace b with (a + 1 + (b - a - 1))%Z by lia.
  rewrite !bpow_add, bpow_1.
  pose proof (bpow_pos a). pose proof (bpow_ge_1 (b - a - 1) ltac:(lia)). nra.
Qed.

Lemma bpow_lt_inv a b : bpow a < bpow b -> (a < b)%Z.
Proof.
  intros H. destruct (Z_lt_le_dec a b) as [Hlt|Hle]; [exact Hlt|].
  apply bpow_le in Hle. lra.
Qed.

Lemma bpow_cancel a : bpow a * bpow (- a) = 1.
Proof. rewrite <- bpow_add. replace (a + - a)%Z with 0%Z by lia. apply bpow_0. Qed.

(** *** Fractions *)

Lemma scale2_spec n d k n' d' :
  (0 < d)%Z -> scale2 n d k = (n', d') ->
  (0 < d')%Z
  /\ IZR n' / IZR d' = IZR n / IZR d * bpow (- k)
  /\ ((0 < n)%Z -> (0 < n')%Z)
  /\ ((0 <= n)%Z -> (0 <= n')%Z).
Proof.
  intros Hd. unfold scale2. destruct (0 <=? k)%Z eqn:Hk; intros [= <- <-].
  - apply Z.leb_le in Hk. pose proof (Z.pow_pos_nonneg 2 k ltac:(lia) Hk) as Hp.
    split; [nia|]. split; [|split; auto].
    rewrite mult_IZR, bpow_IZR, bpow_opp by exact Hk.
    assert (IZR d <> 0) by (apply not_0_IZR; lia).
    pose proof (bpow_pos k). field. split; lra.
  - apply Z.leb_gt in Hk. pose proof (Z.pow_pos_nonneg 2 (- k) ltac:(lia)) as Hp.
    split; [exact Hd|]. split; [|split; nia].
    rewrite mult_IZR, bpow_IZR by lia.
    assert (IZR d <> 0) by (apply not_0_IZR; lia). field. exact H.
Qed.

Lemma Zdiv_floor n d :
  (0 < d)%Z -> IZR (n / d) <= IZR n / IZR d < IZR (n / d) + 1.
Proof.
  intros Hd. pose proof (Z.div_mod n d ltac:(lia)) as Hn.
  pose proof (Z.mod_pos_bound n d Hd) as Hr.
  assert (Hd' : 0 < IZR d) by (apply IZR_lt; lia).
  assert (E : IZR n = IZR d * IZR (n / d) + IZR (n mod d)).
  { rewrite <- mult_IZR, <- plus_IZR. now f_equal. }
  assert (0 <= IZR (n mod d) < IZR d).
  { split; [apply IZR_le|apply IZR_lt]; lia. }
  split.
  - apply Rmult_le_reg_r with (IZR d); [exact Hd'|].
    unfold Rdiv. rewrite Rmult_assoc, Rinv_l by lra. nra.
  - apply Rmult_lt_reg_r with (IZR d); [exact Hd'|].
    unfold Rdiv. rewrite Rmult_assoc, Rinv_l by lra. nra.
Qed.

(** *** Rounding to an integer *)

Lemma round_half_even_spec n d :
  (0 < d)%Z -> nearest_even (round_half_even n d) n d.
Proof.
  intros Hd. unfold nearest_even, round_half_even.
  pose proof (Z.div_mod n d ltac:(lia)) as Hn.
  pose proof (Z.mod_pos_bound n d Hd) as Hr.
  assert (E0 : (n / d * d - n = - (n mod d))%Z) by lia.
  assert (E1 : ((n / d + 1) * d - n = d - n mod d)%Z) by lia.
  destruct (2 * (n mod d) ?= d)%Z eqn:E.
  - apply Z.compare_eq in E.
    destruct (Z.even (n / d)) eqn:Ev.
    + rewrite E0. split; [lia|auto].
    + rewrite E1. split; [lia|]. intros _. rewrite Z.even_add, Ev. reflexivity.
  - change (2 * (n mod d) < d)%Z in E. rewrite E0.
    split; [lia|intros; exfalso; lia].
  - change (2 * (n mod d) > d)%Z in E. rewrite E1.
    split; [lia|intros; exfalso; lia].
Qed.

Lemma nearest_even_real q n d :
  (0 < d)%Z -> nearest_even q n d ->
  IZR n / IZR d - 1 / 2 <= IZR q <= IZR n / IZR d + 1 / 2.
Proof.
  intros Hd [Hle _].
  assert (Hd' : 0 < IZR d) by (apply IZR_lt; lia).
  assert (H1 : (2 * (q * d - n) <= d)%Z) by lia.
  assert (H2 : (2 * (n - q * d) <= d)%Z) by lia.
  apply IZR_le in H1, H2.
  rewrite mult_IZR, minus_IZR, mult_IZR in H1, H2.
  assert (E : IZR n / IZR d * IZR d = IZR n) by (field; lra).
  split.
  - apply Rmult_le_reg_r with (IZR d); [exact Hd'|]. nra.
  - apply Rmult_le_reg_r with (IZR d); [exact Hd'|]. nra.
Qed.

Lemma nearest_even_mono q1 n1 d1 q2 n2 d2 :
  (0 < d1)%Z -> (0 < d2)%Z ->
  nearest_even q1 n1 d1 -> nearest_even q2 n2 d2 ->
  IZR n1 / IZR d1 <= IZR n2 / IZR d2 -> (q1 <= q2)%Z.
Proof.
  intros Hd1 Hd2 H1 H2 Hle.
  pose proof (nearest_even_real _ _ _ Hd1 H1) as B1.
  pose proof (nearest_even_real _ _ _ Hd2 H2) as B2.
  destruct (Z_le_gt_dec q1 q2) as [Hok|Hgt]; [exact Hok|exfalso].
  assert (Hq : (q1 = q2 + 1)%Z).
  { assert (IZR q1 < IZR q2 + 2) by lra.
    rewrite <- plus_IZR in H. apply lt_IZR in H. lia. }
  subst q1. rewrite plus_IZR in B1.
  assert (E1 : IZR (q2 + 1) = IZR n1 / IZR d1 + 1 / 2) by (rewrite plus_IZR; lra).
  assert (E2 : IZR q2 = IZR n2 / IZR d2 - 1 / 2) by lra.
  assert (Hd1' : 0 < IZR d1) by (apply IZR_lt; lia).
  assert (Hd2' : 0 < IZR d2) by (apply IZR_lt; lia).
  assert (T1 : (2 * ((q2 + 1) * d1 - n1) = d1)%Z).
  { apply eq_IZR. rewrite mult_IZR, minus_IZR, mult_IZR, E1. field. lra. }
  assert (T2 : (2 * (n2 - q2 * d2) = d2)%Z).
  { apply eq_IZR. rewrite mult_IZR, minus_IZR, mult_IZR, E2. field. lra. }
  destruct H1 as [_ Ev1]. destruct H2 as [_ Ev2].
  assert (Z.even (q2 + 1) = true) by (apply Ev1; lia).
  assert (Z.even q2 = true) by (apply Ev2; lia).
  rewrite Z.even_add in H. rewrite H0 in H. discriminate.
Qed.

End RealValues.

Section Rounding.
Local Open Scope R_scope.

Lemma frac_mult n d : (0 < d)%Z -> IZR n / IZR d * IZR d = IZR n.
Proof. intros Hd. field. apply not_0_IZR. lia. Qed.

Lemma log2_real n :
  (0 < n)%Z -> bpow (Z.log2 n) <= IZR n < bpow (Z.log2 n + 1).
Proof.
  intros Hn. pose proof (Z.log2_spec n Hn) as [H1 H2].
  pose proof (Z.log2_nonneg n) as H0.
  rewrite <- !bpow_IZR by lia. split; [apply IZR_le|apply IZR_lt]; lia.
Qed.

(** The exponent found by [ilog2_frac] brackets the fraction. *)
Lemma ilog2_frac_spec n d :
  (0 < n)%Z -> (0 < d)%Z ->
  bpow (ilog2_frac n d) <= IZR n / IZR d < bpow (ilog2_frac n d + 1).
Proof.
  intros Hn Hd. unfold ilog2_frac.
  pose proof (log2_real n Hn) as [Ln Un].
  pose proof (log2_real d Hd) as [Ld Ud].
  set (e0 := (Z.log2 n - Z.log2 d)%Z).
  assert (Hd' : 0 < IZR d) by (apply IZR_lt; lia).
  pose proof (frac_mult n d Hd) as Ex.
  set (x := IZR n / IZR d) in *.
  assert (Hx : 0 < x).
  { apply Rmult_lt_reg_r with (IZR d); [exact Hd'|]. rewrite Ex, Rmult_0_l.
    apply IZR_lt. lia. }
  assert (Up : x < bpow (e0 + 1)).
  { apply Rmult_lt_reg_r with (IZR d); [exact Hd'|]. rewrite Ex.
    replace (Z.log2 n + 1)%Z with (e0 + 1 + Z.log2 d)%Z in Un by (unfold e0; lia).
    rewrite bpow_add in Un. pose proof (bpow_pos (e0 + 1)). nra. }
  assert (Lo : bpow (e0 - 1) < x).
  { apply Rmult_lt_reg_r with (IZR d); [exact Hd'|]. rewrite Ex.
    replace (Z.log2 n) with (e0 - 1 + (Z.log2 d + 1))%Z in Ln by (unfold e0; lia).
    rewrite bpow_add in Ln. pose proof (bpow_pos (e0 - 1)). nra. }
  destruct (scale2 n d e0) as [n' d'] eqn:Es.
  destruct (scale2_spec _ _ _ _ _ Hd Es) as [Hd2 [Eq [Hn2 _]]].
  fold x in Eq.
  assert (Hd2' : 0 < IZR d') by (apply IZR_lt; lia).
  pose proof (frac_mult n' d' Hd2) as Ex'.
  pose proof (bpow_cancel e0) as Hc. pose proof (bpow_pos e0) as Hp.
  pose proof (bpow_pos (- e0)) as Hp'.
  destruct (d' <=? n')%Z eqn:Ht.
  - apply Z.leb_le in Ht. apply IZR_le in Ht. split; [|exact Up].
    assert (1 <= x * bpow (- e0)) by (rewrite <- Eq; nra).
    nra.
  - apply Z.leb_gt in Ht. apply IZR_lt in Ht.
    replace (e0 - 1 + 1)%Z with e0 by lia. split; [lra|].
    assert (x * bpow (- e0) < 1) by (rewrite <- Eq; nra).
    nra.
Qed.

Lemma ilog2_frac_mono n1 d1 n2 d2 :
  (0 < n1)%Z -> (0 < d1)%Z -> (0 < n2)%Z -> (0 < d2)%Z ->
  IZR n1 / IZR d1 <= IZR n2 / IZR d2 ->
  (ilog2_frac n1 d1 <= ilog2_frac n2 d2)%Z.
Proof.
  intros Hn1 Hd1 Hn2 Hd2 Hle.
  destruct (ilog2_frac_spec n1 d1 Hn1 Hd1) as [L1 U1].
  destruct (ilog2_frac_spec n2 d2 Hn2 Hd2) as [L2 U2].
  assert (ilog2_frac n1 d1 < ilog2_frac n2 d2 + 1)%Z by (apply bpow_lt_inv; lra).
  lia.
Qed.

(** What [round_frac] returns: the exponent of the last place, and the
    fraction in units of the last place rounded to nearest even. *)
Lemma round_frac_spec n d m e :
  (0 < n)%Z -> (0 < d)%Z -> round_frac n d = (m, e) ->
  e = ulp_exp (ilog2_frac n d)
  /\ exists n' d',
      (0 < n')%Z /\ (0 < d')%Z
      /\ IZR n' / IZR d' = IZR n / IZR d * bpow (- e)
      /\ nearest_even m n' d'.
Proof.
  intros Hn Hd. unfold round_frac.
  destruct (scale2 n d (ulp_exp (ilog2_frac n d))) as [n' d'] eqn:Es.
  intros [= <- <-]. split; [reflexivity|].
  destruct (scale2_spec _ _ _ _ _ Hd Es) as [Hd2 [Eq [Hn2 _]]].
  exists n', d'. repeat split; auto.
  - now apply round_half_even_spec.
  - now apply round_half_even_spec.
Qed.

Lemma round_frac_nonneg n d m e :
  (0 < n)%Z -> (0 < d)%Z -> round_frac n d = (m, e) -> (0 <= m)%Z.
Proof.
  intros Hn Hd Hr.
  destruct (round_frac_spec _ _ _ _ Hn Hd Hr) as [_ [n' [d' [Hn' [Hd' [_ Hne]]]]]].
  pose proof (nearest_even_real _ _ _ Hd' Hne) as [Lo _].
  assert (0 < IZR n' / IZR d').
  { apply Rdiv_lt_0_compat; apply IZR_lt; lia. }
  assert (-1 < IZR m) by lra. apply lt_IZR in H0. lia.
Qed.

(** The rounding error is at most half a unit in the last place. *)
Lemma round_frac_error n d m e :
  (0 < n)%Z -> (0 < d)%Z -> round_frac n d = (m, e) ->
  Rabs (F2R m e - IZR n / IZR d) <= bpow e / 2.
Proof.
  intros Hn Hd Hr.
  destruct (round_frac_spec _ _ _ _ Hn Hd Hr) as [_ [n' [d' [Hn' [Hd' [Eq Hne]]]]]].
  pose proof (nearest_even_real _ _ _ Hd' Hne) as [Lo Up].
  rewrite Eq in Lo, Up. unfold F2R.
  pose proof (bpow_pos e) as Hp. pose proof (bpow_cancel e) as Hc.
  set (x := IZR n / IZR d) in *.
  assert (Ex : x = x * bpow (- e) * bpow e) by (rewrite Rmult_assoc, (Rmult_comm (bpow (- e))), Hc; ring).
  apply Rabs_le. split; nra.
Qed.

(** Rounding is monotone. *)
Lemma round_frac_mono n1 d1 m1 e1 n2 d2 m2 e2 :
  (0 < n1)%Z -> (0 < d1)%Z -> (0 < n2)%Z -> (0 < d2)%Z ->
  round_frac n1 d1 = (m1, e1) -> round_frac n2 d2 = (m2, e2) ->
  IZR n1 / IZR d1 <= IZR n2 / IZR d2 ->
  F2R m1 e1 <= F2R m2 e2.
Proof.
  intros Hn1 Hd1 Hn2 Hd2 R1 R2 Hle.
  destruct (round_frac_spec _ _ _ _ Hn1 Hd1 R1) as [E1 [n1' [d1' [Hn1' [Hd1' [Eq1 Ne1]]]]]].
  destruct (round_frac_spec _ _ _ _ Hn2 Hd2 R2) as [E2 [n2' [d2' [Hn2' [Hd2' [Eq2 Ne2]]]]]].
  pose proof (ilog2_frac_mono _ _ _ _ Hn1 Hd1 Hn2 Hd2 Hle) as Hlog.
  destruct (ilog2_frac_spec n1 d1 Hn1 Hd1) as [L1 U1].
  destruct (ilog2_frac_spec n2 d2 Hn2 Hd2) as [L2 U2].
  set (x1 := IZR n1 / IZR d1) in *. set (x2 := IZR n2 / IZR d2) in *.
  set (l1 := ilog2_frac n1 d1) in *. set (l2 := ilog2_frac n2 d2) in *.
  unfold F2R.
  assert (He : (e1 <= e2)%Z) by (subst e1 e2; unfold ulp_exp; lia).
  destruct (Z.eq_dec e1 e2) as [Heq|Hne].
  - subst e2. rewrite <- Heq in *.
    assert (Hm : (m1 <= m2)%Z).
    { apply (nearest_even_mono m1 n1' d1' m2 n2' d2'); auto.
      rewrite Eq1, Eq2. pose proof (bpow_pos (- e1)). nra. }
    apply IZR_le in Hm. pose proof (bpow_pos e1). nra.
  - assert (Hlt : (e1 < e2)%Z) by lia.
    assert (He2 : e2 = (l2 - 52)%Z) by (subst e1 e2; unfold ulp_exp in *; lia).
    assert (Hl : (l1 + 1 <= l2)%Z) by (subst e1 e2; unfold ulp_exp in *; lia).
    (* below: m1 * 2^e1 <= 2^l2 <= m2 * 2^e2 *)
    pose proof (nearest_even_real _ _ _ Hd1' Ne1) as [_ Up1].
    pose proof (nearest_even_real _ _ _ Hd2' Ne2) as [Lo2 _].
    rewrite Eq1 in Up1. rewrite Eq2 in Lo2.
    pose proof (bpow_pos e1) as P1. pose proof (bpow_pos e2) as P2.
    pose proof (bpow_pos (- e1)) as P1'. pose proof (bpow_pos (- e2)) as P2'.
    assert (K1 : (m1 <= 2 ^ (l2 - e1))%Z).
    { assert (x1 * bpow (- e1) < bpow (l2 - e1)).
      { replace (l2 - e1)%Z with (l2 + - e1)%Z by lia. rewrite bpow_add.
        pose proof (bpow_le (l1 + 1) l2 Hl). nra. }
      assert (H0 : IZR m1 < IZR (2 ^ (l2 - e1) + 1))
        by (rewrite plus_IZR, bpow_IZR by lia; lra).
      apply lt_IZR in H0. lia. }
    assert (K2 : (2 ^ 52 <= m2)%Z).
    { assert (bpow 52 <= x2 * bpow (- e2)).
      { replace 52%Z with (l2 + - e2)%Z by lia. rewrite bpow_add. nra. }
      assert (H0 : IZR (2 ^ 52 - 1) < IZR m2)
        by (rewrite minus_IZR, bpow_IZR by lia; lra).
      apply lt_IZR in H0. lia. }
    apply IZR_le in K1, K2. rewrite bpow_IZR in K1, K2 by lia.
    assert (B1 : IZR m1 * bpow e1 <= bpow l2).
    { replace (bpow l2) with (bpow (l2 - e1 + e1)) by (f_equal; lia).
      rewrite bpow_add. nra. }
    assert (B2 : bpow l2 <= IZR m2 * bpow e2).
    { replace (bpow l2) with (bpow (52 + e2)) by (f_equal; lia).
      rewrite bpow_add. nra. }
    lra.
Qed.

(** A fraction that is a whole number of units in its last place is not
    changed by rounding. *)
Lemma round_frac_exact n d m e k j :
  (0 < n)%Z -> (0 < d)%Z -> round_frac n d = (m, e) ->
  IZR n / IZR d = F2R k j -> (e <= j)%Z ->
  F2R m e = IZR n / IZR d.
Proof.
  intros Hn Hd Hr Hx Hj.
  destruct (round_frac_spec _ _ _ _ Hn Hd Hr) as [_ [n' [d' [Hn' [Hd' [Eq Hne]]]]]].
  rewrite Hx in Eq. unfold F2R in *.
  assert (Ek : IZR n' / IZR d' = IZR (k * 2 ^ (j - e))).
  { rewrite Eq, mult_IZR, bpow_IZR by lia.
    replace (j - e)%Z with (j + - e)%Z by lia. rewrite bpow_add. ring. }
  assert (Hm : m = (k * 2 ^ (j - e))%Z).
  { assert (Hexact : nearest_even (k * 2 ^ (j - e)) n' d').
    { assert (En : n' = (k * 2 ^ (j - e) * d')%Z).
      { apply eq_IZR. rewrite mult_IZR, <- Ek. symmetry. now apply frac_mult. }
      rewrite En at 1. unfold nearest_even.
      replace (k * 2 ^ (j - e) * d' - k * 2 ^ (j - e) * d')%Z with 0%Z by lia.
      cbn [Z.abs]. split; [lia|]. intros. exfalso. lia. }
    apply Z.le_antisymm.
    - apply (nearest_even_mono m n' d' _ n' d'); auto. lra.
    - apply (nearest_even_mono _ n' d' m n' d'); auto. lra. }
  rewrite Hx, Hm, mult_IZR, bpow_IZR by lia.
  replace (j - e)%Z with (j + - e)%Z by lia. rewrite bpow_add.
  pose proof (bpow_cancel e). rewrite Rmult_assoc, Rmult_assoc.
  rewrite (Rmult_comm (bpow (- e))), H. ring.
Qed.
End Rounding.

(** ** Float operations: their real values *)

Section FloatValues.
Local Open Scope R_scope.

Lemma B2R_nonneg x : nonneg x -> B2R x = F2R (f_man x) (f_exp x).
Proof. intros [Hs _]. unfold B2R, F2R. rewrite Hs. ring. Qed.

Lemma B2R_nonneg_ge x : nonneg x -> 0 <= B2R x.
Proof.
  intros H. rewrite (B2R_nonneg _ H). destruct H as [_ Hm]. unfold F2R.
  apply IZR_le in Hm. pose proof (bpow_pos (f_exp x)). nra.
Qed.

Lemma round_frac_mantissa n d m e :
  (0 < n)%Z -> (0 < d)%Z -> round_frac n d = (m, e) -> (0 <= m <= 2 ^ 53)%Z.
Proof.
  intros Hn Hd Hr. split; [exact (round_frac_nonneg _ _ _ _ Hn Hd Hr)|].
  destruct (round_frac_spec _ _ _ _ Hn Hd Hr) as [E [n' [d' [Hn' [Hd' [Eq Hne]]]]]].
  pose proof (nearest_even_real _ _ _ Hd' Hne) as [_ Up]. rewrite Eq in Up.
  destruct (ilog2_frac_spec n d Hn Hd) as [_ U].
  set (l := ilog2_frac n d) in *.
  assert (Hl : (l + 1 - e <= 53)%Z) by (subst e; unfold ulp_exp; lia).
  assert (IZR n / IZR d * bpow (- e) < bpow 53).
  { apply Rlt_le_trans with (bpow (l + 1 - e)); [|now apply bpow_le].
    replace (l + 1 - e)%Z with (l + 1 + - e)%Z by lia. rewrite bpow_add.
    pose proof (bpow_pos (- e)). nra. }
  assert (H0 : IZR m < IZR (2 ^ 53 + 1)) by (rewrite plus_IZR, bpow_IZR by lia; lra).
  apply lt_IZR in H0. lia.
Qed.

Lemma overflows_spec m e :
  (0 <= m <= 2 ^ 53)%Z -> (overflows m e = true <-> bpow 1024 <= F2R m e).
Proof.
  intros [Hm0 Hm]. unfold overflows, F2R.
  apply IZR_le in Hm0, Hm. rewrite bpow_IZR in Hm by lia.
  pose proof (bpow_pos e) as Pe.
  destruct (971 <=? e)%Z eqn:He; cbn [andb].
  - apply Z.leb_le in He.
    assert (E : IZR (m * 2 ^ (e - 971)) * bpow 971 = IZR m * bpow e).
    { rewrite mult_IZR, bpow_IZR by lia.
      replace (bpow e) with (bpow (e - 971 + 971)) by (f_equal; lia).
      rewrite bpow_add. ring. }
    assert (E' : bpow 1024 = IZR (2 ^ 53) * bpow 971).
    { rewrite bpow_IZR by lia. rewrite <- bpow_add. reflexivity. }
    pose proof (bpow_pos 971) as P. rewrite <- E, E'. split.
    + intros H. apply Z.leb_le in H. apply IZR_le in H. nra.
    + intros H. apply Z.leb_le. apply le_IZR. nra.
  - apply Z.leb_gt in He. split; [discriminate|]. intros H. exfalso.
    assert (bpow e <= bpow 970) by (apply bpow_le; lia).
    assert (bpow 1024 = bpow 53 * bpow 971) by (rewrite <- bpow_add; reflexivity).
    assert (bpow 971 = 2 * bpow 970).
    { rewrite <- bpow_1, <- bpow_add. reflexivity. }
    pose proof (bpow_pos 970). pose proof (bpow_pos 53). nra.
Qed.

Lemma rounds_nonneg x n d : (0 < n)%Z -> (0 < d)%Z -> rounds x n d -> nonneg x.
Proof.
  intros Hn Hd [Hs Hr]. split; [exact Hs|].
  exact (round_frac_nonneg _ _ _ _ Hn Hd Hr).
Qed.

Lemma rounds_mono x1 n1 d1 x2 n2 d2 :
  (0 < n1)%Z -> (0 < d1)%Z -> (0 < n2)%Z -> (0 < d2)%Z ->
  rounds x1 n1 d1 -> rounds x2 n2 d2 ->
  IZR n1 / IZR d1 <= IZR n2 / IZR d2 -> B2R x1 <= B2R x2.
Proof.
  intros Hn1 Hd1 Hn2 Hd2 R1 R2 Hle.
  rewrite (B2R_nonneg x1) by exact (rounds_nonneg _ _ _ Hn1 Hd1 R1).
  rewrite (B2R_nonneg x2) by exact (rounds_nonneg _ _ _ Hn2 Hd2 R2).
  destruct R1 as [_ R1]. destruct R2 as [_ R2].
  exact (round_frac_mono _ _ _ _ _ _ _ _ Hn1 Hd1 Hn2 Hd2 R1 R2 Hle).
Qed.

(** Rounding does not pass a small integer. *)
Lemma round_frac_le_int n d m e k :
  (0 < n)%Z -> (0 < d)%Z -> round_frac n d = (m, e) ->
  (0 < k < 2 ^ 53)%Z -> IZR n / IZR d <= IZR k -> F2R m e <= IZR k.
Proof.
  intros Hn Hd Hr Hk Hle.
  destruct (round_frac k 1) as [mk ek] eqn:Rk.
  assert (Hx : IZR k / IZR 1 = F2R k 0) by (unfold F2R; rewrite bpow_0; field).
  assert (Hek : (ek <= 0)%Z).
  { destruct (round_frac_spec k 1 mk ek ltac:(lia) ltac:(lia) Rk) as [E _].
    assert (ilog2_frac k 1 <= 52)%Z; [|subst ek; unfold ulp_exp; lia].
    destruct (ilog2_frac_spec k 1 ltac:(lia) ltac:(lia)) as [L _].
    assert (bpow (ilog2_frac k 1) < bpow 53).
    { apply Rle_lt_trans with (IZR k / IZR 1); [exact L|].
      rewrite <- bpow_IZR by lia. replace (IZR k / IZR 1) with (IZR k) by field.
      apply IZR_lt. lia. }
    apply bpow_lt_inv in H. lia. }
  pose proof (round_frac_exact k 1 mk ek k 0 ltac:(lia) ltac:(lia) Rk Hx Hek) as Ex.
  replace (IZR k) with (IZR k / IZR 1) by field. rewrite <- Ex.
  apply (round_frac_mono n d m e k 1 mk ek); auto; try lia.
  replace (IZR k / IZR 1) with (IZR k) by field. exact Hle.
Qed.

Lemma round_frac_int k m e :
  (0 < k < 2 ^ 53)%Z -> round_frac k 1 = (m, e) -> F2R m e = IZR k.
Proof.
  intros Hk Rk.
  assert (Hx : IZR k / IZR 1 = F2R k 0) by (unfold F2R; rewrite bpow_0; field).
  assert (Hek : (e <= 0)%Z).
  { destruct (round_frac_spec k 1 m e ltac:(lia) ltac:(lia) Rk) as [E _].
    assert (ilog2_frac k 1 <= 52)%Z; [|subst e; unfold ulp_exp; lia].
    destruct (ilog2_frac_spec k 1 ltac:(lia) ltac:(lia)) as [L _].
    assert (bpow (ilog2_frac k 1) < bpow 53).
    { apply Rle_lt_trans with (IZR k / IZR 1); [exact L|].
      rewrite <- bpow_IZR by lia. replace (IZR k / IZR 1) with (IZR k) by field.
      apply IZR_lt. lia. }
    apply bpow_lt_inv in H. lia. }
  rewrite (round_frac_exact k 1 m e k 0 ltac:(lia) ltac:(lia) Rk Hx Hek). field.
Qed.

Lemma bpow_53_lt_1024 : IZR (2 ^ 53) < bpow 1024.
Proof. rewrite bpow_IZR by lia. apply bpow_lt. lia. Qed.

(** *** [float(n)] *)

Lemma float_of_int_small k :
  (0 < k < 2 ^ 53)%Z ->
  exists y, float_of_int k = Ok y /\ rounds y k 1 /\ B2R y = IZR k.
Proof.
  intros Hk. unfold float_of_int.
  assert (E0 : (k =? 0)%Z = false) by (apply Z.eqb_neq; lia). rewrite E0.
  rewrite Z.abs_eq by lia.
  destruct (round_frac k 1) as [m e] eqn:Rk.
  pose proof (round_frac_int _ _ _ Hk Rk) as Ev.
  pose proof (round_frac_mantissa k 1 m e ltac:(lia) ltac:(lia) Rk) as Hm.
  assert (Ho : overflows m e = false).
  { destruct (overflows m e) eqn:Ho; [|reflexivity].
    apply (overflows_spec _ _ Hm) in Ho. rewrite Ev in Ho.
    pose proof bpow_53_lt_1024. assert (IZR k < IZR (2 ^ 53)) by (apply IZR_lt; lia).
    lra. }
  rewrite Ho. assert (Hneg : (k <? 0)%Z = false) by (apply Z.ltb_ge; lia).
  rewrite Hneg. eexists. split; [reflexivity|]. split.
  - split; [reflexivity|exact Rk].
  - unfold B2R. cbn [f_neg f_man f_exp]. unfold F2R in Ev. lra.
Qed.

(** *** [a / b] *)

Lemma true_div_pos a b k :
  (0 < a)%Z -> (0 < b)%Z -> (0 < k < 2 ^ 53)%Z -> IZR a / IZR b <= IZR k ->
  exists x, true_div a b = Ok x /\ rounds x a b /\ B2R x <= IZR k.
Proof.
  intros Ha Hb Hk Hle. unfold true_div.
  assert (E0 : (b =? 0)%Z = false) by (apply Z.eqb_neq; lia).
  assert (E1 : (a =? 0)%Z = false) by (apply Z.eqb_neq; lia).
  assert (E2 : (a <? 0)%Z = false) by (apply Z.ltb_ge; lia).
  assert (E3 : (b <? 0)%Z = false) by (apply Z.ltb_ge; lia).
  rewrite E0, E1, E2, E3, !Z.abs_eq by lia. cbn [xorb].
  destruct (round_frac a b) as [m e] eqn:Rab.
  pose proof (round_frac_le_int _ _ _ _ _ Ha Hb Rab Hk Hle) as Hv.
  pose proof (round_frac_mantissa _ _ _ _ Ha Hb Rab) as Hm.
  assert (Ho : overflows m e = false).
  { destruct (overflows m e) eqn:Ho; [|reflexivity].
    apply (overflows_spec _ _ Hm) in Ho.
    pose proof bpow_53_lt_1024. assert (IZR k < IZR (2 ^ 53)) by (apply IZR_lt; lia).
    lra. }
  rewrite Ho. eexists. split; [reflexivity|]. split.
  - split; [reflexivity|exact Rab].
  - unfold B2R. cbn [f_neg f_man f_exp]. unfold F2R in Hv. lra.
Qed.

(** *** [int(x)] *)

Lemma trunc_floor x :
  nonneg x -> IZR (trunc x) <= B2R x < IZR (trunc x) + 1.
Proof.
  intros Hx. rewrite (B2R_nonneg _ Hx). destruct Hx as [Hs Hm].
  unfold trunc. rewrite Hs.
  destruct (scale2 (f_man x) 1 (- f_exp x)) as [n d] eqn:Es.
  destruct (scale2_spec (f_man x) 1 (- f_exp x) n d ltac:(lia) Es) as [Hd [Eq _]].
  pose proof (Zdiv_floor n d Hd) as H. rewrite Eq in H.
  unfold F2R. replace (- - f_exp x)%Z with (f_exp x) in H by lia.
  replace (IZR (f_man x) / 1) with (IZR (f_man x)) in H by field. exact H.
Qed.

Lemma trunc_mono x y : nonneg x -> nonneg y -> B2R x <= B2R y -> (trunc x <= trunc y)%Z.
Proof.
  intros Hx Hy Hle. pose proof (trunc_floor _ Hx). pose proof (trunc_floor _ Hy).
  assert (H1 : IZR (trunc x) < IZR (trunc y + 1)) by (rewrite plus_IZR; lra).
  apply lt_IZR in H1. lia.
Qed.

Lemma trunc_nonneg x : nonneg x -> (0 <= trunc x)%Z.
Proof.
  intros Hx. pose proof (trunc_floor _ Hx). pose proof (B2R_nonneg_ge _ Hx).
  assert (H1 : IZR (-1) < IZR (trunc x)) by lra. apply lt_IZR in H1. lia.
Qed.

Lemma trunc_le_int x k : nonneg x -> B2R x <= IZR k -> (trunc x <= k)%Z.
Proof.
  intros Hx Hle. pose proof (trunc_floor _ Hx). apply le_IZR. lra.
Qed.
End FloatValues.

Section Product.
Local Open Scope R_scope.

Lemma fmul_zero x y :
  (f_man x * f_man y = 0)%Z ->
  fmul x y = Finite (mkFloat (xorb (f_neg x) (f_neg y)) 0 0).
Proof. intros H. unfold fmul. rewrite H. reflexivity. Qed.

(** The product of two positive floats is the rounded product of their
    values. *)
Lemma fmul_rounds x y :
  nonneg x -> nonneg y -> (f_man x * f_man y <> 0)%Z ->
  exists n d,
    (0 < n)%Z /\ (0 < d)%Z /\ IZR n / IZR d = B2R x * B2R y
    /\ fmul x y
       = let (m', e') := round_frac n d in
         if overflows m' e' then Infinity false
         else Finite (mkFloat false m' e').
Proof.
  intros Hx Hy Hm. unfold fmul.
  rewrite (B2R_nonneg _ Hx), (B2R_nonneg _ Hy).
  destruct Hx as [Sx Mx], Hy as [Sy My]. rewrite Sx, Sy. cbn [xorb].
  assert (E0 : (f_man x * f_man y =? 0)%Z = false) by now apply Z.eqb_neq.
  rewrite E0.
  destruct (scale2 (f_man x * f_man y) 1 (- (f_exp x + f_exp y))) as [n d] eqn:Es.
  destruct (scale2_spec (f_man x * f_man y) 1 (- (f_exp x + f_exp y)) n d
              ltac:(lia) Es) as [Hd [Eq [Hn _]]].
  exists n, d. split; [apply Hn; nia|]. split; [exact Hd|]. split; [|reflexivity].
  rewrite Eq, mult_IZR. unfold F2R.
  replace (- - (f_exp x + f_exp y))%Z with (f_exp x + f_exp y)%Z by lia.
  rewrite bpow_add. field.
Qed.

Lemma fmul_le_int x y k :
  nonneg x -> nonneg y -> (0 < k < 2 ^ 53)%Z -> B2R x * B2R y <= IZR k ->
  exists z, fmul x y = Finite z /\ nonneg z /\ B2R z <= IZR k.
Proof.
  intros Hx Hy Hk Hle.
  destruct (Z.eq_dec (f_man x * f_man y) 0) as [Hz|Hnz].
  - rewrite (fmul_zero _ _ Hz). destruct Hx as [Sx _], Hy as [Sy _].
    rewrite Sx, Sy. eexists. split; [reflexivity|]. split.
    + split; cbn; [reflexivity|lia].
    + unfold B2R. cbn [f_neg f_man f_exp xorb]. rewrite Rmult_0_r, Rmult_0_l.
      apply IZR_le. lia.
  - destruct (fmul_rounds x y Hx Hy Hnz) as [n [d [Hn [Hd [Ev ->]]]]].
    destruct (round_frac n d) as [m e] eqn:Rn. rewrite <- Ev in Hle.
    pose proof (round_frac_le_int _ _ _ _ _ Hn Hd Rn Hk Hle) as Hv.
    pose proof (round_frac_mantissa _ _ _ _ Hn Hd Rn) as Hm.
    assert (Ho : overflows m e = false).
    { destruct (overflows m e) eqn:Ho; [|reflexivity].
      apply (overflows_spec _ _ Hm) in Ho.
      pose proof bpow_53_lt_1024.
      assert (IZR k < IZR (2 ^ 53)) by (apply IZR_lt; lia). lra. }
    rewrite Ho. eexists. split; [reflexivity|]. split.
    + split; cbn; [reflexivity|lia].
    + unfold B2R. cbn [f_neg f_man f_exp]. unfold F2R in Hv. lra.
Qed.

Lemma fmul_mono x1 x2 y z2 :
  nonneg x1 -> nonneg x2 -> nonneg y -> B2R x1 <= B2R x2 ->
  fmul x2 y = Finite z2 ->
  nonneg z2
  /\ exists z1, fmul x1 y = Finite z1 /\ nonneg z1 /\ B2R z1 <= B2R z2.
Proof.
  intros Hx1 Hx2 Hy Hle Hz2.
  assert (Hnn2 : nonneg z2).
  { destruct (Z.eq_dec (f_man x2 * f_man y) 0) as [Hz|Hnz].
    - rewrite (fmul_zero _ _ Hz) in Hz2. destruct Hx2 as [S2 _], Hy as [Sy _].
      rewrite S2, Sy in Hz2. injection Hz2 as <-. split; cbn; [reflexivity|lia].
    - destruct (fmul_rounds x2 y Hx2 Hy Hnz) as [n [d [Hn [Hd [Ev E]]]]].
      rewrite E in Hz2. destruct (round_frac n d) as [m e] eqn:Rn.
      destruct (overflows m e); [discriminate|]. injection Hz2 as <-.
      split; cbn; [reflexivity|].
      exact (round_frac_nonneg _ _ _ _ Hn Hd Rn). }
  split; [exact Hnn2|].
  destruct (Z.eq_dec (f_man x1 * f_man y) 0) as [Hz1|Hnz1].
  - rewrite (fmul_zero _ _ Hz1). destruct Hx1 as [S1 _]. pose proof Hy as [Sy _].
    rewrite S1, Sy. eexists. split; [reflexivity|]. split.
    + split; cbn; [reflexivity|lia].
    + unfold B2R at 1. cbn [f_neg f_man f_exp xorb]. rewrite Rmult_0_r, Rmult_0_l.
      now apply B2R_nonneg_ge.
  - destruct (fmul_rounds x1 y Hx1 Hy Hnz1) as [n1 [d1 [Hn1 [Hd1 [Ev1 E1]]]]].
    assert (Hnz2 : (f_man x2 * f_man y <> 0)%Z).
    { intros Hz. rewrite (B2R_nonneg _ Hx1), (B2R_nonneg _ Hx2) in Hle.
      unfold F2R in Hle. destruct Hx1 as [_ M1], Hx2 as [_ M2], Hy as [_ My].
      assert (f_man x2 = 0)%Z by nia. rewrite H, Rmult_0_l in Hle.
      assert (0 < f_man x1)%Z by nia. apply IZR_lt in H0.
      pose proof (bpow_pos (f_exp x1)). nra. }
    destruct (fmul_rounds x2 y Hx2 Hy Hnz2) as [n2 [d2 [Hn2 [Hd2 [Ev2 E2]]]]].
    rewrite E2 in Hz2. rewrite E1.
    destruct (round_frac n1 d1) as [m1 e1] eqn:R1.
    destruct (round_frac n2 d2) as [m2 e2] eqn:R2.
    destruct (overflows m2 e2) eqn:O2; [discriminate|]. injection Hz2 as <-.
    assert (Hfr : IZR n1 / IZR d1 <= IZR n2 / IZR d2).
    { rewrite Ev1, Ev2. pose proof (B2R_nonneg_ge _ Hy).
      pose proof (B2R_nonneg_ge _ Hx1). nra. }
    pose proof (round_frac_mono _ _ _ _ _ _ _ _ Hn1 Hd1 Hn2 Hd2 R1 R2 Hfr) as Hm.
    pose proof (round_frac_mantissa _ _ _ _ Hn1 Hd1 R1) as Hm1.
    pose proof (round_frac_mantissa _ _ _ _ Hn2 Hd2 R2) as Hm2.
    assert (O1 : overflows m1 e1 = false).
    { destruct (overflows m1 e1) eqn:O1; [|reflexivity].
      apply (overflows_spec _ _ Hm1) in O1.
      assert (bpow 1024 <= F2R m2 e2) by lra.
      apply (overflows_spec _ _ Hm2) in H. congruence. }
    rewrite O1. eexists. split; [reflexivity|]. split.
    + split; cbn; [reflexivity|lia].
    + unfold B2R. cbn [f_neg f_man f_exp]. unfold F2R in Hm. lra.
Qed.
End Product.

(** ** The number of filled cells *)

Lemma fill_width_no_maximum tok bar_width :
  fill_width tok 0 bar_width = Ok (if 0 <? tok then 1 else 0).
Proof.
  unfold fill_width, ratio_of, filled_of. cbn.
  destruct (0 <? tok); reflexivity.
Qed.

Lemma fill_width_no_tokens max_tokens bar_width :
  0 < max_tokens -> 0 < bar_width < 2 ^ 53 ->
  fill_width 0 max_tokens bar_width = Ok 0.
Proof.
  intros Hm Hw. unfold fill_width, ratio_of, filled_of.
  assert (E0 : (max_tokens =? 0) = false) by (apply Z.eqb_neq; lia). rewrite E0.
  unfold true_div. rewrite E0.
  assert (E1 : (max_tokens <? 0) = false) by (apply Z.ltb_ge; lia). rewrite E1.
  cbn [Z.eqb Z.ltb Z.compare xorb bind times].
  destruct (float_of_int_small bar_width Hw) as [y [-> [[Sy _] _]]]. cbn [bind].
  rewrite fmul_zero by reflexivity. cbn [int_of bind f_neg]. rewrite Sy.
  reflexivity.
Qed.

Lemma fill_width_bounded tok max_tokens bar_width :
  0 < tok <= max_tokens -> 0 < bar_width < 2 ^ 53 ->
  exists filled,
    fill_width tok max_tokens bar_width = Ok filled /\ 1 <= filled <= bar_width.
Proof.
  intros Ht Hw. unfold fill_width, ratio_of, filled_of.
  assert (E0 : (max_tokens =? 0) = false) by (apply Z.eqb_neq; lia). rewrite E0.
  destruct (true_div_pos tok max_tokens 1) as [x [-> [Rx Hx]]]; try lia.
  { apply Rmult_le_reg_r with (IZR max_tokens); [apply IZR_lt; lia|].
    rewrite frac_mult by lia. rewrite Rmult_1_l. apply IZR_le. lia. }
  cbn [bind times].
  destruct (float_of_int_small bar_width Hw) as [y [-> [Ry Hy]]]. cbn [bind].
  assert (Nx : nonneg x) by (apply (rounds_nonneg x tok max_tokens); [lia|lia|exact Rx]).
  assert (Ny : nonneg y) by (apply (rounds_nonneg y bar_width 1); [lia|lia|exact Ry]).
  destruct (fmul_le_int x y bar_width Nx Ny Hw) as [z [-> [Nz Hz]]].
  { rewrite Hy. pose proof (B2R_nonneg_ge _ Nx).
    assert (0 < IZR bar_width)%R by (apply IZR_lt; lia). nra. }
  cbn [int_of bind]. eexists. split; [reflexivity|].
  assert (E : (0 <? tok) = true) by (apply Z.ltb_lt; lia). rewrite E.
  pose proof (trunc_le_int z bar_width Nz Hz). lia.
Qed.

(** The bar of one token against a maximum of 1000 on 24 cells: the quotient,
    the width as a float, and their product, which truncates to 0. *)
Lemma single_token_reference :
  exists x0 y z0,
    true_div 1 1000 = Ok x0 /\ rounds x0 1 1000
    /\ float_of_int 24 = Ok y /\ rounds y 24 1
    /\ fmul x0 y = Finite z0 /\ trunc z0 = 0.
Proof.
  do 3 eexists. unfold rounds.
  repeat match goal with |- _ /\ _ => split end; vm_compute; reflexivity.
Qed.

Lemma fill_width_single_token max_tokens :
  1000 <= max_tokens -> fill_width 1 max_tokens 24 = Ok 1.
Proof.
  intros Hm. unfold fill_width, ratio_of, filled_of.
  assert (E0 : (max_tokens =? 0) = false) by (apply Z.eqb_neq; lia). rewrite E0.
  destruct (true_div_pos 1 max_tokens 1) as [x [-> [Rx Hx]]]; try lia.
  { apply Rmult_le_reg_r with (IZR max_tokens); [apply IZR_lt; lia|].
    rewrite frac_mult by lia. rewrite Rmult_1_l. apply IZR_le. lia. }
  cbn [bind times].
  destruct single_token_reference as [x0 [y [z0 [Ex0 [Rx0 [Ey [Ry [Ez0 Hz0]]]]]]]].
  rewrite Ey. cbn [bind].
  assert (Nx : nonneg x) by (apply (rounds_nonneg x 1 max_tokens); [lia|lia|exact Rx]).
  assert (Nx0 : nonneg x0) by (apply (rounds_nonneg x0 1 1000); [lia|lia|exact Rx0]).
  assert (Ny : nonneg y) by (apply (rounds_nonneg y 24 1); [lia|lia|exact Ry]).
  assert (Hle : (B2R x <= B2R x0)%R).
  { apply (rounds_mono x 1 max_tokens x0 1 1000); try lia; try assumption.
    apply Rmult_le_reg_r with (IZR max_tokens); [apply IZR_lt; lia|].
    rewrite frac_mult by lia.
    apply Rmult_le_reg_r with (IZR 1000); [apply IZR_lt; lia|].
    replace (IZR 1 / IZR 1000 * IZR max_tokens * IZR 1000)%R
      with (IZR max_tokens) by (field; apply not_0_IZR; lia).
    rewrite <- mult_IZR. apply IZR_le. lia. }
  destruct (fmul_mono x x0 y z0 Nx Nx0 Ny Hle Ez0) as [Nz0 [z [-> [Nz Hz]]]].
  cbn [int_of bind].
  pose proof (trunc_mono z z0 Nz Nz0 Hz). pose proof (trunc_nonneg z Nz).
  assert (E : (0 <? 1) = true) by reflexivity. rewrite E.
  f_equal. lia.
Qed.

(** ** Concrete trees *)

Lemma same_contents_refl t : same_contents t t.
Proof.
  induction t as [nm dir tok cs IH] using TokenNode_induction.
  apply same_node with (cs2' := cs); [reflexivity|].
  induction IH as [|kc rest Hkc _ IHrest]; constructor; auto.
Qed.

Lemma sample_trees_same : same_contents sample_tree sample_tree_reordered.
Proof.
  unfold sample_tree, sample_tree_reordered.
  eapply same_node; [apply perm_swap|].
  constructor; [split; [reflexivity|apply same_contents_refl]|].
  constructor; [|constructor]. split; [reflexivity|].
  eapply same_node; [apply perm_swap|].
  repeat constructor; apply same_contents_refl.
Qed.

(** * The claims *)

(** C1 (the code departs from it).  The claim: the value every file row is
    scaled by is the largest count of a file node.  [main] passes the count of
    the root, which after aggregation is the total of all files.  On the
    scenario the total is 500 and the largest file count, as
    [summarize_tree] finds it, is 300; the file of 300 tokens gets 6 cells of
    10 and 60%, not 10 cells and 100%, and the file of 80 tokens gets 1 cell,
    not 2. *)
Theorem main_scales_bars_by_root_total :
  exists t table,
    build_token_tree "repo" scenario = Ok (t, 0)
    /\ tokens t = 500
    /\ summarize_tree t = (3, 300, "repo/skills/a/SKILL.md")
    /\ main "repo" scenario 10 = Ok (table, 0)
    /\ map (fun r => (bar_cell r, percent_cell r)) (rows table)
       = [ (Plain "", "");
           (Plain "", "");
           (Plain "", "");
           (Rich [(repeat "█" 6 ++ repeat "░" 4, Some magenta)], " 60%");
           (Plain "", "");
           (Rich [(repeat "█" 1 ++ repeat "░" 9, Some magenta)], " 16%");
           (Rich [(repeat "█" 2 ++ repeat "░" 8, Some magenta)], " 24%") ]
    /\ fill_width 300 500 10 = Ok 6 /\ fill_width 300 300 10 = Ok 10
    /\ fill_width 80 500 10 = Ok 1 /\ fill_width 80 300 10 = Ok 2.
Proof.
  do 2 eexists.
  repeat match goal with |- _ /\ _ => split end; vm_compute; reflexivity.
Qed.

(** C2, counterexample.  A path whose first segment was created as a file
    node is accepted: the builder returns a tree in which the file node [a]
    holds the child [b].  When the file at such a path cannot be read, as
    on a file system where [a] is a regular file, it is skipped like a
    binary file and the builder returns as well. *)
Lemma build_accepts_file_used_as_directory :
  build_token_tree "repo" nested_files
  = Ok (mkNode "repo" true 5
          [("a", mkNode "a" false 5 [("b", mkNode "b" false 7 [])])], 0)
  /\ build_token_tree "repo" [mkFile ["a"] (Some 5); mkFile ["a"; "b"] None]
     = Ok (mkNode "repo" true 5 [("a", mkNode "a" false 5 [])], 1)
  /\ add_file ["a"] "b" 7 (mkNode "repo" true 0 [("a", mkNode "a" false 5 [])])
     = mkNode "repo" true 0
         [("a", mkNode "a" false 5 [("b", mkNode "b" false 7 [])])].
Proof. repeat split; vm_compute; reflexivity. Qed.

(** C7.  Aggregating an aggregated tree gives the same tree and the same
    returned count. *)
Theorem aggregate_idempotent (t : TokenNode) :
  aggregate (fst (aggregate t)) = aggregate t.
Proof. apply aggregate_twice. Qed.

(** C10.  When the name is already a key of the children, [ensure_child]
    returns the node stored under it and leaves the parent as it was,
    whatever flag is asked for. *)
Theorem ensure_child_existing (self : TokenNode) (nm : string) (dir : bool) :
  In nm (keys (children self)) ->
  exists c,
    In (nm, c) (children self)
    /\ lookup nm (children self) = Some c
    /\ ensure_child self nm dir = (self, c).
Proof.
  intros Hin. destruct (lookup_present _ _ Hin) as [c [Hl Hc]].
  exists c. split; [exact Hc|]. split; [exact Hl|].
  unfold ensure_child. now rewrite Hl.
Qed.

Lemma ensure_child_existing_witness :
  In "skills" (keys (children sample_tree))
  /\ exists c,
      In ("skills", c) (children sample_tree)
      /\ lookup "skills" (children sample_tree) = Some c
      /\ ensure_child sample_tree "skills" false = (sample_tree, c).
Proof.
  assert (H : In "skills" (keys (children sample_tree))) by (simpl; auto).
  split; [exact H|]. exact (ensure_child_existing sample_tree "skills" false H).
Defined.

(** C8, counterexample.  [ensure_child] on a file node gives the file node
    a child, and the builder does so when a path runs through a file. *)
Lemma ensure_child_attaches_to_file :
  files_are_leaves (mkNode "a" false 5 []) = true
  /\ fst (ensure_child (mkNode "a" false 5 []) "b" false)
     = mkNode "a" false 5 [("b", mkNode "b" false 0 [])]
  /\ files_are_leaves (fst (ensure_child (mkNode "a" false 5 []) "b" false)) = false
  /\ exists t,
      build_token_tree "repo" nested_files = Ok (t, 0)
      /\ files_are_leaves t = false.
Proof.
  repeat match goal with |- _ /\ _ => split end; try (vm_compute; reflexivity).
  eexists. split; vm_compute; reflexivity.
Qed.

(** C8, amended.  File nodes keep an empty [children] dict under aggregation,
    under [ensure_child] on a directory node or for a name that is already
    there, and in every tree built from a list in which no counted path runs
    through an earlier counted path. *)
Theorem files_are_leaves_preserved :
  (forall t, files_are_leaves t = true ->
             files_are_leaves (fst (aggregate t)) = true)
  /\ (forall t nm dir,
         files_are_leaves t = true ->
         is_dir t = true \/ In nm (keys (children t)) ->
         files_are_leaves (fst (ensure_child t nm dir)) = true
         /\ files_are_leaves (snd (ensure_child t nm dir)) = true)
  /\ (forall root_name files t k,
         nesting_free [] files = true ->
         build_token_tree root_name files = Ok (t, k) ->
         files_are_leaves t = true).
Proof.
  split; [|split].
  - intros t H. now rewrite aggregate_files_are_leaves.
  - intros t nm dir Hwf Hcond. now apply ensure_child_files_are_leaves.
  - intros root_name files t k Hfree. unfold build_token_tree.
    destruct (build_loop files (mkNode root_name true 0 []) []) as [r|e] eqn:E;
      cbn [bind]; [|discriminate].
    intros [= <- _]. rewrite aggregate_files_are_leaves.
    eapply build_loop_files_are_leaves; [exact Hfree| |exact E].
    split; [reflexivity|]. split; [reflexivity|].
    intros q Hq. now rewrite reaches_file_leaf in Hq.
Qed.

Lemma files_are_leaves_preserved_witness :
  files_are_leaves (fst (aggregate sample_tree)) = true
  /\ files_are_leaves (fst (ensure_child sample_tree "docs" true)) = true
  /\ exists t k,
      build_token_tree "repo" scenario = Ok (t, k) /\ files_are_leaves t = true.
Proof.
  destruct files_are_leaves_preserved as [Hagg [Hens Hbuild]].
  split; [apply Hagg; reflexivity|].
  split; [apply Hens; [reflexivity|left; reflexivity]|].
  destruct (build_token_tree "repo" scenario) as [[t k]|e] eqn:E;
    [|vm_compute in E; discriminate].
  exists t, k. split; [reflexivity|].
  apply (Hbuild "repo" scenario t k); [reflexivity|exact E].
Defined.

(** C9.  Two trees that hold the same nodes and differ only in the order in
    which their dicts iterate render to the same table, for every bar width
    (and for every maximum and column width handed to [render_tree_lines]),
    as long as no two children of a node share a name, which holds in every
    tree the builder returns. *)
Theorem render_deterministic (t1 t2 : TokenNode) (bar_width : Z) :
  same_contents t1 t2 -> distinct_names t1 = true ->
  (forall max_tokens max_token_len,
      render_tree_lines t1 max_tokens bar_width max_token_len
      = render_tree_lines t2 max_tokens bar_width max_token_len)
  /\ render t1 bar_width = render t2 bar_width.
Proof.
  intros Hs Hd. split.
  - intros max_tokens max_token_len. now apply render_tree_lines_same.
  - now apply render_same.
Qed.

Lemma render_deterministic_witness :
  same_contents sample_tree sample_tree_reordered
  /\ distinct_names sample_tree = true
  /\ (forall max_tokens max_token_len,
         render_tree_lines sample_tree max_tokens 10 max_token_len
         = render_tree_lines sample_tree_reordered max_tokens 10 max_token_len)
  /\ render sample_tree 10 = render sample_tree_reordered 10.
Proof.
  split; [exact sample_trees_same|]. split; [reflexivity|].
  apply (render_deterministic sample_tree sample_tree_reordered 10).
  - exact sample_trees_same.
  - reflexivity.
Defined.

(** ** Relative error *)

Section RelativeError.
Local Open Scope R_scope.

Lemma u53_pos : 0 < u53.
Proof. apply bpow_pos. Qed.

Lemma u53_scale : u53 * bpow 51 = 1 / 4.
Proof.
  unfold u53. rewrite <- bpow_add. replace (-53 + 51)%Z with (Z.opp 2) by lia.
  rewrite bpow_opp, <- bpow_IZR by lia. replace (IZR (2 ^ 2)) with 4 by reflexivity.
  lra.
Qed.

Lemma u53_small : u53 <= 1 / 4.
Proof.
  rewrite <- u53_scale. pose proof u53_pos. pose proof (bpow_ge_1 51 ltac:(lia)). nra.
Qed.

Lemma Rabs_within x a : Rabs x <= a -> - a <= x <= a.
Proof. unfold Rabs. destruct (Rcase_abs x); lra. Qed.

Lemma round_frac_rel_error n d m e :
  (0 < n)%Z -> (0 < d)%Z -> round_frac n d = (m, e) ->
  bpow (- 1022) <= IZR n / IZR d ->
  Rabs (F2R m e - IZR n / IZR d) <= IZR n / IZR d * u53.
Proof.
  intros Hn Hd Hr Hnormal.
  pose proof (round_frac_error _ _ _ _ Hn Hd Hr) as Herr.
  destruct (round_frac_spec _ _ _ _ Hn Hd Hr) as [E _].
  destruct (ilog2_frac_spec n d Hn Hd) as [L U].
  set (l := ilog2_frac n d) in *.
  assert (Hl : (- 1022 < l + 1)%Z) by (apply bpow_lt_inv; lra).
  assert (He : e = (l - 52)%Z) by (subst e; unfold ulp_exp; lia).
  assert (Hb : bpow e / 2 = bpow l * u53).
  { unfold u53. rewrite <- bpow_add, He.
    replace (bpow (l - 52)) with (bpow (l + -53 + 1)) by (f_equal; lia).
    rewrite (bpow_add (l + -53) 1), bpow_1. field. }
  rewrite Hb in Herr. pose proof u53_pos.
  apply Rle_trans with (bpow l * u53); [exact Herr|]. nra.
Qed.

Lemma rounds_rel_error x n d :
  (0 < n)%Z -> (0 < d)%Z -> rounds x n d -> bpow (- 1022) <= IZR n / IZR d ->
  Rabs (B2R x - IZR n / IZR d) <= IZR n / IZR d * u53.
Proof.
  intros Hn Hd Hx Hnormal.
  rewrite (B2R_nonneg x) by exact (rounds_nonneg _ _ _ Hn Hd Hx).
  destruct Hx as [_ Hx]. exact (round_frac_rel_error _ _ _ _ Hn Hd Hx Hnormal).
Qed.

Lemma nonneg_positive x : nonneg x -> 0 < B2R x -> (0 < f_man x)%Z.
Proof.
  intros Hx Hpos. rewrite (B2R_nonneg _ Hx) in Hpos. destruct Hx as [_ Hm].
  unfold F2R in Hpos. destruct (Z.eq_dec (f_man x) 0) as [E|E]; [|lia].
  rewrite E, Rmult_0_l in Hpos. lra.
Qed.

Lemma fmul_rel_error x y z :
  nonneg x -> nonneg y -> fmul x y = Finite z ->
  bpow (- 1022) <= B2R x * B2R y ->
  nonneg z /\ Rabs (B2R z - B2R x * B2R y) <= B2R x * B2R y * u53.
Proof.
  intros Hx Hy Hz Hnormal.
  assert (Hnz : (f_man x * f_man y <> 0)%Z).
  { intros E. pose proof (bpow_pos (- 1022)).
    rewrite (B2R_nonneg _ Hx), (B2R_nonneg _ Hy) in Hnormal. unfold F2R in Hnormal.
    assert (IZR (f_man x) * IZR (f_man y) = 0) by (rewrite <- mult_IZR, E; reflexivity).
    assert (IZR (f_man x) * bpow (f_exp x) * (IZR (f_man y) * bpow (f_exp y))
            = IZR (f_man x) * IZR (f_man y) * (bpow (f_exp x) * bpow (f_exp y))) by ring.
    rewrite H1, H0 in Hnormal. lra. }
  destruct (fmul_rounds x y Hx Hy Hnz) as [n [d [Hn [Hd [Ev E]]]]].
  rewrite E in Hz. destruct (round_frac n d) as [m e] eqn:Rn.
  destruct (overflows m e); [discriminate|]. injection Hz as <-.
  split.
  - split; cbn; [reflexivity|]. exact (round_frac_nonneg _ _ _ _ Hn Hd Rn).
  - rewrite <- Ev in Hnormal |- *.
    pose proof (round_frac_rel_error _ _ _ _ Hn Hd Rn Hnormal) as H.
    unfold B2R. cbn [f_neg f_man f_exp]. unfold F2R in H.
    replace (1 * IZR m * bpow e) with (IZR m * bpow e) by ring. exact H.
Qed.
End RelativeError.

(** The truncated product is the floor of the exact quotient, or one less. *)
Lemma fill_width_floor tok max_tokens bar_width :
  0 < tok -> 0 < max_tokens < 2 ^ 53 -> 0 < bar_width ->
  tok * bar_width < 2 ^ 51 ->
  exists i,
    fill_width tok max_tokens bar_width = Ok (Z.max 1 i)
    /\ tok * bar_width / max_tokens - 1 <= i <= tok * bar_width / max_tokens.
Proof.
  intros Ht Hm Hw Hprod.
  assert (Ht53 : 0 < tok < 2 ^ 53) by nia.
  assert (Hw53 : 0 < bar_width < 2 ^ 53) by nia.
  unfold fill_width, ratio_of, filled_of.
  assert (E0 : (max_tokens =? 0) = false) by (apply Z.eqb_neq; lia). rewrite E0.
  assert (Rt : (1 <= IZR tok)%R) by (apply IZR_le; lia).
  assert (Rm : (1 <= IZR max_tokens)%R) by (apply IZR_le; lia).
  assert (Rm53 : (IZR max_tokens < bpow 53)%R).
  { rewrite <- bpow_IZR by lia. apply IZR_lt. lia. }
  assert (Rw : (1 <= IZR bar_width)%R) by (apply IZR_le; lia).
  assert (Rp : (IZR tok * IZR bar_width < bpow 51)%R).
  { rewrite <- bpow_IZR, <- mult_IZR by lia. apply IZR_lt. lia. }
  pose proof (frac_mult tok max_tokens ltac:(lia)) as Ex.
  set (x := (IZR tok / IZR max_tokens)%R) in *.
  assert (Hx0 : (0 < x)%R).
  { apply Rmult_lt_reg_r with (IZR max_tokens); [lra|]. rewrite Ex. lra. }
  assert (Hxt : (x <= IZR tok)%R).
  { apply Rmult_le_reg_r with (IZR max_tokens); [lra|]. rewrite Ex. nra. }
  destruct (true_div_pos tok max_tokens tok) as [r [-> [Rr Hr]]]; try lia.
  { exact Hxt. }
  cbn [bind times].
  destruct (float_of_int_small bar_width Hw53) as [y [-> [Ry Hy]]]. cbn [bind].
  assert (Nr : nonneg r)
    by (apply (rounds_nonneg r tok max_tokens); [lia|lia|exact Rr]).
  assert (Ny : nonneg y) by (apply (rounds_nonneg y bar_width 1); [lia|lia|exact Ry]).
  pose proof u53_pos as Hu. pose proof u53_small as Hu4. pose proof u53_scale as Hus.
  assert (Hx53 : (bpow (- 53) < x)%R).
  { apply Rmult_lt_reg_r with (IZR max_tokens); [lra|]. rewrite Ex.
    assert (bpow (- 53) * bpow 53 = 1)%R by (rewrite <- bpow_add; reflexivity).
    pose proof (bpow_pos (- 53)). nra. }
  assert (Hxn : (bpow (- 1022) <= x)%R).
  { pose proof (bpow_le (- 1022) (- 53) ltac:(lia)). lra. }
  pose proof (rounds_rel_error r tok max_tokens ltac:(lia) ltac:(lia) Rr Hxn) as Herr.
  fold x in Herr. apply Rabs_within in Herr.
  assert (Hrlo : (x * (1 - u53) <= B2R r)%R) by lra.
  assert (Hrhi : (B2R r <= x * (1 + u53))%R) by lra.
  assert (Hrpos : (0 < B2R r)%R) by nra.
  destruct (fmul_le_int r y (tok * bar_width) Nr Ny) as [z [Ez [Nz Hz]]]; [nia| |].
  { rewrite Hy, mult_IZR. nra. }
  rewrite Ez. cbn [int_of bind].
  assert (Hpn : (bpow (- 1022) <= B2R r * B2R y)%R).
  { rewrite Hy. assert (bpow (- 1022) <= bpow (- 54))%R by (apply bpow_le; lia).
    assert (bpow (- 54) * 2 = bpow (- 53))%R.
    { rewrite <- bpow_1, <- bpow_add. reflexivity. }
    pose proof (bpow_pos (- 54)). nra. }
  destruct (fmul_rel_error r y z Nr Ny Ez Hpn) as [_ Hperr].
  rewrite Hy in Hperr. apply Rabs_within in Hperr.
  pose proof (trunc_floor z Nz) as [Tlo Thi].
  set (p := B2R z) in *. set (q := B2R r) in *.
  (* the exact quotient and its floor *)
  set (k := tok * bar_width / max_tokens).
  pose proof (Z.div_mod (tok * bar_width) max_tokens ltac:(lia)) as Hdm.
  pose proof (Z.mod_pos_bound (tok * bar_width) max_tokens ltac:(lia)) as Hmod.
  fold k in Hdm.
  assert (Hklo : (IZR k * IZR max_tokens <= IZR tok * IZR bar_width)%R).
  { rewrite <- !mult_IZR. apply IZR_le. nia. }
  assert (Hkhi : (IZR tok * IZR bar_width <= IZR k * IZR max_tokens + IZR max_tokens - 1)%R).
  { rewrite <- !mult_IZR, <- plus_IZR, <- minus_IZR. apply IZR_le. nia. }
  set (E := (x * IZR bar_width)%R).
  assert (EE : (E * IZR max_tokens = IZR tok * IZR bar_width)%R).
  { unfold E. rewrite <- Ex. ring. }
  assert (HE0 : (0 < E)%R) by (unfold E; nra).
  assert (HE51 : (E < bpow 51)%R).
  { apply Rle_lt_trans with (IZR tok * IZR bar_width)%R; [|exact Rp]. rewrite <- EE. nra. }
  assert (Hphi : (p <= E * (1 + u53) * (1 + u53))%R).
  { apply Rle_trans with (q * IZR bar_width * (1 + u53))%R; [lra|]. unfold E.
    assert (Hc : (0 <= IZR bar_width * (1 + u53))%R) by nra.
    pose proof (Rmult_le_compat_r _ _ _ Hc Hrhi). lra. }
  assert (Hplo : (E * (1 - u53) * (1 - u53) <= p)%R).
  { apply Rle_trans with (q * IZR bar_width * (1 - u53))%R; [|lra]. unfold E.
    assert (Hc : (0 <= IZR bar_width * (1 - u53))%R) by nra.
    pose proof (Rmult_le_compat_r _ _ _ Hc Hrlo). lra. }
  assert (Hup : (p < IZR k + 1)%R).
  { apply Rmult_lt_reg_r with (IZR max_tokens); [lra|].
    assert (E * IZR max_tokens * u53 < 1 / 4)%R.
    { rewrite EE, <- Hus. nra. }
    assert (p * IZR max_tokens
            <= E * IZR max_tokens + E * IZR max_tokens * u53 * (2 + u53))%R by nra.
    nra. }
  assert (Hlow : (IZR k - 1 < p)%R).
  { assert (E * u53 < 1 / 4)%R by (rewrite <- Hus; nra).
    assert (IZR k <= E)%R.
    { apply Rmult_le_reg_r with (IZR max_tokens); [lra|]. rewrite EE. exact Hklo. }
    nra. }
  exists (trunc z). split.
  - assert (E1 : (0 <? tok) = true) by (apply Z.ltb_lt; lia). now rewrite E1.
  - assert (H1 : (IZR (trunc z) < IZR (k + 1))%R) by (rewrite plus_IZR; lra).
    assert (H2 : (IZR (k - 2) < IZR (trunc z))%R) by (rewrite minus_IZR; lra).
    apply lt_IZR in H1, H2. fold k. lia.
Qed.

(** ** The formatter *)

Lemma zero_fill_digit d : 0 <= d < 10 -> zero_fill 1 d = str d.
Proof.
  intros Hd.
  assert (H : d = 0 \/ d = 1 \/ d = 2 \/ d = 3 \/ d = 4 \/ d = 5 \/ d = 6 \/ d = 7
              \/ d = 8 \/ d = 9) by lia.
  repeat (destruct H as [-> | H]; [reflexivity|]). subst d. reflexivity.
Qed.

Lemma format_tokens_small n : n < 1000 -> format_tokens n = Ok (str n).
Proof.
  intros Hn. unfold format_tokens.
  assert (E : (1000 <=? n) = false) by (apply Z.leb_gt; lia). now rewrite E.
Qed.

(** From 1000 on and below [2^53] the text is a tenth nearest to a
    thousandth of the count, followed by [k]. *)
Lemma format_tokens_thousands n :
  1000 <= n < 2 ^ 53 ->
  exists d,
    format_tokens n = Ok ((str (d / 10) ++ "." ++ str (d mod 10)) ++ "k")
    /\ Z.abs (100 * d - n) <= 50.
Proof.
  intros Hn. unfold format_tokens.
  assert (E : (1000 <=? n) = true) by (apply Z.leb_le; lia). rewrite E.
  assert (Rn : (1000 <= IZR n)%R) by (apply IZR_le; lia).
  assert (Rn53 : (IZR n < bpow 53)%R).
  { rewrite <- bpow_IZR by lia. apply IZR_lt. lia. }
  pose proof (frac_mult n 1000 ltac:(lia)) as Ex.
  set (x := (IZR n / IZR 1000)%R) in *.
  assert (Hx1 : (1 <= x)%R) by lra.
  destruct (true_div_pos n 1000 n) as [r [-> [Rr Hr]]]; try lia.
  { lra. }
  cbn [bind].
  assert (Nr : nonneg r) by (apply (rounds_nonneg r n 1000); [lia|lia|exact Rr]).
  assert (Hxn : (bpow (- 1022) <= x)%R).
  { pose proof (bpow_le (- 1022) 0 ltac:(lia)). rewrite bpow_0 in H. lra. }
  pose proof (rounds_rel_error r n 1000 ltac:(lia) ltac:(lia) Rr Hxn) as Herr.
  fold x in Herr. apply Rabs_within in Herr.
  rewrite (B2R_nonneg _ Nr) in Herr. unfold F2R in Herr.
  destruct Nr as [Sr Mr].
  unfold format_f. rewrite Sr.
  change (10 ^ Z.of_nat 1) with 10.
  destruct (scale2 (f_man r * 10) 1 (- f_exp r)) as [a b] eqn:Es.
  destruct (scale2_spec (f_man r * 10) 1 (- f_exp r) a b ltac:(lia) Es)
    as [Hb [Eq _]].
  pose proof (round_half_even_spec a b Hb) as Hq.
  pose proof (nearest_even_real _ _ _ Hb Hq) as [Qlo Qhi].
  set (q := round_half_even a b) in *.
  rewrite Eq, mult_IZR in Qlo, Qhi.
  replace (- - f_exp r) with (f_exp r) in Qlo, Qhi by lia.
  assert (Hu : (IZR n * u53 < 1)%R).
  { assert (bpow 53 * u53 = 1)%R by (unfold u53; rewrite <- bpow_add; reflexivity).
    pose proof u53_pos. nra. }
  pose proof u53_pos as Hupos.
  set (v := (IZR (f_man r) * bpow (f_exp r))%R) in *.
  assert (Ev : (IZR (f_man r) * 10 / 1 * bpow (f_exp r) = 10 * v)%R)
    by (unfold v; field).
  rewrite Ev in Qlo, Qhi.
  assert (H1 : (IZR (100 * q - n) < IZR 51)%R).
  { rewrite minus_IZR, mult_IZR. nra. }
  assert (H2 : (IZR (-51) < IZR (100 * q - n))%R).
  { rewrite minus_IZR, mult_IZR. nra. }
  apply lt_IZR in H1, H2.
  assert (Hq0 : 0 <= q) by lia.
  exists q. split; [|lia].
  rewrite zero_fill_digit by (apply Z.mod_pos_bound; lia). reflexivity.
Qed.

(** ** Agreement with the IEEE 754 specification of the Standard Library *)

Example float_model_agrees_with_spec :
  forallb (fun a => forallb (fun b => forallb (agrees_with_spec a b) [1; 10; 24; 100])
                      (upto 24 ++ [100; 300; 500; 1000; 4096; 65537; 10 ^ 15])%list)
    (upto 24 ++ [80; 120; 300; 999; 1536; 2 ^ 52 + 1; 2 ^ 53 - 1])%list
  = true.
Proof. vm_compute. reflexivity. Qed.

(** * The claims on the formatter *)

(** C4, counterexample.  With a maximum of 0 a positive count gets one
    cell, not none; a count above the maximum gets more cells than the bar
    is wide; and the float product can fall below the exact quotient, as for
    29 of 100 on 100 cells. *)
Lemma fill_width_differs_from_claim :
  fill_width 5 0 24 = Ok 1
  /\ fill_width 5 1 3 = Ok 15
  /\ fill_width 29 100 100 = Ok 28 /\ 29 * 100 / 100 = 29.
Proof.
  repeat match goal with |- _ /\ _ => split end; vm_compute; reflexivity.
Qed.

(** C4, amended.  For a count and a maximum that are not negative and a bar
    width from 1 to [2^53 - 1]: with a maximum of 0 the number of filled
    cells is 1 for a positive count and 0 for a count of 0; a count of 0
    gets no cell; a positive count up to the maximum gets at least one cell
    and at most the bar width; the number of cells of a positive count is
    the larger of 1 and [int(ratio * bar_width)], which is the floor of
    [tok * bar_width / max_tokens] or one less (maximum below [2^53],
    [tok * bar_width] below [2^51]); one token against a maximum of at
    least 1000 on 24 cells gets exactly one cell. *)
Theorem fill_width_spec (tok max_tokens bar_width : Z) :
  0 <= tok -> 0 <= max_tokens -> 0 < bar_width < 2 ^ 53 ->
  (max_tokens = 0 ->
   fill_width tok max_tokens bar_width = Ok (if 0 <? tok then 1 else 0))
  /\ (tok = 0 -> fill_width tok max_tokens bar_width = Ok 0)
  /\ (0 < tok <= max_tokens ->
      exists filled,
        fill_width tok max_tokens bar_width = Ok filled
        /\ 1 <= filled <= bar_width)
  /\ (0 < tok -> 0 < max_tokens < 2 ^ 53 -> tok * bar_width < 2 ^ 51 ->
      exists i,
        fill_width tok max_tokens bar_width = Ok (Z.max 1 i)
        /\ tok * bar_width / max_tokens - 1 <= i <= tok * bar_width / max_tokens)
  /\ (1000 <= max_tokens -> fill_width 1 max_tokens 24 = Ok 1).
Proof.
  intros Ht Hm Hw. split; [|split; [|split; [|split]]].
  - intros ->. apply fill_width_no_maximum.
  - intros ->. destruct (Z.eq_dec max_tokens 0) as [->|Hne].
    + apply fill_width_no_maximum.
    + apply fill_width_no_tokens; lia.
  - intros H. now apply fill_width_bounded.
  - intros H1 H2 H3. apply fill_width_floor; lia.
  - apply fill_width_single_token.
Qed.

Lemma fill_width_spec_witness :
  (0 <= 80 /\ 0 <= 300 /\ 0 < 10 < 2 ^ 53)
  /\ (exists filled, fill_width 80 300 10 = Ok filled /\ 1 <= filled <= 10)
  /\ (exists i, fill_width 80 300 10 = Ok (Z.max 1 i)
                /\ 80 * 10 / 300 - 1 <= i <= 80 * 10 / 300).
Proof.
  split; [lia|].
  destruct (fill_width_spec 80 300 10 ltac:(lia) ltac:(lia) ltac:(lia))
    as [_ [_ [Hbound [Hfloor _]]]].
  split; [apply Hbound; lia|apply Hfloor; lia].
Defined.

(** C6, counterexample.  For a count of 100000000000000051 the text is
    [100000000000000.0k]: the quotient is the float 100000000000000.046875,
    while a thousandth of the count, 100000000000000.051, rounds to
    100000000000000.1. *)
Lemma format_tokens_large_count :
  format_tokens 100000000000000051 = Ok "100000000000000.0k"
  /\ Z.abs (100 * 1000000000000000 - 100000000000000051) = 51
  /\ Z.abs (100 * 1000000000000001 - 100000000000000051) = 49.
Proof.
  repeat match goal with |- _ /\ _ => split end; vm_compute; reflexivity.
Qed.

(** C6, amended.  For a count from 0 to [2^53 - 1]: below 1000 the text is
    the decimal text of the count; from 1000 on it is a tenth nearest to a
    thousandth of the count (either neighbour at a tie), written with one
    decimal, followed by [k].  In particular 999 gives [999], 1000 gives
    [1.0k] and 1536 gives [1.5k]. *)
Theorem format_tokens_spec (n : Z) :
  0 <= n < 2 ^ 53 ->
  (n < 1000 -> format_tokens n = Ok (str n))
  /\ (1000 <= n ->
      exists d,
        format_tokens n = Ok ((str (d / 10) ++ "." ++ str (d mod 10)) ++ "k")
        /\ Z.abs (100 * d - n) <= 50)
  /\ format_tokens 999 = Ok "999"
  /\ format_tokens 1000 = Ok "1.0k"
  /\ format_tokens 1536 = Ok "1.5k".
Proof.
  intros Hn. split; [|split; [|split; [|split]]].
  - apply format_tokens_small.
  - intros H. apply format_tokens_thousands. lia.
  - vm_compute. reflexivity.
  - vm_compute. reflexivity.
  - vm_compute. reflexivity.
Qed.

Lemma format_tokens_spec_witness :
  0 <= 1536 < 2 ^ 53
  /\ exists d,
      format_tokens 1536 = Ok ((str (d / 10) ++ "." ++ str (d mod 10)) ++ "k")
      /\ Z.abs (100 * d - 1536) <= 50.
Proof.
  split; [lia|].
  destruct (format_tokens_spec 1536 ltac:(lia)) as [_ [H _]]. apply H. lia.
Defined.

(** * Further properties *)

(** ** [ensure_child] as insertion *)

Lemma ensure_child_lookup_same self nm dir :
  lookup nm (children (fst (ensure_child self nm dir)))
  = Some (snd (ensure_child self nm dir)).
Proof.
  destruct (ensure_child_cases self nm dir) as [[c [Hl ->]] | [Hl ->]];
    cbn [fst snd children set_children].
  - exact Hl.
  - rewrite lookup_app, Hl. cbn [lookup]. now rewrite String.eqb_refl.
Qed.

Lemma ensure_child_lookup_other self nm dir k :
  k <> nm ->
  lookup k (children (fst (ensure_child self nm dir))) = lookup k (children self).
Proof.
  intros Hne. apply String.eqb_neq in Hne.
  destruct (ensure_child_cases self nm dir) as [[c [Hl ->]] | [Hl ->]];
    cbn [fst snd children set_children]; [reflexivity|].
  now apply lookup_appended.
Qed.

(** X1.  After [ensure_child] the name is a key of the node and holds the
    returned child; every other key holds what it held before; and when the
    name was not a key, the child is a fresh node of the asked kind with a
    count of 0 and no children, added after all existing entries. *)
Theorem ensure_child_inserts (self : TokenNode) (nm : string) (dir : bool) :
  lookup nm (children (fst (ensure_child self nm dir)))
  = Some (snd (ensure_child self nm dir))
  /\ (forall k, k <> nm ->
                lookup k (children (fst (ensure_child self nm dir)))
                = lookup k (children self))
  /\ (lookup nm (children self) = None ->
      ensure_child self nm dir
      = (mkNode (name self) (is_dir self) (tokens self)
           (children self ++ [(nm, mkNode nm dir 0 [])]),
         mkNode nm dir 0 [])).
Proof.
  split; [apply ensure_child_lookup_same|]. split.
  - intros k Hk. now apply ensure_child_lookup_other.
  - intros Hl. unfold ensure_child. now rewrite Hl.
Qed.

(** X2.  A second [ensure_child] for the same name, with either flag,
    returns the child of the first call and changes nothing. *)
Theorem ensure_child_twice (self : TokenNode) (nm : string) (dir dir' : bool) :
  ensure_child (fst (ensure_child self nm dir)) nm dir'
  = (fst (ensure_child self nm dir), snd (ensure_child self nm dir)).
Proof.
  unfold ensure_child at 1. now rewrite ensure_child_lookup_same.
Qed.

(** ** What aggregation changes and what it counts *)

Lemma top_files_unfold nm dir tok cs :
  top_files (mkNode nm dir tok cs)
  = if negb dir then [mkNode nm dir tok cs] else flat_map top_files (values cs).
Proof.
  cbn [top_files]. destruct dir; cbn [negb]; [|reflexivity].
  induction cs as [|[k c] rest IH]; [reflexivity|].
  cbn [values map snd flat_map]. now rewrite IH.
Qed.

Lemma aggregate_sums_top_files t : snd (aggregate t) = sum (map tokens (top_files t)).
Proof.
  induction t as [nm dir tok cs IH] using TokenNode_induction.
  rewrite aggregate_unfold, top_files_unfold. destruct dir; cbn [negb snd].
  - rewrite flat_map_concat_map, concat_map, <- flat_map_concat_map, sum_flat_map.
    f_equal. unfold values. rewrite !map_map. apply map_ext_Forall.
    eapply Forall_impl; [|exact IH]. intros kc Hkc. unfold returned.
    exact Hkc.
  - cbn [map tokens]. rewrite sum_cons. unfold sum. cbn [fold_left]. lia.
Qed.

Lemma aggregate_top_files t : top_files (fst (aggregate t)) = top_files t.
Proof.
  induction t as [nm dir tok cs IH] using TokenNode_induction.
  rewrite aggregate_unfold. destruct dir; cbn [negb fst]; [|reflexivity].
  rewrite !top_files_unfold, values_aggregated. cbn [negb].
  rewrite flat_map_concat_map, map_map, <- flat_map_concat_map.
  apply flat_map_ext_Forall. unfold values. rewrite Forall_map. exact IH.
Qed.

Lemma aggregate_shapes t :
  map shape (nodes (fst (aggregate t))) = map shape (nodes t).
Proof.
  induction t as [nm dir tok cs IH] using TokenNode_induction.
  rewrite aggregate_unfold. destruct dir; cbn [negb fst]; [|reflexivity].
  rewrite !nodes_unfold, values_aggregated. cbn [map]. f_equal.
  - unfold shape. cbn [name is_dir children]. f_equal.
    unfold keys, aggregated. now rewrite map_map.
  - rewrite !flat_map_concat_map, !concat_map, !map_map. f_equal.
    unfold values. rewrite !map_map. apply map_ext_Forall. exact IH.
Qed.

(** X3.  Aggregation changes counts of directories only: the file nodes of
    the tree are the same nodes afterwards, and the nodes of the tree keep
    their names, kinds and keys, in the same order. *)
Theorem aggregate_changes_directory_counts_only (t : TokenNode) :
  file_nodes (fst (aggregate t)) = file_nodes t
  /\ map shape (nodes (fst (aggregate t))) = map shape (nodes t).
Proof. split; [apply aggregate_file_nodes|apply aggregate_shapes]. Qed.

(** X4.  On every tree, [aggregate] returns the sum of the counts of the
    file nodes it reaches through directory nodes; a node below a file node
    is not counted, and a file node holding children does not get a new
    count. *)
Theorem aggregate_counts_reached_files (t : TokenNode) :
  snd (aggregate t) = sum (map tokens (top_files t))
  /\ tokens (fst (aggregate t)) = sum (map tokens (top_files t))
  /\ top_files (fst (aggregate t)) = top_files t.
Proof.
  split; [apply aggregate_sums_top_files|]. split.
  - rewrite <- aggregate_returns_tokens. apply aggregate_sums_top_files.
  - apply aggregate_top_files.
Qed.

Lemma sum_nonneg_bound (l : list Z) :
  Forall (fun x => 0 <= x) l -> 0 <= sum l /\ Forall (fun x => x <= sum l) l.
Proof.
  induction 1 as [|x l Hx Hl [IH0 IH]]; [split; [unfold sum; cbn; lia|constructor]|].
  rewrite sum_cons. split; [lia|]. constructor; [lia|].
  eapply Forall_impl; [|exact IH]. cbn. intros y Hy. lia.
Qed.

(** X5.  When no reached file has a negative count, the count of the root
    after aggregation is not negative and no reached file has a larger
    count: the ratio [main] computes for such a file is at most 1. *)
Theorem aggregate_bounds_files (t : TokenNode) :
  Forall (fun f => 0 <= tokens f) (top_files t) ->
  0 <= tokens (fst (aggregate t))
  /\ Forall (fun f => 0 <= tokens f <= tokens (fst (aggregate t)))
       (top_files (fst (aggregate t))).
Proof.
  intros Hnn. rewrite aggregate_top_files, <- aggregate_returns_tokens,
    aggregate_sums_top_files.
  assert (H : Forall (fun x => 0 <= x) (map tokens (top_files t)))
    by now rewrite Forall_map.
  destruct (sum_nonneg_bound _ H) as [H0 Hb]. split; [exact H0|].
  rewrite Forall_map in Hb. rewrite Forall_forall in Hnn, Hb |- *.
  intros f Hf. split; [now apply Hnn|now apply Hb].
Qed.

Lemma aggregate_bounds_files_witness :
  Forall (fun f => 0 <= tokens f) (top_files sample_tree)
  /\ 0 <= tokens (fst (aggregate sample_tree))
  /\ Forall (fun f => 0 <= tokens f <= tokens (fst (aggregate sample_tree)))
       (top_files (fst (aggregate sample_tree))).
Proof.
  assert (H : Forall (fun f => 0 <= tokens f) (top_files sample_tree))
    by (repeat constructor; simpl; lia).
  split; [exact H|]. exact (aggregate_bounds_files sample_tree H).
Defined.

(** ** The summary *)

Lemma top_entries_unfold nm dir tok cs parts :
  top_entries (mkNode nm dir tok cs) parts
  = if negb dir then [((parts ++ [nm])%list, tok)]
    else flat_map (fun c => top_entries c (parts ++ [nm])%list) (values cs).
Proof.
  cbn [top_entries]. destruct dir; cbn [negb]; [|reflexivity].
  induction cs as [|[k c] rest IH]; [reflexivity|].
  cbn [values map snd flat_map]. now rewrite IH.
Qed.

Lemma top_entries_tokens t parts :
  map snd (top_entries t parts) = map tokens (top_files t).
Proof.
  revert parts. induction t as [nm dir tok cs IH] using TokenNode_induction.
  intros parts. rewrite top_entries_unfold, top_files_unfold.
  destruct dir; cbn [negb]; [|reflexivity].
  rewrite !flat_map_concat_map, !concat_map, !map_map. f_equal.
  unfold values. rewrite !map_map. apply map_ext_Forall.
  eapply Forall_impl; [|exact IH]. intros kc Hkc. apply Hkc.
Qed.

(** The walk of [summarize_tree] is a left fold of [visit] over the reached
    files. *)
Lemma summarize_walk_fold t parts st :
  summarize_walk t parts st = fold_left visit (top_entries t parts) st.
Proof.
  revert parts st. induction t as [nm dir tok cs IH] using TokenNode_induction.
  intros parts st. rewrite top_entries_unfold. cbn [summarize_walk].
  destruct dir; cbn [negb]; [|reflexivity].
  revert st. induction IH as [|[k c] rest Hc _ IHrest]; intros st; [reflexivity|].
  cbn [values map snd flat_map]. rewrite fold_left_app, <- Hc. apply IHrest.
Qed.

Lemma fold_visit_count l st :
  count (fold_left visit l st) = count st + Z.of_nat (List.length l).
Proof.
  revert st. induction l as [|e l IH]; intros st; cbn [fold_left List.length];
    [lia|].
  rewrite IH. unfold visit. cbn [count max_seen].
  destruct (max_seen st <? snd e); cbn [count]; lia.
Qed.

Lemma fold_visit_max l st :
  max_seen (fold_left visit l st) = fold_left Z.max (map snd l) (max_seen st).
Proof.
  revert st. induction l as [|e l IH]; intros st; cbn [fold_left map];
    [reflexivity|].
  rewrite IH. f_equal. unfold visit. cbn [count max_seen].
  destruct (max_seen st <? snd e) eqn:E; cbn [max_seen].
  - apply Z.ltb_lt in E. lia.
  - apply Z.ltb_ge in E. lia.
Qed.

(** Either no file exceeds the maximum seen so far, or the result names the
    first file that holds the largest count. *)
Lemma fold_visit_name l st :
  (max_seen (fold_left visit l st) = max_seen st
   /\ max_name (fold_left visit l st) = max_name st
   /\ Forall (fun e => snd e <= max_seen st) l)
  \/ exists l1 e l2,
      l = (l1 ++ e :: l2)%list
      /\ max_seen (fold_left visit l st) = snd e
      /\ max_name (fold_left visit l st) = String.concat "/" (fst e)
      /\ max_seen st < snd e
      /\ Forall (fun e' => snd e' < snd e) l1
      /\ Forall (fun e' => snd e' <= snd e) l2.
Proof.
  revert st. induction l as [|e0 l IH]; intros st; cbn [fold_left].
  - left. repeat split. constructor.
  - assert (Hv : (max_seen st < snd e0
                  /\ max_seen (visit st e0) = snd e0
                  /\ max_name (visit st e0) = String.concat "/" (fst e0))
                 \/ (snd e0 <= max_seen st
                     /\ max_seen (visit st e0) = max_seen st
                     /\ max_name (visit st e0) = max_name st)).
    { unfold visit. cbn [count max_seen max_name].
      destruct (max_seen st <? snd e0) eqn:E; cbn [max_seen max_name].
      - apply Z.ltb_lt in E. left. auto.
      - apply Z.ltb_ge in E. right. auto. }
    destruct (IH (visit st e0)) as [[Hm [Hn Hall]] | [l1 [e [l2 [El [Hm [Hn [Hlt [H1 H2]]]]]]]]].
    + destruct Hv as [[Hlt [Em En]] | [Hle [Em En]]].
      * right. exists [], e0, l. cbn [app]. rewrite Hm, Hn, Em, En.
        repeat split; auto. now rewrite Em in Hall.
      * left. rewrite Hm, Hn, Em, En. repeat split.
        constructor; [exact Hle|]. now rewrite Em in Hall.
    + right. exists (e0 :: l1), e, l2. subst l. cbn [app].
      repeat split; auto.
      * destruct Hv as [[Hlt0 [Em _]] | [Hle [Em _]]]; lia.
      * constructor; [|exact H1].
        destruct Hv as [[Hlt0 [Em _]] | [Hle [Em _]]]; lia.
Qed.

(** X6.  [summarize_tree] returns the number of files reached through
    directories, the largest of their counts or 0 when none is positive, and
    the path, joined with slashes, of the first file in iteration order that
    holds that largest count; the name stays empty when no count is
    positive. *)
Theorem summarize_tree_result (t : TokenNode) :
  fst (fst (summarize_tree t)) = Z.of_nat (List.length (top_files t))
  /\ snd (fst (summarize_tree t)) = fold_left Z.max (map tokens (top_files t)) 0
  /\ ((snd (fst (summarize_tree t)) = 0 /\ snd (summarize_tree t) = ""
       /\ Forall (fun f => tokens f <= 0) (top_files t))
      \/ exists l1 e l2,
          top_entries t [] = (l1 ++ e :: l2)%list
          /\ snd (fst (summarize_tree t)) = snd e
          /\ snd (summarize_tree t) = String.concat "/" (fst e)
          /\ 0 < snd e
          /\ Forall (fun e' => snd e' < snd e) l1
          /\ Forall (fun e' => snd e' <= snd e) l2).
Proof.
  unfold summarize_tree. cbn [fst snd]. rewrite summarize_walk_fold.
  split; [|split].
  - rewrite fold_visit_count. cbn [count].
    rewrite <- (length_map snd), top_entries_tokens, length_map. lia.
  - rewrite fold_visit_max, top_entries_tokens. reflexivity.
  - destruct (fold_visit_name (top_entries t []) (mkSummary 0 0 ""))
      as [[Hm [Hn Hall]] | H]; [left|right; exact H].
    cbn [max_seen max_name] in *. repeat split; auto.
    assert (H : Forall (fun x => x <= 0) (map snd (top_entries t [])))
      by (apply Forall_map; exact Hall).
    rewrite top_entries_tokens in H.
    exact (proj1 (Forall_map tokens (fun x => x <= 0) (top_files t)) H).
Qed.

Lemma aggregate_top_entries t parts :
  top_entries (fst (aggregate t)) parts = top_entries t parts.
Proof.
  revert parts. induction t as [nm dir tok cs IH] using TokenNode_induction.
  intros parts. rewrite aggregate_unfold. destruct dir; cbn [negb fst]; [|reflexivity].
  rewrite !top_entries_unfold, values_aggregated. cbn [negb].
  rewrite flat_map_concat_map, map_map, <- flat_map_concat_map.
  apply flat_map_ext_Forall. unfold values. rewrite Forall_map.
  eapply Forall_impl; [|exact IH]. intros kc Hkc. apply Hkc.
Qed.

Lemma fold_max_bounds (l : list Z) (a b : Z) :
  0 <= a <= b -> Forall (fun x => x <= b) l -> 0 <= fold_left Z.max l a <= b.
Proof.
  intros Ha Hl. revert a Ha. induction Hl as [|x l Hx _ IH]; intros a Ha;
    cbn [fold_left]; [exact Ha|].
  apply IH. lia.
Qed.

(** X7.  Aggregation does not change what [summarize_tree] returns, and
    when no reached file has a negative count the largest file count it
    returns is at most the count of the aggregated root, the value [main]
    scales the bars by. *)
Theorem summarize_tree_below_total (t : TokenNode) :
  Forall (fun f => 0 <= tokens f) (top_files t) ->
  summarize_tree (fst (aggregate t)) = summarize_tree t
  /\ 0 <= snd (fst (summarize_tree t)) <= tokens (fst (aggregate t)).
Proof.
  intros Hnn. split.
  - unfold summarize_tree. now rewrite !summarize_walk_fold, aggregate_top_entries.
  - unfold summarize_tree. cbn [fst snd].
    rewrite summarize_walk_fold, fold_visit_max, top_entries_tokens. cbn [max_seen].
    rewrite <- aggregate_returns_tokens, aggregate_sums_top_files.
    assert (H : Forall (fun x => 0 <= x) (map tokens (top_files t)))
      by now rewrite Forall_map.
    destruct (sum_nonneg_bound _ H) as [H0 Hb].
    apply fold_max_bounds; [lia|exact Hb].
Qed.

Lemma summarize_tree_below_total_witness :
  Forall (fun f => 0 <= tokens f) (top_files sample_tree)
  /\ summarize_tree (fst (aggregate sample_tree)) = summarize_tree sample_tree
  /\ 0 <= snd (fst (summarize_tree sample_tree))
     <= tokens (fst (aggregate sample_tree)).
Proof.
  assert (H : Forall (fun f => 0 <= tokens f) (top_files sample_tree))
    by (repeat constructor; simpl; lia).
  split; [exact H|]. exact (summarize_tree_below_total sample_tree H).
Defined.

(** ** The builder *)

Lemma build_loop_root files root skipped r :
  build_loop files root skipped = Ok r ->
  name (fst r) = name root /\ is_dir (fst r) = is_dir root
  /\ snd r = (skipped ++ filter uncounted files)%list.
Proof.
  revert root skipped. induction files as [|f rest IH]; intros root skipped;
    cbn [build_loop filter].
  - intros [= <-]. cbn [fst snd]. now rewrite app_nil_r.
  - unfold uncounted at 1. destruct (counted f) as [tok|].
    + destruct (split_last (rel_parts f)) as [[dirs last]|e]; cbn [bind fst snd];
        [|discriminate].
      intros H. apply IH in H as [Hn [Hd Hs]].
      now rewrite add_file_name in Hn; rewrite add_file_is_dir in Hd.
    + intros H. apply IH in H as [Hn [Hd Hs]].
      rewrite <- app_assoc in Hs. auto.
Qed.

(** X8.  When the builder returns, the root of the tree is a directory with
    the name given, no two siblings anywhere in the tree share a name, and
    the second component is the number of files that were skipped. *)
Theorem build_token_tree_root (root_name : string) (files : list file_in)
  (t : TokenNode) (k : Z) :
  build_token_tree root_name files = Ok (t, k) ->
  name t = root_name /\ is_dir t = true
  /\ distinct_names t = true
  /\ k = Z.of_nat (List.length (filter uncounted files)).
Proof.
  intros H. pose proof (build_token_tree_distinct_names _ _ _ _ H) as Hd.
  unfold build_token_tree in H.
  destruct (build_loop files (mkNode root_name true 0 []) []) as [r|e] eqn:E;
    cbn [bind] in H; [|discriminate].
  injection H as <- <-. apply build_loop_root in E as [Hn [Hdir Hs]].
  rewrite aggregate_name, aggregate_is_dir, Hs. auto.
Qed.

Lemma build_token_tree_root_witness :
  build_token_tree "repo" scenario
  = Ok (fst (aggregate sample_tree), 0)
  /\ name (fst (aggregate sample_tree)) = "repo"
  /\ is_dir (fst (aggregate sample_tree)) = true
  /\ distinct_names (fst (aggregate sample_tree)) = true
  /\ 0 = Z.of_nat (List.length (filter uncounted scenario)).
Proof.
  assert (H : build_token_tree "repo" scenario = Ok (fst (aggregate sample_tree), 0))
    by (vm_compute; reflexivity).
  split; [exact H|]. exact (build_token_tree_root "repo" scenario _ 0 H).
Defined.

Lemma store_store k c1 c2 cs : store k c2 (store k c1 cs) = store k c2 cs.
Proof.
  induction cs as [|[k' c'] rest IH]; cbn [store]; [reflexivity|].
  destruct (String.eqb k k') eqn:E; cbn [store]; rewrite E; [reflexivity|].
  now rewrite IH.
Qed.

Lemma descend_leaf path nm dir tok :
  path <> [] -> descend path (mkNode nm dir tok []) = None.
Proof. destruct path; [congruence|reflexivity]. Qed.

(** The node [add_file] leaves at the end of the path: the node that was
    there with its count replaced, or a fresh file node. *)
Lemma add_file_descend dirs last tok node :
  descend (dirs ++ [last]) (add_file dirs last tok node)
  = Some (set_tokens
            match descend (dirs ++ [last]) node with
            | Some old => old
            | None => mkNode last false 0 []
            end tok).
Proof.
  revert node. induction dirs as [|part dirs' IH]; intros node;
    cbn [add_file app descend].
  - destruct (ensure_child_cases node last false) as [[c [Hl ->]] | [Hl ->]];
      cbn [children set_children]; rewrite Hl.
    + now rewrite (lookup_store_same last _ c _ Hl).
    + rewrite (lookup_store_same last _ (mkNode last false 0 [])); [reflexivity|].
      rewrite lookup_app, Hl. cbn [lookup]. now rewrite String.eqb_refl.
  - destruct (ensure_child_cases node part true) as [[c [Hl ->]] | [Hl ->]];
      cbn [children set_children]; rewrite Hl.
    + rewrite (lookup_store_same part _ c _ Hl). apply IH.
    + rewrite (lookup_store_same part _ (mkNode part true 0 [])).
      2:{ rewrite lookup_app, Hl. cbn [lookup]. now rewrite String.eqb_refl. }
      rewrite IH, descend_leaf; [reflexivity|]. now destruct dirs'.
Qed.

(** X9.  After the path walk for a file, following the parts of its path
    from the node leads to a node that carries the count of the file: the
    node that was already at that path, of whatever kind, with its count
    replaced and its children kept, or else a new file node without
    children. *)
Theorem add_file_then_descend (dirs : list string) (last : string) (tok : Z)
  (node : TokenNode) :
  exists n,
    descend (dirs ++ [last]) (add_file dirs last tok node) = Some n
    /\ tokens n = tok
    /\ match descend (dirs ++ [last]) node with
       | Some old =>
           name n = name old /\ is_dir n = is_dir old /\ children n = children old
       | None => n = mkNode last false tok []
       end.
Proof.
  eexists. split; [apply add_file_descend|].
  destruct (descend (dirs ++ [last]) node) as [old|]; cbn; auto.
Qed.

Lemma add_file_again dirs last t1 t2 node :
  add_file dirs last t2 (add_file dirs last t1 node) = add_file dirs last t2 node.
Proof.
  revert node. induction dirs as [|part dirs' IH]; intros node; cbn [add_file].
  - pose proof (ensure_child_lookup_same node last false) as Hl.
    destruct (ensure_child node last false) as [node' f]. cbn [fst snd] in Hl.
    unfold ensure_child. cbn [children set_children].
    rewrite (lookup_store_same last _ f _ Hl).
    unfold set_children, set_tokens. cbn [name is_dir tokens children].
    now rewrite store_store.
  - pose proof (ensure_child_lookup_same node part true) as Hl.
    destruct (ensure_child node part true) as [node' child]. cbn [fst snd] in Hl.
    unfold ensure_child. cbn [children set_children].
    rewrite (lookup_store_same part _ child _ Hl).
    unfold set_children. cbn [name is_dir tokens children].
    now rewrite store_store, IH.
Qed.

(** X10.  A path given twice is counted once, with the later count: adding
    the same path again with another count gives the tree that adding it
    with that count alone gives. *)
Theorem add_file_overwrites (dirs : list string) (last : string) (t1 t2 : Z)
  (node : TokenNode) :
  add_file dirs last t2 (add_file dirs last t1 node) = add_file dirs last t2 node.
Proof. apply add_file_again. Qed.

(** ** The rows of the table *)

Lemma row_of_shows max_tokens bar_width n prefix is_last depth r :
  row_of max_tokens bar_width n prefix is_last depth = Ok r -> shows n r.
Proof.
  unfold row_of, shows.
  destruct (format_tokens (tokens n)) as [s|e]; cbn [bind]; [|discriminate].
  destruct (bar_and_percent max_tokens bar_width n) as [bp|e] eqn:Eb; cbn [bind];
    [|discriminate].
  intros [= <-]. cbn [tokens_cell name_cell bar_cell percent_cell].
  unfold bar_and_percent in Eb.
  destruct (is_dir n); cbn [negb] in *.
  - injection Eb as <-. split; [eauto|]. split; [eauto|]. split; reflexivity.
  - split; [eauto|]. split; [eauto|].
    destruct (ratio_of max_tokens (tokens n)) as [ratio|e]; cbn [bind] in Eb;
      [|discriminate].
    destruct (filled_of bar_width (tokens n) ratio) as [filled|e]; cbn [bind] in Eb;
      [|discriminate].
    destruct (times ratio 100) as [p|e]; cbn [bind] in Eb; [|discriminate].
    destruct (format_number 0 p) as [txt|e]; cbn [bind] in Eb; [|discriminate].
    injection Eb as <-. cbn [fst]. eauto.
Qed.

Lemma walk_each_shows max_tokens bar_width l :
  Forall (fun c => forall prefix is_last depth rs,
              walk max_tokens bar_width c prefix is_last depth = Ok rs ->
              exists ns, Permutation ns (nodes c) /\ Forall2 shows ns rs) l ->
  forall prefix depth rs,
    walk_each (walk max_tokens bar_width) l prefix depth = Ok rs ->
    exists ns, Permutation ns (flat_map nodes l) /\ Forall2 shows ns rs.
Proof.
  induction 1 as [|c l Hc _ IH]; intros prefix depth rs; cbn [walk_each flat_map].
  - intros [= <-]. exists []. split; constructor.
  - destruct (walk max_tokens bar_width c prefix
                match l with [] => true | _ :: _ => false end depth) as [r|e] eqn:Ec;
      cbn [bind]; [|discriminate].
    destruct (walk_each (walk max_tokens bar_width) l prefix depth) as [rs'|e] eqn:El;
      cbn [bind]; [|discriminate].
    intros [= <-].
    destruct (Hc _ _ _ _ Ec) as [n1 [P1 F1]].
    destruct (IH _ _ _ El) as [n2 [P2 F2]].
    exists (n1 ++ n2)%list. split; [now apply Permutation_app|now apply Forall2_app].
Qed.

Lemma ordered_perm cs : Permutation (ordered cs) (values cs).
Proof.
  destruct (display_order_spec (values cs)) as [dirs [files [E [_ [_ [_ [_ Hp]]]]]]].
  unfold ordered. now rewrite E.
Qed.

Lemma walk_shows max_tokens bar_width t prefix is_last depth rs :
  walk max_tokens bar_width t prefix is_last depth = Ok rs ->
  exists rest,
    Permutation (t :: rest) (nodes t) /\ Forall2 shows (t :: rest) rs.
Proof.
  revert prefix is_last depth rs.
  induction t as [nm dir tok cs IH] using TokenNode_induction.
  intros prefix is_last depth rs. rewrite walk_unfold.
  destruct (row_of max_tokens bar_width (mkNode nm dir tok cs) prefix is_last depth)
    as [r|e] eqn:Er; cbn [bind]; [|discriminate].
  destruct (walk_each (walk max_tokens bar_width) (ordered cs)
              (next_prefix_of prefix is_last) (depth + 1)) as [rs'|e] eqn:Ew;
    cbn [bind]; [|discriminate].
  intros [= <-].
  assert (Hall : Forall (fun c => forall prefix is_last depth rs,
              walk max_tokens bar_width c prefix is_last depth = Ok rs ->
              exists ns, Permutation ns (nodes c) /\ Forall2 shows ns rs) (ordered cs)).
  { rewrite Forall_forall. intros c Hc.
    apply (Permutation_in _ (ordered_perm cs)) in Hc.
    unfold values in Hc. apply in_map_iff in Hc as [kc [<- Hkc]].
    rewrite Forall_forall in IH. intros p il d rs0 H0.
    destruct (IH kc Hkc p il d rs0 H0) as [rest [Hp Hf]]. eauto. }
  destruct (walk_each_shows _ _ _ Hall _ _ _ Ew) as [ns [Hp Hf]].
  exists ns. split.
  - rewrite nodes_unfold. constructor.
    rewrite Hp. apply Permutation_flat_map, ordered_perm.
  - constructor; [|exact Hf]. exact (row_of_shows _ _ _ _ _ _ _ Er).
Qed.

(** X11.  When [render_tree_lines] returns, the table has one row for
    every node of the tree and no other row, the first one for the root.
    The row of a node carries the count of the node as [format_tokens]
    writes it, in blue for a directory and in green for a file, and the
    name of the node, in bold for a directory; a directory has no bar and
    no percentage, a file has a bar.  The columns get the widths given. *)
Theorem render_tree_lines_rows (t : TokenNode) (max_tokens bar_width max_token_len : Z)
  (tb : Table) :
  render_tree_lines t max_tokens bar_width max_token_len = Ok tb ->
  tokens_min_width tb = max_token_len
  /\ bar_min_width tb = bar_width /\ bar_max_width tb = bar_width
  /\ exists rest,
      Permutation (t :: rest) (nodes t) /\ Forall2 shows (t :: rest) (rows tb).
Proof.
  unfold render_tree_lines.
  destruct (walk max_tokens bar_width t "" true 0) as [rs|e] eqn:Ew; cbn [bind];
    [|discriminate].
  intros [= <-]. cbn [tokens_min_width bar_min_width bar_max_width rows].
  repeat split. exact (walk_shows _ _ _ _ _ _ _ Ew).
Qed.

Lemma render_tree_lines_rows_witness :
  exists tb,
    render_tree_lines (fst (aggregate sample_tree)) 500 24 3 = Ok tb
    /\ tokens_min_width tb = 3
    /\ bar_min_width tb = 24 /\ bar_max_width tb = 24
    /\ exists rest,
        Permutation (fst (aggregate sample_tree) :: rest)
          (nodes (fst (aggregate sample_tree)))
        /\ Forall2 shows (fst (aggregate sample_tree) :: rest) (rows tb).
Proof.
  eexists. split; [vm_compute; reflexivity|].
  apply (render_tree_lines_rows (fst (aggregate sample_tree)) 500 24 3).
  vm_compute. reflexivity.
Defined.

(** ** The width of the count column *)

Lemma collect_ok {A B : Type} (f : A -> outcome B) (l : list A) (ys : list B) :
  collect f l = Ok ys -> Forall2 (fun a y => f a = Ok y) l ys.
Proof.
  revert ys. induction l as [|a l IH]; intros ys; cbn [collect].
  - intros [= <-]. constructor.
  - destruct (f a) as [y|e] eqn:Ea; cbn [bind]; [|discriminate].
    destruct (collect f l) as [ys'|e]; cbn [bind]; [|discriminate].
    intros [= <-]. constructor; [exact Ea|now apply IH].
Qed.

Lemma maximum_ge x l : x <= maximum x l /\ Forall (fun y => y <= maximum x l) l.
Proof.
  unfold maximum. revert x. induction l as [|y l IH]; intros x; cbn [fold_left].
  - split; [lia|constructor].
  - destruct (IH (Z.max x y)) as [H1 H2]. split; [lia|].
    constructor; [lia|exact H2].
Qed.

Lemma maximum_in x l : maximum x l = x \/ In (maximum x l) l.
Proof.
  unfold maximum. revert x. induction l as [|y l IH]; intros x; cbn [fold_left].
  - now left.
  - destruct (IH (Z.max x y)) as [H|H].
    + rewrite H. destruct (Z.max_spec x y) as [[_ ->]|[_ ->]]; [right; now left|now left].
    + right. now right.
Qed.

Lemma max_token_text_len_bounds (t : TokenNode) (w : Z) :
  max_token_text_len t = Ok w ->
  Forall (fun n => exists s, format_tokens (tokens n) = Ok s /\ len s <= w) (nodes t)
  /\ Exists (fun n => exists s, format_tokens (tokens n) = Ok s /\ len s = w) (nodes t).
Proof.
  revert w. induction t as [nm dir tok cs IH] using TokenNode_induction.
  intros w. rewrite max_token_text_len_unfold, nodes_unfold.
  destruct (format_tokens tok) as [s|e] eqn:Es; cbn [bind]; [|discriminate].
  destruct (collect max_token_text_len (values cs)) as [ws|e] eqn:Ec; cbn [bind];
    [|discriminate].
  intros [= <-]. apply collect_ok in Ec.
  destruct (maximum_ge (len s) ws) as [Hs Hws].
  assert (IH' : Forall (fun c => forall w, max_token_text_len c = Ok w ->
       Forall (fun n => exists s, format_tokens (tokens n) = Ok s /\ len s <= w) (nodes c)
       /\ Exists (fun n => exists s, format_tokens (tokens n) = Ok s /\ len s = w)
            (nodes c)) (values cs)).
  { unfold values. rewrite Forall_map. exact IH. }
  clear IH. split.
  - constructor; [exists s; cbn [tokens]; auto|].
    clear Hs. revert Hws IH'. generalize (maximum (len s) ws). intros m.
    induction Ec as [|c w' l ws' Hc _ IHl]; intros Hws IH'; cbn [flat_map];
      [constructor|].
    inversion IH' as [|? ? Hc' Hl']; subst. inversion Hws as [|? ? Hw' Hws']; subst.
    apply Forall_app. split; [|now apply IHl].
    destruct (Hc' _ Hc) as [Hall _]. eapply Forall_impl; [|exact Hall].
    cbn beta. intros n [s' [E1 E2]]. exists s'. split; [exact E1|lia].
  - destruct (maximum_in (len s) ws) as [E|Hin].
    + apply Exists_cons_hd. exists s. cbn [tokens]. auto.
    + apply Exists_cons_tl. clear Hs Hws. revert Hin IH'.
      generalize (maximum (len s) ws). intros m.
      induction Ec as [|c w' l ws' Hc _ IHl]; intros Hin IH'; [destruct Hin|].
      inversion IH' as [|? ? Hc' Hl']; subst. cbn [flat_map]. apply Exists_app.
      destruct Hin as [-> | Hin]; [left|right; now apply IHl].
      exact (proj2 (Hc' _ Hc)).
Qed.

(** X12.  When [max_token_text_len] returns, the width it gives is the
    length of the longest count text in the tree: no node has a longer
    text, and some node has a text of exactly that length. *)
Theorem max_token_text_len_is_maximum (t : TokenNode) (w : Z) :
  max_token_text_len t = Ok w ->
  Forall (fun n => exists s, format_tokens (tokens n) = Ok s /\ len s <= w) (nodes t)
  /\ Exists (fun n => exists s, format_tokens (tokens n) = Ok s /\ len s = w) (nodes t).
Proof. apply max_token_text_len_bounds. Qed.

Lemma max_token_text_len_is_maximum_witness :
  max_token_text_len (fst (aggregate sample_tree)) = Ok 3
  /\ Forall (fun n => exists s, format_tokens (tokens n) = Ok s /\ len s <= 3)
       (nodes (fst (aggregate sample_tree)))
  /\ Exists (fun n => exists s, format_tokens (tokens n) = Ok s /\ len s = 3)
       (nodes (fst (aggregate sample_tree))).
Proof.
  assert (H : max_token_text_len (fst (aggregate sample_tree)) = Ok 3)
    by (vm_compute; reflexivity).
  split; [exact H|]. exact (max_token_text_len_is_maximum _ 3 H).
Defined.

(** ** The exceptions of the renderer *)

Lemma float_of_int_raise n e : float_of_int n = Raise e -> e = OverflowError.
Proof.
  unfold float_of_int. destruct (n =? 0); [discriminate|].
  destruct (round_frac (Z.abs n) 1) as [m ex].
  destruct (overflows m ex); [|discriminate]. now intros [= <-].
Qed.

Lemma times_raise x k e : times x k = Raise e -> e = OverflowError.
Proof.
  destruct x as [z|[f|s]]; cbn [times]; [discriminate| |];
    destruct (float_of_int k) as [y|e'] eqn:E; cbn [bind]; try discriminate;
    intros [= <-]; exact (float_of_int_raise _ _ E).
Qed.

Lemma int_of_raise x e : int_of x = Raise e -> e = OverflowError.
Proof. destruct x as [z|[f|s]]; cbn [int_of]; try discriminate. now intros [= <-]. Qed.

Lemma format_number_raise k x e : format_number k x = Raise e -> e = OverflowError.
Proof.
  destruct x as [z|v]; cbn [format_number]; [|discriminate].
  destruct (float_of_int z) as [y|e'] eqn:E; cbn [bind]; [discriminate|].
  intros [= <-]. exact (float_of_int_raise _ _ E).
Qed.

Lemma ratio_of_raise max_tokens tok e :
  ratio_of max_tokens tok = Raise e -> e = OverflowError.
Proof.
  unfold ratio_of. destruct (max_tokens =? 0) eqn:E0; [discriminate|].
  destruct (true_div tok max_tokens) as [x|e'] eqn:E; cbn [bind]; [discriminate|].
  intros [= <-]. apply Z.eqb_neq in E0. exact (true_div_raise _ _ _ E0 E).
Qed.

Lemma bar_and_percent_raise max_tokens bar_width n e :
  bar_and_percent max_tokens bar_width n = Raise e -> e = OverflowError.
Proof.
  unfold bar_and_percent, filled_of. destruct (negb (is_dir n)); [|discriminate].
  destruct (ratio_of max_tokens (tokens n)) as [ratio|e'] eqn:Er; cbn [bind].
  2:{ intros [= <-]. exact (ratio_of_raise _ _ _ Er). }
  destruct (times ratio bar_width) as [p|e'] eqn:Ep; cbn [bind].
  2:{ intros [= <-]. exact (times_raise _ _ _ Ep). }
  destruct (int_of p) as [i|e'] eqn:Ei; cbn [bind].
  2:{ intros [= <-]. exact (int_of_raise _ _ Ei). }
  destruct (times ratio 100) as [q|e'] eqn:Eq; cbn [bind].
  2:{ intros [= <-]. exact (times_raise _ _ _ Eq). }
  destruct (format_number 0 q) as [txt|e'] eqn:Et; cbn [bind]; [discriminate|].
  intros [= <-]. exact (format_number_raise _ _ _ Et).
Qed.

Lemma row_of_raise max_tokens bar_width n prefix is_last depth e :
  row_of max_tokens bar_width n prefix is_last depth = Raise e -> e = OverflowError.
Proof.
  unfold row_of.
  destruct (format_tokens (tokens n)) as [s|e'] eqn:Es; cbn [bind].
  2:{ intros [= <-]. exact (format_tokens_raise _ _ Es). }
  destruct (bar_and_percent max_tokens bar_width n) as [bp|e'] eqn:Eb; cbn [bind];
    [discriminate|].
  intros [= <-]. exact (bar_and_percent_raise _ _ _ _ Eb).
Qed.

Lemma walk_each_raise max_tokens bar_width l :
  Forall (fun c => forall prefix is_last depth e,
              walk max_tokens bar_width c prefix is_last depth = Raise e ->
              e = OverflowError) l ->
  forall prefix depth e,
    walk_each (walk max_tokens bar_width) l prefix depth = Raise e ->
    e = OverflowError.
Proof.
  induction 1 as [|c l Hc _ IH]; intros prefix depth e; cbn [walk_each];
    [discriminate|].
  destruct (walk max_tokens bar_width c prefix
              match l with [] => true | _ :: _ => false end depth) as [r|e'] eqn:Ec;
    cbn [bind].
  2:{ intros [= <-]. exact (Hc _ _ _ _ Ec). }
  destruct (walk_each (walk max_tokens bar_width) l prefix depth) as [rs|e'] eqn:El;
    cbn [bind]; [discriminate|].
  intros [= <-]. exact (IH _ _ _ El).
Qed.

Lemma walk_raise max_tokens bar_width t prefix is_last depth e :
  walk max_tokens bar_width t prefix is_last depth = Raise e -> e = OverflowError.
Proof.
  revert prefix is_last depth e.
  induction t as [nm dir tok cs IH] using TokenNode_induction.
  intros prefix is_last depth e. rewrite walk_unfold.
  destruct (row_of max_tokens bar_width (mkNode nm dir tok cs) prefix is_last depth)
    as [r|e'] eqn:Er; cbn [bind].
  2:{ intros [= <-]. exact (row_of_raise _ _ _ _ _ _ _ Er). }
  destruct (walk_each (walk max_tokens bar_width) (ordered cs)
              (next_prefix_of prefix is_last) (depth + 1)) as [rs|e'] eqn:Ew;
    cbn [bind]; [discriminate|].
  intros [= <-]. revert Ew. apply walk_each_raise.
  rewrite Forall_forall. intros c Hc.
  apply (Permutation_in _ (ordered_perm cs)) in Hc.
  unfold values in Hc. apply in_map_iff in Hc as [kc [<- Hkc]].
  rewrite Forall_forall in IH. exact (IH kc Hkc).
Qed.

(** ** A run without a counted file *)

Lemma build_loop_uncounted files root skipped :
  forallb uncounted files = true ->
  build_loop files root skipped = Ok (root, (skipped ++ files)%list).
Proof.
  revert skipped. induction files as [|f rest IH]; intros skipped;
    cbn [build_loop forallb].
  - now rewrite app_nil_r.
  - unfold uncounted at 1. destruct (counted f); [discriminate|].
    cbn [andb]. intros H. rewrite (IH _ H), <- app_assoc. reflexivity.
Qed.

(** X15.  When every file is skipped, and so when there is no file at all,
    [main] prints a single row, the root as a directory with the count 0 and
    neither bar nor percentage, for any bar width, and reports all the
    files as skipped. *)
Theorem main_nothing_counted (root_name : string) (files : list file_in)
  (bar_width : Z) :
  forallb uncounted files = true ->
  main root_name files bar_width
  = Ok (root_only root_name bar_width, Z.of_nat (List.length files)).
Proof.
  intros H. unfold main, build_token_tree.
  rewrite (build_loop_uncounted _ _ _ H). reflexivity.
Qed.

Lemma main_nothing_counted_witness :
  forallb uncounted [mkFile ["logo.png"] None] = true
  /\ main "repo" [mkFile ["logo.png"] None] 24 = Ok (root_only "repo" 24, 1).
Proof.
  split; [reflexivity|].
  exact (main_nothing_counted "repo" [mkFile ["logo.png"] None] 24 eq_refl).
Defined.

(** ** The bar and the percentage of a file *)

Lemma u53_scale44 : (u53 * bpow 44 = 1 / 512)%R.
Proof.
  unfold u53. rewrite <- bpow_add. replace (-53 + 44)%Z with (Z.opp 9) by lia.
  rewrite bpow_opp, <- bpow_IZR by lia. replace (IZR (2 ^ 9)) with 512%R by reflexivity.
  lra.
Qed.

(** The [.0f] text of a float that is not negative: the digits of an
    integer nearest to its value. *)
Lemma format_f_whole x :
  nonneg x ->
  exists q,
    format_f 0 (Finite x) = str q
    /\ (B2R x - 1 / 2 <= IZR q <= B2R x + 1 / 2)%R.
Proof.
  intros Nx. rewrite (B2R_nonneg _ Nx). destruct Nx as [Sx Mx].
  unfold format_f. rewrite Sx. change (10 ^ Z.of_nat 0) with 1.
  destruct (scale2 (f_man x * 1) 1 (- f_exp x)) as [a b] eqn:Es.
  destruct (scale2_spec (f_man x * 1) 1 (- f_exp x) a b ltac:(lia) Es) as [Hb [Eq _]].
  exists (round_half_even a b). split; [now rewrite Z.div_1_r|].
  pose proof (nearest_even_real _ _ _ Hb (round_half_even_spec a b Hb)) as H.
  rewrite Eq, Z.mul_1_r in H. replace (- - f_exp x) with (f_exp x) in H by lia.
  unfold F2R. replace (IZR (f_man x) / 1)%R with (IZR (f_man x)) in H by field.
  exact H.
Qed.

Lemma bar_and_percent_value max_tokens bar_width n :
  is_dir n = false ->
  0 <= tokens n <= max_tokens -> max_tokens < 2 ^ 53 -> 0 < bar_width < 2 ^ 53 ->
  exists filled pct,
    bar_and_percent max_tokens bar_width n
    = Ok (Rich [(repeat "█" filled ++ repeat "░" (bar_width - filled), Some magenta)],
          pad_left 3 (str pct) ++ "%")
    /\ 0 <= filled <= bar_width
    /\ (0 < tokens n -> 1 <= filled)
    /\ (tokens n = 0 -> filled = 0 /\ pct = 0)
    /\ 0 <= pct <= 100
    /\ (max_tokens < 2 ^ 44 ->
        2 * Z.abs (pct * max_tokens - 100 * tokens n) <= max_tokens).
Proof.
  intros Hfile Ht Hm Hw. unfold bar_and_percent, ratio_of, filled_of.
  rewrite Hfile. cbn [negb]. set (tok := tokens n) in *.
  destruct (float_of_int_small bar_width Hw) as [y [Ey [Ry Hy]]].
  assert (Ny : nonneg y) by (apply (rounds_nonneg y bar_width 1); [lia|lia|exact Ry]).
  destruct (float_of_int_small 100 ltac:(lia)) as [c [Ec [Rc Hc]]].
  assert (Nc : nonneg c) by (apply (rounds_nonneg c 100 1); [lia|lia|exact Rc]).
  destruct (Z.eq_dec tok 0) as [Ht0|Ht0].
  - (* no token *)
    rewrite Ht0. exists 0, 0.
    assert (Hrest : 0 <= 0 <= bar_width /\ (0 < 0 -> 1 <= 0) /\ (0 = 0 -> 0 = 0 /\ 0 = 0)
                    /\ 0 <= 0 <= 100
                    /\ (max_tokens < 2 ^ 44 ->
                        2 * Z.abs (0 * max_tokens - 100 * 0) <= max_tokens))
      by (cbn; lia).
    split; [|exact Hrest].
    destruct (max_tokens =? 0) eqn:E0.
    + cbn [bind times int_of]. rewrite Z.mul_0_l. reflexivity.
    + unfold true_div. rewrite E0.
      assert (E1 : (max_tokens <? 0) = false) by (apply Z.ltb_ge; lia). rewrite E1.
      cbn [Z.eqb Z.ltb Z.compare xorb bind times]. rewrite Ey, Ec. cbn [bind].
      rewrite !fmul_zero by reflexivity. cbn [int_of bind f_neg format_number].
      destruct Ny as [Sy _]. destruct Nc as [Sc _]. rewrite Sy, Sc. reflexivity.
  - (* some tokens *)
    assert (Hpos : 0 < tok) by lia.
    assert (E0 : (max_tokens =? 0) = false) by (apply Z.eqb_neq; lia). rewrite E0.
    assert (Rt : (1 <= IZR tok)%R) by (apply IZR_le; lia).
    assert (Rm : (1 <= IZR max_tokens)%R) by (apply IZR_le; lia).
    assert (Rtm : (IZR tok <= IZR max_tokens)%R) by (apply IZR_le; lia).
    assert (Rm53 : (IZR max_tokens < bpow 53)%R).
    { rewrite <- bpow_IZR by lia. apply IZR_lt. lia. }
    pose proof (frac_mult tok max_tokens ltac:(lia)) as Ex.
    set (x := (IZR tok / IZR max_tokens)%R) in *.
    assert (Hx1 : (x <= 1)%R).
    { apply Rmult_le_reg_r with (IZR max_tokens); [lra|]. rewrite Ex. lra. }
    destruct (true_div_pos tok max_tokens 1) as [r [-> [Rr Hr]]]; try lia.
    { exact Hx1. }
    cbn [bind times]. rewrite Ey, Ec. cbn [bind].
    assert (Nr : nonneg r)
      by (apply (rounds_nonneg r tok max_tokens); [lia|lia|exact Rr]).
    destruct (fmul_le_int r y bar_width Nr Ny Hw) as [z [Ez [Nz Hz]]].
    { rewrite Hy. pose proof (B2R_nonneg_ge _ Nr).
      assert (0 < IZR bar_width)%R by (apply IZR_lt; lia). nra. }
    destruct (fmul_le_int r c 100 Nr Nc ltac:(lia)) as [p [Ep [Np Hp]]].
    { rewrite Hc. pose proof (B2R_nonneg_ge _ Nr). lra. }
    rewrite Ez, Ep. cbn [int_of bind format_number].
    destruct (format_f_whole p Np) as [q [-> [Qlo Qhi]]].
    pose proof (B2R_nonneg_ge _ Np) as Hp0.
    assert (Hq : 0 <= q <= 100).
    { assert (H1 : (IZR (-1) < IZR q)%R) by lra.
      assert (H2 : (IZR q < IZR 101)%R) by lra.
      apply lt_IZR in H1, H2. lia. }
    exists (Z.max (if 0 <? tok then 1 else 0) (trunc z)), q.
    assert (E1 : (0 <? tok) = true) by (apply Z.ltb_lt; lia). rewrite E1.
    pose proof (trunc_le_int z bar_width Nz Hz) as Htr.
    split; [reflexivity|]. split; [lia|]. split; [lia|]. split; [lia|].
    split; [exact Hq|]. intros Hm44.
    (* the percentage is a nearest integer *)
    pose proof u53_pos as Hu. pose proof u53_small as Hu4.
    pose proof u53_scale44 as Hus.
    assert (Rm44 : (IZR max_tokens < bpow 44)%R).
    { rewrite <- bpow_IZR by lia. apply IZR_lt. lia. }
    assert (Hx0 : (0 < x)%R).
    { apply Rmult_lt_reg_r with (IZR max_tokens); [lra|]. rewrite Ex. lra. }
    assert (Hx53 : (bpow (- 53) < x)%R).
    { apply Rmult_lt_reg_r with (IZR max_tokens); [lra|]. rewrite Ex.
      assert (bpow (- 53) * bpow 53 = 1)%R by (rewrite <- bpow_add; reflexivity).
      pose proof (bpow_pos (- 53)). nra. }
    assert (Hxn : (bpow (- 1022) <= x)%R).
    { pose proof (bpow_le (- 1022) (- 53) ltac:(lia)). lra. }
    pose proof (rounds_rel_error r tok max_tokens ltac:(lia) ltac:(lia) Rr Hxn) as Herr.
    fold x in Herr. apply Rabs_within in Herr.
    assert (Hrpos : (0 < B2R r)%R) by nra.
    assert (Hpn : (bpow (- 1022) <= B2R r * B2R c)%R).
    { rewrite Hc. pose proof (bpow_le (- 1022) (- 54) ltac:(lia)).
      assert (bpow (- 54) * 2 = bpow (- 53))%R.
      { rewrite <- bpow_1, <- bpow_add. reflexivity. }
      pose proof (bpow_pos (- 54)). nra. }
    destruct (fmul_rel_error r c p Nr Nc Ep Hpn) as [_ Hperr].
    rewrite Hc in Hperr. apply Rabs_within in Hperr.
    set (P := B2R p) in *. set (X := B2R r) in *.
    set (M := IZR max_tokens) in *. set (T := IZR tok) in *.
    assert (HM0 : (0 <= M)%R) by lra.
    assert (HXM_hi : (X * M <= T * (1 + u53))%R).
    { assert (H : (X <= x * (1 + u53))%R) by lra.
      pose proof (Rmult_le_compat_r _ _ _ HM0 H) as H'.
      replace (x * (1 + u53) * M)%R with (x * M * (1 + u53))%R in H' by ring.
      now rewrite Ex in H'. }
    assert (HXM_lo : (T * (1 - u53) <= X * M)%R).
    { assert (H : (x * (1 - u53) <= X)%R) by lra.
      pose proof (Rmult_le_compat_r _ _ _ HM0 H) as H'.
      replace (x * (1 - u53) * M)%R with (x * M * (1 - u53))%R in H' by ring.
      now rewrite Ex in H'. }
    assert (HPM_hi : (P * M <= 100 * T * (1 + u53) * (1 + u53))%R).
    { assert (H : (P <= X * 100 * (1 + u53))%R) by lra.
      pose proof (Rmult_le_compat_r _ _ _ HM0 H) as H'.
      assert (Hc1 : (0 <= 100 * (1 + u53))%R) by lra.
      pose proof (Rmult_le_compat_r _ _ _ Hc1 HXM_hi) as H''. lra. }
    assert (HPM_lo : (100 * T * (1 - u53) * (1 - u53) <= P * M)%R).
    { assert (H : (X * 100 * (1 - u53) <= P)%R) by lra.
      pose proof (Rmult_le_compat_r _ _ _ HM0 H) as H'.
      assert (Hc1 : (0 <= 100 * (1 - u53))%R) by lra.
      pose proof (Rmult_le_compat_r _ _ _ Hc1 HXM_lo) as H''. lra. }
    assert (HqM_hi : (IZR q * M <= P * M + M / 2)%R).
    { pose proof (Rmult_le_compat_r _ _ _ HM0 Qhi). lra. }
    assert (HqM_lo : (P * M - M / 2 <= IZR q * M)%R).
    { pose proof (Rmult_le_compat_r _ _ _ HM0 Qlo). lra. }
    assert (HTu : (T * u53 < 1 / 512)%R).
    { rewrite <- Hus. apply Rle_lt_trans with (M * u53)%R; [nra|nra]. }
    assert (HTu0 : (0 <= T * u53)%R) by nra.
    assert (HTuu : (T * u53 * u53 <= T * u53 * (1 / 4))%R)
      by (apply Rmult_le_compat_l; [exact HTu0|exact Hu4]).
    assert (HTuu0 : (0 <= T * u53 * u53)%R) by (apply Rmult_le_pos; lra).
    assert (H1 : (IZR (2 * (q * max_tokens - 100 * tok)) < IZR (max_tokens + 1))%R).
    { rewrite mult_IZR, minus_IZR, !mult_IZR, plus_IZR. fold M T. lra. }
    assert (H2 : (IZR (- (max_tokens + 1)) < IZR (2 * (q * max_tokens - 100 * tok)))%R).
    { rewrite opp_IZR, mult_IZR, minus_IZR, !mult_IZR, plus_IZR. fold M T. lra. }
    apply lt_IZR in H1, H2. lia.
Qed.

(** ** The counts of an aggregated tree *)

Lemma nodes_head t : In t (nodes t).
Proof. destruct t. rewrite nodes_unfold. now left. Qed.

(** After aggregation no count in a tree of files with counts that are not
    negative is negative or above the count of the root. *)
Lemma aggregate_nodes_bounded t :
  files_are_leaves t = true ->
  Forall (fun f => 0 <= tokens f) (file_nodes t) ->
  Forall (fun n => 0 <= tokens n <= tokens (fst (aggregate t)))
    (nodes (fst (aggregate t))).
Proof.
  induction t as [nm dir tok cs IH] using TokenNode_induction.
  rewrite files_are_leaves_unfold, file_nodes_unfold, aggregate_unfold.
  intros Hwf Hnn. apply andb_true_iff in Hwf as [Hleaf Hcs].
  destruct dir; cbn [negb fst].
  - cbn [app] in Hnn. rewrite nodes_unfold. cbn [tokens].
    rewrite Forall_flat_map in Hnn. rewrite forallb_forall in Hcs.
    assert (Hch : Forall (fun kc =>
               Forall (fun n => 0 <= tokens n <= returned kc)
                 (nodes (fst (aggregate (snd kc))))) cs).
    { rewrite Forall_forall in IH, Hnn |- *. intros kc Hin.
      unfold returned. rewrite aggregate_returns_tokens.
      assert (Hv : In (snd kc) (values cs)) by (unfold values; now apply in_map).
      apply IH; [exact Hin|now apply Hcs|now apply Hnn]. }
    assert (H0 : Forall (fun x => 0 <= x) (map returned cs)).
    { rewrite Forall_map. eapply Forall_impl; [|exact Hch]. cbn beta. intros kc Hkc.
      rewrite Forall_forall in Hkc.
      pose proof (Hkc _ (nodes_head _)) as H.
      unfold returned in *. rewrite aggregate_returns_tokens. lia. }
    destruct (sum_nonneg_bound _ H0) as [HS Hle]. rewrite Forall_map in Hle.
    constructor; [cbn [tokens]; lia|].
    rewrite values_aggregated, Forall_flat_map. unfold values.
    rewrite map_map, Forall_map.
    rewrite Forall_forall in Hch, Hle |- *. intros kc Hin.
    eapply Forall_impl; [|exact (Hch kc Hin)]. cbn beta. intros n Hn.
    pose proof (Hle kc Hin). lia.
  - destruct cs; [|discriminate]. rewrite nodes_unfold. cbn [values map flat_map].
    cbn [app flat_map values map] in Hnn. inversion Hnn as [|? ? H _]; subst.
    constructor; [simpl in *; lia|constructor].
Qed.

(** ** The files of the built tree *)

Lemma sum_perm l1 l2 : Permutation l1 l2 -> sum l1 = sum l2.
Proof.
  induction 1 as [|x l1 l2 _ IH|x y l|l1 l2 l3 _ IH1 _ IH2].
  - reflexivity.
  - rewrite !sum_cons. lia.
  - rewrite !sum_cons. lia.
  - congruence.
Qed.

Lemma lookup_split k c cs :
  lookup k cs = Some c ->
  exists l1 l2, cs = (l1 ++ (k, c) :: l2)%list /\ lookup k l1 = None.
Proof.
  induction cs as [|[k' c'] rest IH]; cbn [lookup]; [discriminate|].
  destruct (String.eqb k k') eqn:E.
  - intros [= ->]. apply String.eqb_eq in E as <-. exists [], rest. now split.
  - intros H. destruct (IH H) as [l1 [l2 [-> Hl1]]].
    exists ((k', c') :: l1), l2. split; [reflexivity|]. cbn [lookup]. now rewrite E.
Qed.

Lemma store_split k c c' l1 l2 :
  lookup k l1 = None ->
  store k c' (l1 ++ (k, c) :: l2) = (l1 ++ (k, c') :: l2)%list.
Proof.
  induction l1 as [|[k' c0] l1 IH]; cbn [lookup app store].
  - now rewrite String.eqb_refl.
  - destruct (String.eqb k k') eqn:E; [discriminate|]. intros H. now rewrite IH.
Qed.

Lemma prefix_app p q r : prefix p q = true -> prefix p (q ++ r) = true.
Proof.
  revert q. induction p as [|a p IH]; intros q H; [reflexivity|].
  destruct q as [|b q]; [discriminate|]. cbn [prefix app] in *.
  apply andb_true_iff in H as [-> H]. cbn [andb]. now apply IH.
Qed.

Lemma prefix_refl p : prefix p p = true.
Proof. induction p as [|a p IH]; [reflexivity|]. now rewrite prefix_head. Qed.

Lemma descend_set_tokens q c t :
  descend q (set_tokens c t) = None <-> descend q c = None.
Proof. destruct q; cbn [descend]; [split; discriminate|reflexivity]. Qed.

(** The path walk for a new path through directories adds one reached
    file, with that path and the count given. *)
Lemma add_file_entries dirs last tok node parts :
  keyed node -> is_dir node = true -> reaches_file dirs node = false ->
  descend (dirs ++ [last]) node = None ->
  Permutation (top_entries (add_file dirs last tok node) parts)
    ((parts ++ name node :: dirs ++ [last], tok)%list :: top_entries node parts).
Proof.
  revert node parts. induction dirs as [|part dirs' IH];
    intros [nm dir t0 cs] parts Hk Hdir Hreach Hnew;
    cbn [is_dir] in Hdir; subst dir; cbn [add_file name].
  - cbn [app descend children] in Hnew.
    destruct (lookup last cs) as [c|] eqn:Hl; [discriminate|].
    unfold ensure_child. cbn [children]. rewrite Hl.
    unfold set_children, set_tokens. cbn [name is_dir tokens children].
    rewrite (store_split last _ _ cs []) by exact Hl.
    rewrite !top_entries_unfold. cbn [negb]. unfold values.
    rewrite map_app, flat_map_app. cbn [map snd flat_map].
    rewrite top_entries_unfold. cbn [negb app]. rewrite <- app_assoc. cbn [app].
    symmetry. apply Permutation_cons_append.
  - cbn [app descend reaches_file children] in Hnew, Hreach.
    apply keyed_unfold in Hk as [Hnd [Hnames Hsub]].
    unfold ensure_child. cbn [children].
    destruct (lookup part cs) as [c|] eqn:Hl.
    + apply orb_false_iff in Hreach as [Hc Hreach].
      apply negb_false_iff in Hc.
      assert (Hkc : keyed c).
      { rewrite Forall_forall in Hsub. apply Hsub. exact (lookup_In _ _ _ Hl). }
      assert (Hname : name c = part).
      { rewrite Forall_forall in Hnames.
        exact (Hnames _ (lookup_entry _ _ _ Hl)). }
      pose proof (IH c (parts ++ [nm])%list Hkc Hc Hreach Hnew) as Hp.
      rewrite Hname in Hp.
      destruct (lookup_split _ _ _ Hl) as [l1 [l2 [-> Hl1]]].
      unfold set_children. cbn [name is_dir tokens children].
      rewrite (store_split part _ _ l1 l2) by exact Hl1.
      rewrite !top_entries_unfold. cbn [negb]. unfold values.
      rewrite !map_app, !flat_map_app. cbn [map snd flat_map].
      rewrite <- app_assoc in Hp. cbn [app] in Hp.
      rewrite Hp. cbn [app]. symmetry. apply Permutation_middle.
    + unfold set_children. cbn [name is_dir tokens children].
      rewrite (store_split part _ _ cs []) by exact Hl.
      assert (Hkf : keyed (mkNode part true 0 [])).
      { apply keyed_unfold. repeat split; constructor. }
      pose proof (IH (mkNode part true 0 []) (parts ++ [nm])%list Hkf eq_refl
                    (reaches_file_leaf _ _ _ _)) as Hp.
      rewrite descend_leaf in Hp by (now destruct dirs').
      specialize (Hp eq_refl). cbn [name] in Hp.
      rewrite (top_entries_unfold part true 0 []) in Hp. cbn [negb values map flat_map] in Hp.
      rewrite <- app_assoc in Hp. cbn [app] in Hp.
      rewrite !top_entries_unfold. cbn [negb]. unfold values.
      rewrite map_app, flat_map_app. cbn [map snd flat_map]. rewrite app_nil_r.
      rewrite Hp. symmetry. apply Permutation_cons_append.
Qed.

(** A node found after the path walk was there before, or lies on the
    added path. *)
Lemma add_file_descends q dirs last tok node :
  descend q (add_file dirs last tok node) <> None ->
  descend q node <> None \/ prefix q (dirs ++ [last]) = true.
Proof.
  revert node q. induction dirs as [|part dirs' IH]; intros node q H;
    (destruct q as [|k q']; [now right|]); cbn [add_file] in H.
  - destruct (String.eqb k last) eqn:Ek.
    + apply String.eqb_eq in Ek as ->. cbn [app descend].
      destruct (ensure_child_cases node last false) as [[c [Hl E]] | [Hl E]];
        rewrite E in H; cbn [descend children set_children snd] in H.
      * rewrite (lookup_store_same last _ c _ Hl) in H. rewrite Hl. left.
        now rewrite descend_set_tokens in H.
      * rewrite (lookup_store_same last _ (mkNode last false 0 [])) in H.
        2:{ rewrite lookup_app, Hl. cbn [lookup]. now rewrite String.eqb_refl. }
        right. destruct q' as [|k' q'']; [now rewrite prefix_head|].
        exfalso. apply H. reflexivity.
    + left. cbn [descend].
      destruct (ensure_child_cases node last false) as [[c [Hl E]] | [Hl E]];
        rewrite E in H; cbn [descend children set_children] in H;
        rewrite lookup_store_other in H by exact Ek.
      * exact H.
      * now rewrite lookup_appended in H by exact Ek.
  - destruct (String.eqb k part) eqn:Ek.
    + apply String.eqb_eq in Ek as ->. cbn [app descend]. rewrite prefix_head.
      destruct (ensure_child_cases node part true) as [[c [Hl E]] | [Hl E]];
        rewrite E in H; cbn [descend children set_children] in H.
      * rewrite (lookup_store_same part _ c _ Hl) in H. rewrite Hl.
        exact (IH _ _ H).
      * rewrite (lookup_store_same part _ (mkNode part true 0 [])) in H.
        2:{ rewrite lookup_app, Hl. cbn [lookup]. now rewrite String.eqb_refl. }
        right. destruct (IH _ _ H) as [H' | H']; [|exact H'].
        destruct q' as [|k' q'']; [reflexivity|]. exfalso. apply H'. reflexivity.
    + left. cbn [descend].
      destruct (ensure_child_cases node part true) as [[c [Hl E]] | [Hl E]];
        rewrite E in H; cbn [descend children set_children] in H;
        rewrite lookup_store_other in H by exact Ek.
      * exact H.
      * now rewrite lookup_appended in H by exact Ek.
Qed.

Lemma build_loop_holds_files files seen root skipped r :
  prefix_free (map fst seen) files = true -> holds_files seen root ->
  build_loop files root skipped = Ok r ->
  holds_files (rev (counted_files files) ++ seen) (fst r).
Proof.
  revert seen root skipped.
  induction files as [|f rest IH]; intros seen root skipped Hfree Hinv;
    cbn [build_loop prefix_free counted_files] in *.
  - intros [= <-]. exact Hinv.
  - destruct (counted f) as [tok|]; [|now apply IH].
    apply andb_true_iff in Hfree as [Hnew Hrest].
    destruct (split_last (rel_parts f)) as [[dirs last]|e] eqn:Es; cbn [bind fst snd];
      [|discriminate].
    apply split_last_ok in Es. rewrite Es in *.
    destruct Hinv as [Hdir [Hk [Hreach [Hdesc Hperm]]]].
    apply negb_true_iff in Hnew.
    assert (Hfresh : forall p, In p (map fst seen) ->
               prefix p (dirs ++ [last]) = false /\ prefix (dirs ++ [last]) p = false).
    { intros p Hp. apply orb_false_iff.
      destruct (prefix p (dirs ++ [last]) || prefix (dirs ++ [last]) p) eqn:E;
        [|reflexivity].
      assert (existsb (fun p => prefix p (dirs ++ [last]) || prefix (dirs ++ [last]) p)
                (map fst seen) = true)
        by (apply existsb_exists; exists p; auto).
      congruence. }
    assert (Hdirs : reaches_file dirs root = false).
    { destruct (reaches_file dirs root) eqn:E; [|reflexivity].
      destruct (Hreach _ E) as [p [Hp Hpre]].
      apply (prefix_app _ _ [last]) in Hpre.
      destruct (Hfresh p Hp) as [H _]. congruence. }
    assert (Hpath : descend (dirs ++ [last]) root = None).
    { destruct (descend (dirs ++ [last]) root) as [c|] eqn:E; [|reflexivity].
      destruct (Hdesc (dirs ++ [last])%list) as [p [Hp Hpre]];
        [now destruct dirs|congruence|].
      destruct (Hfresh p Hp) as [_ H]. congruence. }
    intros Hloop. cbn [rev]. rewrite <- app_assoc. cbn [app].
    eapply (IH (((dirs ++ [last])%list, tok) :: seen)); [exact Hrest| |exact Hloop].
    split; [now rewrite add_file_is_dir|]. split; [now apply add_file_keyed|].
    cbn [map fst]. split; [|split].
    + intros q Hq. destruct (add_file_reaches _ _ _ _ _ Hq) as [H | H].
      * destruct (Hreach _ H) as [p [Hp Hpre]]. exists p. split; [now right|exact Hpre].
      * exists (dirs ++ [last])%list. split; [now left|exact H].
    + intros q Hq0 Hq. destruct (add_file_descends _ _ _ _ _ Hq) as [H | H].
      * destruct (Hdesc _ Hq0 H) as [p [Hp Hpre]]. exists p. split; [now right|exact Hpre].
      * exists (dirs ++ [last])%list. split; [now left|exact H].
    + rewrite add_file_name.
      rewrite (add_file_entries dirs last tok root [] Hk Hdir Hdirs Hpath).
      cbn [app snd]. now constructor.
Qed.

(** X18.  When no counted path is equal to another or an initial segment
    of another, as with the paths of different files, the files reached in
    the tree that [build_token_tree] returns are the counted files, each
    under its path below the root and with its count; the count of the
    root is the sum of the counts of the counted files, and
    [summarize_tree] counts as many files as were counted. *)
Theorem build_token_tree_counts (root_name : string) (files : list file_in)
  (t : TokenNode) (k : Z) :
  build_token_tree root_name files = Ok (t, k) ->
  prefix_free [] files = true ->
  Permutation (top_entries t [])
    (map (fun e => (root_name :: fst e, snd e)) (counted_files files))
  /\ tokens t = sum (map snd (counted_files files))
  /\ fst (fst (summarize_tree t)) = Z.of_nat (List.length (counted_files files)).
Proof.
  unfold build_token_tree. intros H Hfree.
  destruct (build_loop files (mkNode root_name true 0 []) []) as [r|e] eqn:E;
    cbn [bind] in H; [|discriminate].
  injection H as <- _.
  assert (Hinit : holds_files [] (mkNode root_name true 0 [])).
  { split; [reflexivity|]. split; [apply keyed_unfold; repeat split; constructor|].
    split; [intros q Hq; now destruct q|].
    split; [intros q Hq0 Hq; destruct q; [congruence|now elim Hq]|].
    rewrite top_entries_unfold. constructor. }
  pose proof (build_loop_holds_files files [] _ [] r Hfree Hinit E)
    as [_ [_ [_ [_ Hperm]]]].
  destruct (build_loop_root _ _ _ _ E) as [Hname _]. cbn [name] in Hname.
  rewrite app_nil_r, Hname in Hperm.
  assert (Hp : Permutation (top_entries (fst (aggregate (fst r))) [])
                 (map (fun e => (root_name :: fst e, snd e)) (counted_files files))).
  { rewrite aggregate_top_entries, Hperm.
    apply Permutation_map. symmetry. apply Permutation_rev. }
  split; [exact Hp|]. split.
  - rewrite <- aggregate_returns_tokens, aggregate_sums_top_files.
    rewrite <- (top_entries_tokens (fst r) []), <- aggregate_top_entries.
    rewrite (sum_perm _ _ (Permutation_map snd Hp)), map_map. reflexivity.
  - unfold summarize_tree. cbn [fst]. rewrite summarize_walk_fold, fold_visit_count.
    cbn [count]. rewrite (Permutation_length Hp), length_map. lia.
Qed.

Lemma build_token_tree_counts_witness :
  build_token_tree "repo" scenario = Ok (fst (aggregate sample_tree), 0)
  /\ prefix_free [] scenario = true
  /\ Permutation (top_entries (fst (aggregate sample_tree)) [])
       (map (fun e => ("repo" :: fst e, snd e)) (counted_files scenario))
  /\ tokens (fst (aggregate sample_tree)) = sum (map snd (counted_files scenario))
  /\ fst (fst (summarize_tree (fst (aggregate sample_tree))))
     = Z.of_nat (List.length (counted_files scenario)).
Proof.
  assert (H1 : build_token_tree "repo" scenario = Ok (fst (aggregate sample_tree), 0))
    by (vm_compute; reflexivity).
  assert (H2 : prefix_free [] scenario = true) by reflexivity.
  split; [exact H1|]. split; [exact H2|].
  exact (build_token_tree_counts "repo" scenario _ 0 H1 H2).
Defined.

(** ** The count column *)

Lemma Forall2_right {A B : Type} (R : A -> B -> Prop) l rs :
  Forall2 R l rs -> Forall (fun r => exists a, In a l /\ R a r) rs.
Proof.
  induction 1 as [|a r l rs Har _ IH]; constructor.
  - exists a. split; [now left|exact Har].
  - eapply Forall_impl; [|exact IH]. cbn beta. intros r' [a' [Hin Hr]].
    exists a'. split; [now right|exact Hr].
Qed.

Lemma Forall2_left {A B : Type} (R : A -> B -> Prop) l rs a :
  Forall2 R l rs -> In a l -> exists r, In r rs /\ R a r.
Proof.
  induction 1 as [|a' r l rs Har _ IH]; intros Hin; [destruct Hin|].
  destruct Hin as [-> | Hin].
  - exists r. split; [now left|exact Har].
  - destruct (IH Hin) as [r' [Hr' HR]]. exists r'. split; [now right|exact HR].
Qed.

(** X19.  In the table [main] prints, the least width of the count column
    is the length of the longest count text of the rows: the text of every
    row fits, and the text of some row fills the width. *)
Theorem render_count_column (t : TokenNode) (bar_width : Z) (tb : Table) :
  render t bar_width = Ok tb ->
  Forall (fun r => exists s sty,
              tokens_cell r = [(s, sty)] /\ len s <= tokens_min_width tb) (rows tb)
  /\ Exists (fun r => exists s sty,
               tokens_cell r = [(s, sty)] /\ len s = tokens_min_width tb) (rows tb).
Proof.
  unfold render, render_tree_lines.
  destruct (max_token_text_len t) as [w|e] eqn:Ew; cbn [bind]; [|discriminate].
  destruct (walk (tokens t) bar_width t "" true 0) as [rs|e] eqn:Er; cbn [bind];
    [|discriminate].
  intros [= <-]. cbn [rows tokens_min_width].
  destruct (max_token_text_len_bounds t w Ew) as [Hall Hex].
  destruct (walk_shows _ _ _ _ _ _ _ Er) as [rest [Hperm Hshows]].
  rewrite Forall_forall in Hall. split.
  - eapply Forall_impl; [|exact (Forall2_right _ _ _ Hshows)]. cbn beta.
    intros r [n [Hin [[s [Hs Hcell]] _]]].
    apply (Permutation_in _ Hperm) in Hin.
    destruct (Hall n Hin) as [s' [Hs' Hlen]].
    exists s, (Some (if is_dir n then blue else green)). split; [exact Hcell|].
    congruence.
  - apply Exists_exists in Hex as [n [Hin [s [Hs Hlen]]]].
    apply (Permutation_in _ (Permutation_sym Hperm)) in Hin.
    destruct (Forall2_left _ _ _ _ Hshows Hin) as [r [Hr [[s' [Hs' Hcell]] _]]].
    apply Exists_exists. exists r. split; [exact Hr|].
    exists s', (Some (if is_dir n then blue else green)). split; [exact Hcell|].
    congruence.
Qed.

Lemma render_count_column_witness :
  exists tb,
    render (fst (aggregate sample_tree)) 24 = Ok tb
    /\ Forall (fun r => exists s sty,
                  tokens_cell r = [(s, sty)] /\ len s <= tokens_min_width tb) (rows tb)
    /\ Exists (fun r => exists s sty,
                  tokens_cell r = [(s, sty)] /\ len s = tokens_min_width tb) (rows tb).
Proof.
  eexists. split; [vm_compute; reflexivity|].
  apply (render_count_column (fst (aggregate sample_tree)) 24).
  vm_compute. reflexivity.
Defined.

(** ** No division by zero *)

Lemma render_tree_lines_raise t max_tokens bar_width max_token_len e :
  render_tree_lines t max_tokens bar_width max_token_len = Raise e ->
  e = OverflowError.
Proof.
  unfold render_tree_lines.
  destruct (walk max_tokens bar_width t "" true 0) as [rs|e'] eqn:Er; cbn [bind];
    [discriminate|].
  intros [= <-]. exact (walk_raise _ _ _ _ _ _ _ Er).
Qed.

(** X13.  Whatever the tree, the scale and the widths, [render_tree_lines]
    does not raise [ZeroDivisionError].  With the scale 0 the ratio of every
    file is 0: a bar that is produced has one full cell when the count of
    the file is positive and none otherwise, and the percentage is 0. *)
Theorem render_tree_lines_never_divides_by_zero (t : TokenNode)
  (max_tokens bar_width max_token_len : Z) :
  match render_tree_lines t max_tokens bar_width max_token_len with
  | Raise ZeroDivisionError => False
  | _ => True
  end
  /\ forall n bar pct,
      is_dir n = false ->
      bar_and_percent 0 bar_width n = Ok (bar, pct) ->
      bar = Rich [(repeat "█" (if 0 <? tokens n then 1 else 0)
                     ++ repeat "░" (bar_width - (if 0 <? tokens n then 1 else 0)),
                   Some magenta)]
      /\ pct = "  0%".
Proof.
  split.
  - destruct (render_tree_lines t max_tokens bar_width max_token_len) as [tb|e] eqn:E;
      [exact I|].
    now rewrite (render_tree_lines_raise _ _ _ _ _ E).
  - intros n bar pct Hfile. unfold bar_and_percent, ratio_of, filled_of.
    rewrite Hfile. cbn [negb Z.eqb bind times int_of format_number].
    rewrite !Z.mul_0_l. cbn [float_of_int Z.eqb bind].
    destruct (0 <? tokens n); intros [= <- <-]; split; reflexivity.
Qed.

(** ** The bar and the percentage that are produced *)

(** X16.  For a file whose count lies between 0 and the scale, with a
    scale below [2^53] and a bar width between 1 and [2^53], a bar and a
    percentage that are produced are these.  The bar has [filled] full
    cells followed by [bar_width - filled] light ones, so [bar_width] cells
    in all, with no full cell for a count of 0 and at least one otherwise.
    The percentage is a whole number from 0 to 100, right aligned on three
    characters before the sign, and for a scale below [2^44] it is a whole
    number nearest to the exact percentage. *)
Theorem file_bar_and_percent (max_tokens bar_width : Z) (n : TokenNode)
  (bar : cell) (pct : string) :
  is_dir n = false ->
  0 <= tokens n <= max_tokens -> max_tokens < 2 ^ 53 -> 0 < bar_width < 2 ^ 53 ->
  bar_and_percent max_tokens bar_width n = Ok (bar, pct) ->
  exists filled p,
    bar = Rich [(repeat "█" filled ++ repeat "░" (bar_width - filled), Some magenta)]
    /\ pct = pad_left 3 (str p) ++ "%"
    /\ 0 <= filled <= bar_width
    /\ (0 < tokens n -> 1 <= filled)
    /\ (tokens n = 0 -> filled = 0 /\ p = 0)
    /\ 0 <= p <= 100
    /\ (max_tokens < 2 ^ 44 ->
        2 * Z.abs (p * max_tokens - 100 * tokens n) <= max_tokens).
Proof.
  intros Hfile Ht Hm Hw H.
  destruct (bar_and_percent_value max_tokens bar_width n Hfile Ht Hm Hw)
    as [filled [p [E Hrest]]].
  rewrite E in H. injection H as <- <-. exists filled, p. auto.
Qed.

Lemma file_bar_and_percent_witness :
  exists bar pct,
    bar_and_percent 500 24 (mkNode "SKILL.md" false 300 []) = Ok (bar, pct)
    /\ exists filled p,
        bar = Rich [(repeat "█" filled ++ repeat "░" (24 - filled), Some magenta)]
        /\ pct = pad_left 3 (str p) ++ "%"
        /\ 0 <= filled <= 24
        /\ (0 < 300 -> 1 <= filled)
        /\ (300 = 0 -> filled = 0 /\ p = 0)
        /\ 0 <= p <= 100
        /\ (500 < 2 ^ 44 -> 2 * Z.abs (p * 500 - 100 * 300) <= 500).
Proof.
  do 2 eexists. split; [vm_compute; reflexivity|].
  apply (file_bar_and_percent 500 24 (mkNode "SKILL.md" false 300 []));
    [reflexivity|cbn; lia|lia|lia|vm_compute; reflexivity].
Defined.

(** X17.  In a tree whose files have no children and no negative count,
    after aggregation no count, of a file or of a directory, is negative
    or above the count of the root: every ratio [main] computes is between
    0 and 1. *)
Theorem aggregate_bounds_every_node (t : TokenNode) :
  files_are_leaves t = true ->
  Forall (fun f => 0 <= tokens f) (file_nodes t) ->
  Forall (fun n => 0 <= tokens n <= tokens (fst (aggregate t)))
    (nodes (fst (aggregate t))).
Proof. apply aggregate_nodes_bounded. Qed.

Lemma aggregate_bounds_every_node_witness :
  files_are_leaves sample_tree = true
  /\ Forall (fun f => 0 <= tokens f) (file_nodes sample_tree)
  /\ Forall (fun n => 0 <= tokens n <= tokens (fst (aggregate sample_tree)))
       (nodes (fst (aggregate sample_tree))).
Proof.
  assert (H1 : files_are_leaves sample_tree = true) by reflexivity.
  assert (H2 : Forall (fun f => 0 <= tokens f) (file_nodes sample_tree))
    by (repeat constructor; simpl; lia).
  split; [exact H1|]. split; [exact H2|].
  exact (aggregate_bounds_every_node sample_tree H1 H2).
Defined.

(** * The claims on the builder, the aggregation and the order of the rows *)

(** ** A path that runs through a node *)

Lemma add_file_tokens dirs last tok node :
  tokens (add_file dirs last tok node) = tokens node.
Proof.
  destruct dirs as [|part dirs']; cbn [add_file].
  - destruct (ensure_child_cases node last false) as [[c [_ ->]] | [_ ->]];
      reflexivity.
  - destruct (ensure_child_cases node part true) as [[c [_ ->]] | [_ ->]];
      reflexivity.
Qed.

Lemma split_last_app dirs last : split_last (dirs ++ [last]) = Ok (dirs, last).
Proof.
  induction dirs as [|p dirs' IH]; [reflexivity|].
  cbn [app split_last]. rewrite IH. cbn [bind fst snd].
  destruct dirs'; reflexivity.
Qed.

(** A node on the path of an added file keeps its kind, its name and its
    count, and holds the next part of the path among its children. *)
Lemma add_file_through p dirs last tok node k rest f :
  (dirs ++ [last])%list = (p ++ k :: rest)%list ->
  descend p node = Some f ->
  exists f' c,
    descend p (add_file dirs last tok node) = Some f'
    /\ is_dir f' = is_dir f /\ name f' = name f /\ tokens f' = tokens f
    /\ lookup k (children f') = Some c.
Proof.
  revert dirs node. induction p as [|a p' IH]; intros dirs node Hpath Hf.
  - cbn [descend app] in *. injection Hf as <-.
    pose proof (add_file_descend dirs last tok node) as Hd.
    rewrite Hpath in Hd. cbn [descend] in Hd.
    destruct (lookup k (children (add_file dirs last tok node))) as [c|] eqn:Hl;
      [|discriminate].
    exists (add_file dirs last tok node), c.
    rewrite add_file_is_dir, add_file_name, add_file_tokens. auto.
  - destruct dirs as [|part dirs'].
    { cbn [app] in Hpath. injection Hpath as _ Hnil. now destruct p'. }
    cbn [app] in Hpath. injection Hpath as -> Hpath.
    cbn [descend] in Hf.
    destruct (lookup a (children node)) as [c0|] eqn:Hl; [|discriminate].
    cbn [add_file]. unfold ensure_child. rewrite Hl.
    cbn [descend children set_children].
    rewrite (lookup_store_same a _ c0 _ Hl).
    exact (IH dirs' c0 Hpath Hf).
Qed.

(** C2, amended.  The builder has no error for a path that runs through a
    segment created as a file node.  The path walk, which every counted
    file of the loop goes through, reuses the file node as the parent: the
    node keeps its kind, its name and its count, the next segment of the
    path is attached below it, and the new file is found at the end of the
    path with its count.  A counted file with an empty relative path makes
    the builder fail, with [IndexError]; when the builder returns, no
    counted path was empty. *)
Theorem build_token_tree_outcome (root_name : string) (files : list file_in) :
  (paths_nonempty files = false ->
   build_token_tree root_name files = Raise IndexError)
  /\ (forall t k, build_token_tree root_name files = Ok (t, k) ->
                  paths_nonempty files = true)
  /\ (forall f rest root skipped dirs last tok,
        counted f = Some tok -> rel_parts f = (dirs ++ [last])%list ->
        build_loop (f :: rest) root skipped
        = build_loop rest (add_file dirs last tok root) skipped)
  /\ (forall node dirs last tok p k rest f,
        (dirs ++ [last])%list = (p ++ k :: rest)%list ->
        descend p node = Some f -> is_dir f = false ->
        exists f' c n,
          descend p (add_file dirs last tok node) = Some f'
          /\ is_dir f' = false /\ name f' = name f /\ tokens f' = tokens f
          /\ lookup k (children f') = Some c
          /\ descend (dirs ++ [last]) (add_file dirs last tok node) = Some n
          /\ tokens n = tok).
Proof.
  pose proof (build_loop_outcome files (mkNode root_name true 0 []) []) as H.
  unfold build_token_tree.
  split; [|split; [|split]].
  - intros Hempty.
    destruct (build_loop files (mkNode root_name true 0 []) []) as [r|e];
      cbn [bind]; [congruence|].
    now destruct H as [-> _].
  - intros t k.
    destruct (build_loop files (mkNode root_name true 0 []) []) as [r|e];
      cbn [bind]; [intros _; exact H|discriminate].
  - intros f rest root skipped dirs last tok Hc Hp. cbn [build_loop].
    rewrite Hc, Hp, split_last_app. reflexivity.
  - intros node dirs last tok p k rest f Hpath Hf Hfile.
    destruct (add_file_through p dirs last tok node k rest f Hpath Hf)
      as [f' [c [Hd [Hk [Hn [Ht Hl]]]]]].
    exists f', c. eexists. rewrite Hk, Hfile.
    repeat match goal with |- _ /\ _ => split end; try assumption; try reflexivity.
    + apply add_file_descend.
    + destruct (descend (dirs ++ [last]) node); reflexivity.
Qed.

(** ** The aggregated tree *)

Lemma with_totals_unfold nm dir tok cs :
  with_totals (mkNode nm dir tok cs)
  = mkNode nm dir
      (if dir then sum (map tokens (file_nodes (mkNode nm dir tok cs))) else tok)
      (map (fun kc => (fst kc, with_totals (snd kc))) cs).
Proof.
  cbn [with_totals]. f_equal.
  induction cs as [|[k c] rest IH]; [reflexivity|]. cbn [map fst snd]. now rewrite IH.
Qed.

Lemma aggregate_with_totals t :
  files_are_leaves t = true ->
  aggregate t = (with_totals t, sum (map tokens (file_nodes t))).
Proof.
  induction t as [nm dir tok cs IH] using TokenNode_induction.
  intros Hwf. pose proof (aggregate_tokens _ Hwf) as Htok.
  pose proof (aggregate_returns_tokens (mkNode nm dir tok cs)) as Hret.
  rewrite files_are_leaves_unfold in Hwf. apply andb_true_iff in Hwf as [Hleaf Hcs].
  rewrite aggregate_unfold in *. rewrite with_totals_unfold.
  destruct dir; cbn [negb fst snd tokens] in *.
  - rewrite <- Htok. f_equal. f_equal.
    apply map_ext_Forall. rewrite forallb_forall in Hcs.
    rewrite Forall_forall in IH |- *. intros kc Hin. unfold aggregated.
    rewrite IH; [reflexivity|exact Hin|].
    apply Hcs. unfold values. now apply in_map.
  - destruct cs; [|discriminate]. reflexivity.
Qed.

(** C3, counterexample.  [aggregate] does not descend below a file node:
    with the file [a] of 5 tokens holding the directory [d], which holds
    the file [c] of 7 tokens, the root gets 5, not the 12 of the file nodes
    of its subtree, and the directory [d] keeps the count 0 beside a child
    of 7. *)
Lemma aggregate_skips_below_file :
  is_dir (fst (aggregate below_file_tree)) = true
  /\ tokens (fst (aggregate below_file_tree)) = 5
  /\ sum (map tokens (file_nodes (fst (aggregate below_file_tree)))) = 12
  /\ exists d,
      In d (nodes (fst (aggregate below_file_tree)))
      /\ is_dir d = true /\ tokens d = 0
      /\ sum (map tokens (values (children d))) = 7.
Proof.
  split; [reflexivity|]. split; [reflexivity|]. split; [reflexivity|].
  exists (mkNode "d" true 0 [("c", mkNode "c" false 7 [])]).
  split; [cbn; auto|]. split; [reflexivity|]. split; reflexivity.
Qed.

(** C3, amended.  On a tree whose file nodes have no children,
    [aggregate] gives the tree in which every directory node carries the
    sum of the counts of all the file nodes of its subtree and nothing else
    differs; that sum is also the sum of the counts of the children of the
    directory.  [aggregate] returns the count the node then carries, and on
    a file node it changes nothing and returns the count of the file. *)
Theorem aggregate_correct (t : TokenNode) :
  files_are_leaves t = true ->
  aggregate t = (with_totals t, sum (map tokens (file_nodes t)))
  /\ (forall d, In d (nodes (fst (aggregate t))) -> is_dir d = true ->
                tokens d = sum (map tokens (file_nodes d))
                /\ tokens d = sum (map tokens (values (children d))))
  /\ snd (aggregate t) = tokens (fst (aggregate t))
  /\ (is_dir t = false -> aggregate t = (t, tokens t)).
Proof.
  intros Hwf. split; [|split; [|split]].
  - now apply aggregate_with_totals.
  - intros d Hin Hdir. now apply (aggregate_nodes t d).
  - apply aggregate_returns_tokens.
  - apply aggregate_file.
Qed.

Lemma aggregate_correct_witness :
  files_are_leaves sample_tree = true
  /\ (aggregate sample_tree
      = (with_totals sample_tree, sum (map tokens (file_nodes sample_tree)))
      /\ (forall d, In d (nodes (fst (aggregate sample_tree))) -> is_dir d = true ->
                    tokens d = sum (map tokens (file_nodes d))
                    /\ tokens d = sum (map tokens (values (children d))))
      /\ snd (aggregate sample_tree) = tokens (fst (aggregate sample_tree))
      /\ (is_dir sample_tree = false ->
          aggregate sample_tree = (sample_tree, tokens sample_tree))).
Proof.
  split; [reflexivity|]. apply (aggregate_correct sample_tree). reflexivity.
Defined.

(** ** The order of the rows *)

Lemma walk_each_listed max_tokens bar_width l :
  Forall (fun c => forall prefix is_last depth rs,
              walk max_tokens bar_width c prefix is_last depth = Ok rs ->
              exists ns, listed c ns /\ Forall2 shows ns rs) l ->
  forall prefix depth rs,
    walk_each (walk max_tokens bar_width) l prefix depth = Ok rs ->
    exists nss, Forall2 listed l nss /\ Forall2 shows (List.concat nss) rs.
Proof.
  induction 1 as [|c l Hc _ IH]; intros prefix depth rs; cbn [walk_each].
  - intros [= <-]. exists []. split; constructor.
  - destruct (walk max_tokens bar_width c prefix
                match l with [] => true | _ :: _ => false end depth) as [r|e] eqn:Ec;
      cbn [bind]; [|discriminate].
    destruct (walk_each (walk max_tokens bar_width) l prefix depth) as [rs'|e] eqn:El;
      cbn [bind]; [|discriminate].
    intros [= <-].
    destruct (Hc _ _ _ _ Ec) as [n1 [L1 F1]].
    destruct (IH _ _ _ El) as [nss [L2 F2]].
    exists (n1 :: nss). split; [now constructor|].
    cbn [List.concat]. now apply Forall2_app.
Qed.

Lemma walk_listed max_tokens bar_width t prefix is_last depth rs :
  walk max_tokens bar_width t prefix is_last depth = Ok rs ->
  exists ns, listed t ns /\ Forall2 shows ns rs.
Proof.
  revert prefix is_last depth rs.
  induction t as [nm dir tok cs IH] using TokenNode_induction.
  intros prefix is_last depth rs. rewrite walk_unfold.
  destruct (row_of max_tokens bar_width (mkNode nm dir tok cs) prefix is_last depth)
    as [r|e] eqn:Er; cbn [bind]; [|discriminate].
  destruct (walk_each (walk max_tokens bar_width) (ordered cs)
              (next_prefix_of prefix is_last) (depth + 1)) as [rs'|e] eqn:Ew;
    cbn [bind]; [|discriminate].
  intros [= <-].
  destruct (display_order_spec (values cs)) as [dirs [files [E [Hd [Hf [Sd [Sf Hp]]]]]]].
  fold (ordered cs) in E.
  assert (Hall : Forall (fun c => forall prefix is_last depth rs,
              walk max_tokens bar_width c prefix is_last depth = Ok rs ->
              exists ns, listed c ns /\ Forall2 shows ns rs) (ordered cs)).
  { rewrite Forall_forall. intros c Hc.
    apply (Permutation_in _ (ordered_perm cs)) in Hc.
    unfold values in Hc. apply in_map_iff in Hc as [kc [<- Hkc]].
    rewrite Forall_forall in IH. exact (IH kc Hkc). }
  destruct (walk_each_listed _ _ _ Hall _ _ _ Ew) as [nss [Hl Hs]].
  exists (mkNode nm dir tok cs :: List.concat nss). split.
  - rewrite E in Hl. now apply (listed_node (mkNode nm dir tok cs) dirs files nss).
  - constructor; [exact (row_of_shows _ _ _ _ _ _ _ Er)|exact Hs].
Qed.

(** C5.  The rows of the rendered table are the rows of the nodes of the
    tree in display order: the row of a node, then, for its children with
    all the directories before all the files and each group in ascending
    order of name, the rows of each child and of what is below it; every
    row carries the name and the count of its node.  Under every node the
    order of the children is the same after any change of the nodes that
    keeps their names and kinds, so it does not depend on the counts. *)
Theorem render_order (max_tokens bar_width : Z) (nm : string) (dir : bool) (tok : Z)
  (cs : list (string * TokenNode)) (prefix : string) (is_last : bool) (depth : Z) :
  (forall rs,
      walk max_tokens bar_width (mkNode nm dir tok cs) prefix is_last depth = Ok rs ->
      exists ns, listed (mkNode nm dir tok cs) ns /\ Forall2 shows ns rs)
  /\ (forall max_token_len tb,
        render_tree_lines (mkNode nm dir tok cs) max_tokens bar_width max_token_len
        = Ok tb ->
        exists ns, listed (mkNode nm dir tok cs) ns /\ Forall2 shows ns (rows tb))
  /\ exists dirs files,
      ordered cs = (dirs ++ files)%list
      /\ Forall (fun c => is_dir c = true) dirs
      /\ Forall (fun c => is_dir c = false) files
      /\ StronglySorted (key_le name) dirs
      /\ StronglySorted (key_le name) files
      /\ Permutation (dirs ++ files) (values cs)
      /\ walk max_tokens bar_width (mkNode nm dir tok cs) prefix is_last depth
         = (row <- row_of max_tokens bar_width (mkNode nm dir tok cs) prefix is_last
                     depth ;;
            rs <- walk_each (walk max_tokens bar_width) (dirs ++ files)%list
                    (next_prefix_of prefix is_last) (depth + 1) ;;
            Ok (row :: rs))
      /\ forall g : TokenNode -> TokenNode,
          (forall c, name (g c) = name c) -> (forall c, is_dir (g c) = is_dir c) ->
          display_order (fun c => c) (map g (values cs)) = map g (dirs ++ files)%list.
Proof.
  split; [|split].
  - intros rs. apply walk_listed.
  - intros w tb. unfold render_tree_lines.
    destruct (walk max_tokens bar_width (mkNode nm dir tok cs) "" true 0) as [rs|e] eqn:Ew;
      cbn [bind]; [|discriminate].
    intros [= <-]. cbn [rows]. exact (walk_listed _ _ _ _ _ _ _ Ew).
  - destruct (display_order_spec (values cs))
      as [dirs [files [E [Hd [Hf [Sd [Sf Hp]]]]]]].
    exists dirs, files. fold (ordered cs) in E.
    repeat match goal with |- _ /\ _ => split end; try assumption.
    + rewrite walk_unfold, E. reflexivity.
    + intros g Hname Hdir. rewrite <- E. now apply display_order_relabel.
Qed.

Lemma render_order_witness :
  exists tb ns,
    render_tree_lines (mkNode "repo" true 500 (children (fst (aggregate sample_tree))))
      500 10 3 = Ok tb
    /\ listed (mkNode "repo" true 500 (children (fst (aggregate sample_tree)))) ns
    /\ Forall2 shows ns (rows tb).
Proof.
  destruct (render_order 500 10 "repo" true 500
              (children (fst (aggregate sample_tree))) "" true 0) as [_ [H _]].
  destruct (render_tree_lines
              (mkNode "repo" true 500 (children (fst (aggregate sample_tree))))
              500 10 3) as [tb|e] eqn:E; [|vm_compute in E; discriminate].
  destruct (H 3 tb E) as [ns [Hl Hs]]. exists tb, ns. auto.
Defined.
